(** * DataCite preprint harvester: resumable harvest and shard merge

    A shallow embedding of
    [src/datacite_preprint_harvester/harvest_datacite.py] and
    [src/datacite_preprint_harvester/merge_parquets.py], with the
    properties of the specification stated and settled against it.

    Python dictionaries keep their insertion order, so they are
    association lists with distinct keys; sets are [gset]; the network,
    the file system, the clock, SHA-1, the JSON string encoder and
    pyarrow's cast are the environment and appear as section variables
    or as fields of an environment record. [os.makedirs], the writes of
    the chunk files and [writer.close] are taken to succeed; the write
    of a checkpoint, the opening of the Parquet writer, the write of a
    table and the final rename can fail, as the code provides for. *)

From Stdlib Require Import ZArith Ascii String List Sorting.Permutation Lia.
From Stdlib Require OrderedTypeEx DecimalString DecimalNat.
From stdpp Require Import gmap strings list fin_maps sorting.

Open Scope string_scope.
Open Scope Z_scope.

(** ** Python values and dictionaries *)

Module Py.

(** The values that occur in the request parameters: [None], [str],
    [int]. *)
Inductive pyval :=
| VNone
| VStr (s : string)
| VInt (z : Z).

#[global] Instance pyval_eq_dec : EqDecision pyval.
Proof. solve_decision. Defined.

(** Truthiness of an [Optional[str]], as in [if o:] and [while o:]. *)
Definition truthy_str (o : option string) : bool :=
  match o with
  | Some s => negb (String.eqb s "")
  | None => false
  end.

(** [o or d] for an [Optional[str]]. *)
Definition str_or (o : option string) (d : string) : string :=
  match o with
  | Some s => if String.eqb s "" then d else s
  | None => d
  end.

(** A [dict] with [str] keys: the items in insertion order. *)
Definition pydict := list (string * pyval).

Definition keys (d : pydict) : list string := map fst d.

(** [d.get(k)] / [k in d]. *)
Fixpoint dict_get (k : string) (d : pydict) : option pyval :=
  match d with
  | [] => None
  | (k', v) :: d' => if String.eqb k k' then Some v else dict_get k d'
  end.

(** [d[k] = v]: an existing key keeps its position, a new key goes
    last. *)
Fixpoint dict_set (k : string) (v : pyval) (d : pydict) : pydict :=
  match d with
  | [] => [(k, v)]
  | (k', v') :: d' =>
      if String.eqb k k' then (k', v) :: d' else (k', v') :: dict_set k v d'
  end.

(** [d.setdefault(k, v)]. *)
Definition dict_setdefault (k : string) (v : pyval) (d : pydict) : pydict :=
  match dict_get k d with
  | Some _ => d
  | None => dict_set k v d
  end.

(** [d1 == d2] on dictionaries: same keys with the same values, whatever
    the insertion order. *)
Definition dict_eqb (d1 d2 : pydict) : bool :=
  bool_decide ((list_to_map d1 : gmap string pyval) = list_to_map d2).

Fixpoint ends_with_slash (s : string) : bool :=
  match s with
  | EmptyString => false
  | String c EmptyString => bool_decide (c = "/"%char)
  | String _ s' => ends_with_slash s'
  end.

(** [os.path.join(dir, name)] for a relative [name] (POSIX). *)
Definition path_join (dir name : string) : string :=
  if String.eqb dir "" then name
  else if ends_with_slash dir then dir ++ name
  else dir ++ "/" ++ name.

(** The exceptions the modelled functions raise. *)
Inductive pyexn :=
| AssertionError (msg : string)
| RuntimeError (msg : string)
| HTTPError (status : Z)
| RequestException (what : string)
| NotADirectoryError (path : string)
| ArrowInvalid (field : string)
| TypeError (msg : string)
| KeyError (key : string).

(** A call either returns or raises. *)
Inductive outcome (A : Type) :=
| Return (a : A)
| Raise (e : pyexn).
Arguments Return {A} a.
Arguments Raise {A} e.

End Py.
Export Py.

(** ** Query signature ([_sig_dict], [_sig_hash]) *)

Module Sig.

Definition keep : list string :=
  [ "resource-type-id"; "query";
    "from-registered-date"; "until-registered-date";
    "from-created-date"; "until-created-date";
    "from-updated-date"; "until-updated-date";
    "client-id" ].

(** [{k: d[k] for k in keep if k in d and d[k] is not None}] *)
Definition _sig_dict (d : pydict) : pydict :=
  omap (fun k =>
          match dict_get k d with
          | Some VNone | None => None
          | Some v => Some (k, v)
          end) keep.

(** Insertion of an item into a list of items sorted by key: the
    [sort_keys=True] of [json.dumps]. *)
Fixpoint insert_by_key (kv : string * pyval) (l : pydict) : pydict :=
  match l with
  | [] => [kv]
  | kv' :: l' =>
      if String.leb (fst kv) (fst kv') then kv :: l
      else kv' :: insert_by_key kv l'
  end.

Definition sort_keys (d : pydict) : pydict :=
  fold_right insert_by_key [] d.

Section Hash.

(** [json]'s encoder of a [str] (quotes and escapes), Python's [repr] of
    an [int], and [hashlib.sha1(...).hexdigest()] on the UTF-8 bytes of
    a string. *)
Variable encode_basestring : string -> string.
Variable int_repr : Z -> string.
Variable sha1_hexdigest : string -> string.

Definition json_value (v : pyval) : string :=
  match v with
  | VNone => "null"
  | VStr s => encode_basestring s
  | VInt z => int_repr z
  end.

Definition json_item (kv : string * pyval) : string :=
  encode_basestring (fst kv) ++ ": " ++ json_value (snd kv).

Fixpoint join_with (sep : string) (l : list string) : string :=
  match l with
  | [] => ""
  | [s] => s
  | s :: l' => s ++ sep ++ join_with sep l'
  end.

(** [json.dumps(d, sort_keys=True, ensure_ascii=False)] on a flat
    dictionary. *)
Definition json_dumps_sorted (d : pydict) : string :=
  "{" ++ join_with ", " (map json_item (sort_keys d)) ++ "}".

(** [hashlib.sha1(payload.encode("utf-8")).hexdigest()[:12]] *)
Definition _sig_hash (d : pydict) : string :=
  substring 0 12 (sha1_hexdigest (json_dumps_sorted d)).

End Hash.

End Sig.

(** ** Request parameters ([_as_str_or_none], [_build_params]) *)

Module Params.

(** A date argument: an [Optional[str]], or the one-element tuple that
    [_as_str_or_none] unwraps. *)
Inductive date_arg :=
| DVal (o : option string)
| DTuple1 (o : option string).

Definition _as_str_or_none (v : date_arg) : option string :=
  match v with
  | DVal o => o
  | DTuple1 o => o
  end.

(** [if o: params[k] = o] *)
Definition set_if_truthy (k : string) (o : option string) (params : pydict)
  : pydict :=
  match o with
  | Some s => if String.eqb s "" then params else dict_set k (VStr s) params
  | None => params
  end.

(** [if b: params[k] = "true"] *)
Definition set_flag (k : string) (b : bool) (params : pydict) : pydict :=
  if b then dict_set k (VStr "true") params else params.

Section BuildParams.

(** [date.today().isoformat()] *)
Variable today : string.

Definition _build_params
    (resource_type_id : option string) (date_field : string)
    (date_start date_end : date_arg) (client_id : option string)
    (rows : Z) (cursor : option string)
    (include_affiliation disable_facets : bool) (query : option string)
  : outcome pydict :=
  if negb ((1 <=? rows) && (rows <=? 1000)) then
    Raise (AssertionError "page[size] must be 1..1000")
  else
    let date_end :=
      match date_end with
      | DVal None => DVal (Some today)
      | _ => date_end
      end in
    let params : pydict :=
      [ ("page[size]", VInt rows);
        ("page[cursor]", VStr (str_or cursor "1")) ] in
    let params := set_if_truthy "resource-type-id" resource_type_id params in
    let ds := _as_str_or_none date_start in
    let de := _as_str_or_none date_end in
    let params := set_if_truthy ("from-" ++ date_field ++ "-date") ds params in
    let params := set_if_truthy ("until-" ++ date_field ++ "-date") de params in
    let params := set_if_truthy "client-id" client_id params in
    let params := set_flag "affiliation" include_affiliation params in
    let params := set_flag "disable-facets" disable_facets params in
    let params := set_if_truthy "query" query params in
    Return params.

End BuildParams.

End Params.

(** ** The retrying fetcher ([_request_get]) *)

Module Fetch.

Section RequestGet.

(** The parsed JSON body of a response. *)
Context {json : Type}.

(** What one [requests.get] does: it returns a response with a status
    code (whose body parses as JSON when the code is 200), or it raises a
    [requests.RequestException] (time-out, connection error). *)
Inductive attempt_outcome :=
| Response (status : Z) (body : json)
| NetworkError (what : string).

(** The outcome of the [k]-th attempt of the call. *)
Variable net : nat -> attempt_outcome.

(** How the call ends; a Python function that falls off its end returns
    [None]. *)
Inductive fetch_result :=
| Returned (js : json)
| ReturnedNone
| Raised (e : pyexn).

Definition retry_status (code : Z) : bool :=
  bool_decide (code ∈ [429; 500; 502; 503; 504]).

(** [r.raise_for_status()] raises an [HTTPError] for 4xx and 5xx. *)
Definition raise_for_status (code : Z) : option pyexn :=
  if (400 <=? code) && (code <? 600) then Some (HTTPError code) else None.

(** The loop [for attempt in range(retries)], from [attempt] on with
    [remaining] iterations left; [sleeps] collects the exponents [k] of
    the delays [time.sleep(base_sleep * 2 ** k)]. *)
Fixpoint attempts (remaining attempt : nat) (last_exc : option pyexn)
    (sleeps : list nat) : fetch_result * list nat :=
  match remaining with
  | O =>
      match last_exc with
      | Some e => (Raised e, sleeps)
      | None => (ReturnedNone, sleeps)
      end
  | S remaining' =>
      match net attempt with
      | Response status body =>
          if status =? 200 then (Returned body, sleeps)
          else if retry_status status then
            attempts remaining' (S attempt) last_exc (sleeps ++ [attempt])
          else
            match raise_for_status status with
            | Some e =>
                attempts remaining' (S attempt) (Some e) (sleeps ++ [attempt])
            | None => attempts remaining' (S attempt) last_exc sleeps
            end
      | NetworkError what =>
          attempts remaining' (S attempt) (Some (RequestException what))
                   (sleeps ++ [attempt])
      end
  end.

Definition _request_get (retries : Z) : fetch_result * list nat :=
  attempts (Z.to_nat retries) 0 None [].

(** Every attempt of the call fails with a transient condition. *)
Definition transient (o : attempt_outcome) : Prop :=
  match o with
  | Response status _ => retry_status status = true
  | NetworkError _ => True
  end.

End RequestGet.

Arguments attempt_outcome json : clear implicits.
Arguments fetch_result json : clear implicits.

End Fetch.

(** ** Checkpoints and the resumable stream
       ([_checkpoint_path], [_load_checkpoint], [_save_checkpoint],
       [stream_datacite_with_resume]) and the buffering loop of
       [harvest_datacite_preprints_dataframe] *)

Module Stream.

(** [s.replace(".", "_").replace("/", "_").replace(":", "_")] *)
Fixpoint sanitize (s : string) : string :=
  match s with
  | EmptyString => EmptyString
  | String c s' =>
      String (if bool_decide (c ∈ ["."; "/"; ":"]%char) then "_"%char else c)
             (sanitize s')
  end.

Definition _checkpoint_path (checkpoint_dir signature_hash : string)
    (client_id : option string) : string :=
  let fname := "checkpoint_" ++ signature_hash in
  let fname :=
    match client_id with
    | Some cid =>
        if String.eqb cid "" then fname else fname ++ "_" ++ sanitize cid
    | None => fname
    end in
  path_join checkpoint_dir (fname ++ ".json").

(** The checkpoint document; [saved_at] is a time stamp that nothing
    reads back and is left out. *)
Record checkpoint := Checkpoint {
  signature : pydict;
  next_cursor : option string
}.

(** A file under the checkpoint directory: a checkpoint document, or
    bytes that [json.load] rejects. *)
Inductive ckpt_file :=
| Stored (c : checkpoint)
| Unreadable.

(** The checkpoint files by path. *)
Abbreviation ckpt_store := (gmap string ckpt_file).

Definition _load_checkpoint (fs : ckpt_store) (path : string)
  : option checkpoint :=
  match fs !! path with
  | Some (Stored c) => Some c
  | Some Unreadable => None
  | None => None
  end.

(** How the write in [_save_checkpoint] goes: it succeeds, [open] fails
    (the file is left as it was), or [json.dump] fails after [open]
    truncated the file. Both failures are printed, not raised. *)
Inductive write_outcome :=
| Written
| OpenFailed
| DumpFailed.

Definition _save_checkpoint (o : write_outcome) (path : string)
    (data : checkpoint) (fs : ckpt_store) : ckpt_store :=
  match o with
  | Written => <[path := Stored data]> fs
  | OpenFailed => fs
  | DumpFailed => <[path := Unreadable]> fs
  end.

(** How a pass starts. *)
Inductive entry_mode :=
| Resuming (cursor : string)
| Fresh.

(** [if ckpt and ckpt.get("signature") == sig and ckpt.get("next_cursor")] *)
Definition entry (sig : pydict) (ckpt : option checkpoint) : entry_mode :=
  match ckpt with
  | Some c =>
      if dict_eqb (signature c) sig && truthy_str (next_cursor c) then
        match next_cursor c with
        | Some nc => Resuming nc
        | None => Fresh
        end
      else Fresh
  | None => Fresh
  end.

Definition start_params (base_params : pydict) (m : entry_mode) : pydict :=
  match m with
  | Resuming nc => dict_set "page[cursor]" (VStr nc) base_params
  | Fresh => dict_setdefault "page[cursor]" (VStr "1") base_params
  end.

Section Pass.

Context {item row : Type}.

(** The parts of the JSON answer that the stream reads:
    [js.get("data") or []] and [(js.get("links") or {}).get("next")]. *)
Record response := Resp {
  data : list item;
  links_next : option string
}.

Variable encode_basestring : string -> string.
Variable int_repr : Z -> string.
Variable sha1_hexdigest : string -> string.

(** [_parse_next_cursor]: the [page[cursor]] value of the query string of
    the link, by [urllib.parse]. *)
Variable _parse_next_cursor : string -> option string.

(** [_request_get(DATACITE_DOIS, params=...)] as the stream sees it: the
    answer, or [None] when the call does not hand back a mapping (it
    raised, or the stream raises on its result). *)
Variable request_get : pydict -> option response.

(** The outcome of the [k]-th checkpoint write of the pass. *)
Variable disk : nat -> write_outcome.

(** [_parse_next_cursor(nxt) if nxt else None] *)
Definition parsed_next (js : response) : option string :=
  match links_next js with
  | Some nxt => if String.eqb nxt "" then None else _parse_next_cursor nxt
  | None => None
  end.

(** What happens during a pass, in the order in which it happens: the
    generator is lazy, so the consumer handles each yielded item before
    the generator goes on. *)
Inductive event :=
| EvRequest (params : pydict)
| EvYield (it : item)
| EvSave (path : string) (c : checkpoint) (o : write_outcome)
| EvDone (cursor : option string)
| EvRaise.

(** The loop [while next_cursor:], with [k] checkpoint writes done so
    far. The server decides how many pages there are, so the loop runs
    on [fuel]; when it runs out the trace stops where it is. *)
Fixpoint next_pages (fuel : nat) (path : string) (sig params : pydict)
    (k : nat) (cursor : option string) : list event :=
  match fuel with
  | O => []
  | S fuel' =>
      match cursor with
      | Some nc =>
          if String.eqb nc "" then [EvDone cursor]
          else
            let params := dict_set "page[cursor]" (VStr nc) params in
            EvRequest params ::
            match request_get params with
            | None => [EvRaise]
            | Some js =>
                match data js with
                | [] => [EvDone cursor]
                | items =>
                    let nxt := parsed_next js in
                    map EvYield items
                    ++ EvSave path (Checkpoint sig nxt) (disk k)
                    :: next_pages fuel' path sig params (S k) nxt
                end
            end
      | None => [EvDone cursor]
      end
  end.

Definition stream_datacite_with_resume (fuel : nat) (base_params : pydict)
    (checkpoint_dir : string) (client_id_for_ckpt : option string)
    (fs : ckpt_store) : list event :=
  let sig := Sig._sig_dict base_params in
  let sig_h := Sig._sig_hash encode_basestring int_repr sha1_hexdigest sig in
  let ckpt_path := _checkpoint_path checkpoint_dir sig_h client_id_for_ckpt in
  let ckpt := _load_checkpoint fs ckpt_path in
  let params := start_params base_params (entry sig ckpt) in
  EvRequest params ::
  match request_get params with
  | None => [EvRaise]
  | Some js =>
      let nxt := parsed_next js in
      map EvYield (data js)
      ++ EvSave ckpt_path (Checkpoint sig nxt) (disk 0)
      :: next_pages fuel ckpt_path sig params 1 nxt
  end.

(** The checkpoint file of a pass. *)
Definition path_of (base_params : pydict) (checkpoint_dir : string)
    (client_id : option string) : string :=
  _checkpoint_path checkpoint_dir
    (Sig._sig_hash encode_basestring int_repr sha1_hexdigest
       (Sig._sig_dict base_params))
    client_id.

(** The checkpoint that lets a pass resume: stored under the path of the
    pass, with the signature of the pass and a cursor that is not
    empty. *)
Definition resumable (fs : ckpt_store) (base_params : pydict)
    (checkpoint_dir : string) (client_id : option string)
    (c : checkpoint) (nc : string) : Prop :=
  fs !! path_of base_params checkpoint_dir client_id = Some (Stored c)
  ∧ (forall k, dict_get k (signature c)
               = dict_get k (Sig._sig_dict base_params))
  ∧ next_cursor c = Some nc ∧ nc ≠ "".

(** *** The consumer: the body of [for item in streamer] *)

(** [_one_row_wide], the row-mapping collaborator; [None] drops the
    item. *)
Variable _one_row_wide : item -> option row.
Variable incremental_every : Z.
(** Whether [incremental_save_dir] is set. *)
Variable incremental_save_dir : bool.

(** What a pass has in memory and on disk: the buffer, the chunk files
    written so far (oldest first), and the checkpoint files. *)
Record hstate := HState {
  buffer_rows : list row;
  chunks : list (list row);
  ckpts : ckpt_store
}.

(** [df_inc.to_parquet(fname)] when there is a directory to write to. *)
Definition write_chunk (s : hstate) : hstate :=
  if incremental_save_dir then
    HState (buffer_rows s) (chunks s ++ [buffer_rows s]) (ckpts s)
  else s.

Definition clear_buffer (s : hstate) : hstate :=
  HState [] (chunks s) (ckpts s).

Definition append_row (s : hstate) (it : item) : hstate :=
  match _one_row_wide it with
  | Some r => HState (buffer_rows s ++ [r]) (chunks s) (ckpts s)
  | None => s
  end.

Definition consume (s : hstate) (e : event) : hstate :=
  match e with
  | EvYield it =>
      let s := append_row s it in
      if incremental_every <=? Z.of_nat (length (buffer_rows s)) then
        clear_buffer (write_chunk s)
      else s
  | EvSave path c o =>
      HState (buffer_rows s) (chunks s) (_save_checkpoint o path c (ckpts s))
  | EvDone _ =>
      match buffer_rows s with
      | [] => s
      | _ => write_chunk s
      end
  | EvRequest _ => s
  | EvRaise => s
  end.

Definition run (s : hstate) (evs : list event) : hstate :=
  fold_left consume evs s.

(** How a trace ends: the loop condition found no cursor, the loop broke
    on an empty page (it still holds the cursor it asked with), the
    fetch raised, or the trace was cut. *)
Inductive ending :=
| NoNextCursor
| EmptyPage
| Aborted
| Cut.

Definition how_ended (evs : list event) : ending :=
  match last evs with
  | Some (EvDone cursor) => if truthy_str cursor then EmptyPage else NoNextCursor
  | Some EvRaise => Aborted
  | _ => Cut
  end.

(** The rows of the items yielded in a trace. *)
Definition fetched (evs : list event) : list row :=
  omap (fun e => match e with EvYield it => _one_row_wide it | _ => None end)
       evs.

(** The page fetched last in a trace. *)
Definition last_page (evs : list event) : list row :=
  match omap (fun e => match e with EvRequest p => Some p | _ => None end)
             (rev evs) with
  | p :: _ =>
      match request_get p with
      | Some js => omap _one_row_wide (data js)
      | None => []
      end
  | [] => []
  end.

End Pass.

Arguments response item : clear implicits.
Arguments event item : clear implicits.
Arguments hstate row : clear implicits.

End Stream.

(** ** The final deduplication of [harvest_datacite_preprints_dataframe] *)

Module Dedup.

(** The columns of a row that the deduplication reads. *)
Record row := Row {
  doi : option string;
  provider_id : option string;
  alternate_ids_json : option string;
  registered : option string;
  updated : option string;
  created : option string
}.

#[global] Instance row_eq_dec : EqDecision row.
Proof. solve_decision. Defined.

Definition notna (o : option string) : nat :=
  match o with
  | Some _ => 1%nat
  | None => 0%nat
  end.

(** [df["provider_id"].notna().astype(int)
     + df["alternate_ids_json"].notna().astype(int)] *)
Definition _rich (r : row) : nat :=
  (notna (provider_id r) + notna (alternate_ids_json r))%nat.

(** Lexicographic combination of comparisons. *)
Definition lex (c1 c2 : comparison) : comparison :=
  match c1 with
  | Eq => c2
  | _ => c1
  end.

(** Ascending, missing values last ([na_position="last"]). *)
Definition cmp_na_last (a b : option string) : comparison :=
  match a, b with
  | Some x, Some y => String.compare x y
  | Some _, None => Lt
  | None, Some _ => Gt
  | None, None => Eq
  end.

(** Descending on [_rich]. *)
Definition cmp_desc (a b : nat) : comparison := Nat.compare b a.

(** The order of [sort_values(["_rich", "registered", "updated",
    "created"], ascending=[False, True, True, True],
    na_position="last")]. *)
Definition row_cmp (r1 r2 : row) : comparison :=
  lex (cmp_desc (_rich r1) (_rich r2))
   (lex (cmp_na_last (registered r1) (registered r2))
     (lex (cmp_na_last (updated r1) (updated r2))
          (cmp_na_last (created r1) (created r2)))).

Definition row_leb (r1 r2 : row) : bool :=
  match row_cmp r1 r2 with
  | Gt => false
  | _ => true
  end.

(** What makes a three-way comparison a total preorder. *)
Record order_ok {A : Type} (f : A -> A -> comparison) : Prop := OrderOk {
  ok_refl : forall a, f a a = Eq;
  ok_anti : forall a b, f a b = CompOpp (f b a);
  ok_eq_l : forall a b c, f a b = Eq -> f a c = f b c;
  ok_lt_trans : forall a b c, f a b = Lt -> f b c = Lt -> f a c = Lt
}.

(** A stable sort: a row goes before the first row that is not smaller,
    so rows with equal keys keep their order. *)
Fixpoint insert_sorted (r : row) (l : list row) : list row :=
  match l with
  | [] => [r]
  | r' :: l' =>
      if row_leb r r' then r :: l else r' :: insert_sorted r l'
  end.

Definition sort_values (df : list row) : list row :=
  fold_right insert_sorted [] df.

(** [drop_duplicates(subset=["doi"], keep="first")]; missing values are
    duplicates of each other. *)
Fixpoint drop_duplicates (seen : list (option string)) (df : list row)
  : list row :=
  match df with
  | [] => []
  | r :: df' =>
      if bool_decide (doi r ∈ seen) then drop_duplicates seen df'
      else r :: drop_duplicates (doi r :: seen) df'
  end.

(** The block under [if not df_final.empty:]. *)
Definition dedup_final (df_final : list row) : list row :=
  match df_final with
  | [] => []
  | _ => drop_duplicates [] (sort_values df_final)
  end.

End Dedup.

(** ** Shard discovery ([discover_parquet_files]) *)

Module Discover.

Record shard := Shard {
  folder : string;
  filepath : string;
  filename : string
}.

(** The file system as the discovery reads it. *)
Record fs := FS {
  (** [os.path.normpath(os.path.expanduser(p))] *)
  _norm : string -> string;
  path_exists : string -> bool;
  (** [os.listdir]; it raises on a path that is not a directory. *)
  listdir : string -> option (list string);
  isdir : string -> bool;
  (** [glob.iglob(pattern, recursive=True)] *)
  iglob : string -> list string;
  basename : string -> string
}.

(** [needle in hay] *)
Definition contains (needle hay : string) : bool :=
  match String.index 0 needle hay with
  | Some _ => true
  | None => false
  end.

Section Discovery.

Variable F : fs.
Variable name_contains : string.
Variable one_level_deep : bool.

(** The body of [for fpath in glob.iglob(...)]. *)
Definition visit (folder : string) (acc : gset string * list shard)
    (fpath : string) : gset string * list shard :=
  let '(seen, records) := acc in
  let fpath := _norm F fpath in
  if bool_decide (fpath ∈ seen) then acc
  else
    let seen := {[fpath]} ∪ seen in
    let fname := basename F fpath in
    if negb (String.eqb name_contains "") && negb (contains name_contains fname)
    then (seen, records)
    else (seen, (records ++ [Shard folder fpath fname])%list).

Definition scan_folder (acc : gset string * list shard) (folder : string)
  : gset string * list shard :=
  fold_left (visit folder)
            (iglob F (path_join (path_join folder "**") "*.parquet")) acc.

Definition folders_of (parent : string) : outcome (list string) :=
  if one_level_deep then
    match listdir F parent with
    | Some ds =>
        Return (parent ::
                filter (fun p => isdir F p = true)
                       (map (path_join parent) ds))
    | None => Raise (NotADirectoryError parent)
    end
  else Return [parent].

(** The body of [for parent in parents], with a new [seen] each time. *)
Definition scan_parent (records : list shard) (parent : string)
  : outcome (list shard) :=
  let parent := _norm F parent in
  if negb (path_exists F parent) then Return records
  else
    match folders_of parent with
    | Return folders => Return (snd (fold_left scan_folder folders (∅, records)))
    | Raise e => Raise e
    end.

Fixpoint discover_from (records : list shard) (parents : list string)
  : outcome (list shard) :=
  match parents with
  | [] => Return records
  | parent :: parents' =>
      match scan_parent records parent with
      | Return records' => discover_from records' parents'
      | Raise e => Raise e
      end
  end.

Definition discover_parquet_files (parents : list string)
  : outcome (list shard) :=
  discover_from [] parents.

End Discovery.

End Discover.

(** ** Schema unification ([_collect_unified_schema]) *)

Module Schema.

(** Arrow data types (the ones a flat row of text, numbers and dates
    gets). A field is a name and a type; the nullability flag and the
    metadata of pyarrow's fields are left out. *)
Inductive DataType :=
| null
| bool_
| int32
| int64
| float32
| float64
| string_
| large_string
| date32
| timestamp.

#[global] Instance DataType_eq_dec : EqDecision DataType.
Proof. solve_decision. Defined.

Record field := Field {
  name : string;
  type : DataType
}.

#[global] Instance field_eq_dec : EqDecision field.
Proof. solve_decision. Defined.

(** A schema is the list of its fields, in column order. *)
Definition schema := list field.

Definition names (s : schema) : list string := map name s.

(** [schema.field(n)] *)
Fixpoint field_of (n : string) (s : schema) : option field :=
  match s with
  | [] => None
  | f :: s' => if String.eqb n (name f) then Some f else field_of n s'
  end.

(** pyarrow merges two fields of one name when their types are equal or
    one of them is [null] (which gives way to the other). *)
Definition merge_types (t1 t2 : DataType) : option DataType :=
  if decide (t1 = t2) then Some t1
  else if decide (t1 = null) then Some t2
  else if decide (t2 = null) then Some t1
  else None.

(** One field added to the schema under construction: merged into the
    field of that name, or put last. *)
Fixpoint add_field (f : field) (s : schema) : outcome schema :=
  match s with
  | [] => Return [f]
  | g :: s' =>
      if String.eqb (name f) (name g) then
        match merge_types (type g) (type f) with
        | Some t => Return (Field (name g) t :: s')
        | None => Raise (ArrowInvalid (name f))
        end
      else
        match add_field f s' with
        | Return s'' => Return (g :: s'')
        | Raise e => Raise e
        end
  end.

Definition add_fields (acc : outcome schema) (s : schema) : outcome schema :=
  fold_left (fun acc f =>
               match acc with
               | Return u => add_field f u
               | Raise e => Raise e
               end) s acc.

(** [pa.unify_schemas(schemas)] with pyarrow's default options, as
    pyarrow documents it: the union of the fields of all the schemas,
    fields of one name merged, the fields of the first schema first and
    in its order, then the new fields of each later schema in turn; it
    raises when two fields of one name do not merge. *)
Definition unify_schemas (schemas : list schema) : outcome schema :=
  fold_left add_fields schemas (Return []).

(** The block under [# Align score→float64 if present]. *)
Definition score_to_float64 (s : schema) : schema :=
  match field_of "score" s with
  | Some f =>
      if bool_decide (type f = float64) then s
      else map (fun g => if String.eqb (name g) "score"
                         then Field "score" float64 else g) s
  | None => s
  end.

(** What a name stands for in a list of fields: nothing, one type (the
    merge of all the types given to it), or types that do not merge. *)
Inductive slot :=
| Absent
| Has (t : DataType)
| Clash.

Definition join (a b : slot) : slot :=
  match a, b with
  | Absent, x => x
  | x, Absent => x
  | Clash, _ => Clash
  | _, Clash => Clash
  | Has t1, Has t2 =>
      match merge_types t1 t2 with
      | Some t => Has t
      | None => Clash
      end
  end.

Definition slot_of (n : string) (fs : list field) : slot :=
  fold_right (fun f acc => if String.eqb n (name f)
                           then join (Has (type f)) acc else acc)
             Absent fs.

Definition slot_in (n : string) (s : schema) : slot :=
  match field_of n s with
  | Some f => Has (type f)
  | None => Absent
  end.

(** Two outcomes of a unification that agree up to the order of the
    columns: both raise, or both return the same fields. *)
Definition same_fields (a b : outcome schema) : Prop :=
  match a, b with
  | Return s, Return s' => s ≡ₚ s'
  | Raise _, Raise _ => True
  | _, _ => False
  end.

Section Collect.

(** [pq.ParquetFile(p).schema_arrow]; [None] when it raises. *)
Variable read_schema : string -> option schema.

Definition readable_schemas (paths : list string) : list schema :=
  omap (fun p => score_to_float64 <$> read_schema p) paths.

Definition _collect_unified_schema (paths : list string) : outcome schema :=
  match readable_schemas paths with
  | [] => Return []
  | schemas => unify_schemas schemas
  end.

End Collect.

End Schema.

(** ** The merge ([_align_table_to_schema], [merge_parquets]) *)

Module Merge.

Import Schema.

(** A value of a column, as text, or null. *)
Definition cell := option string.

Record column := Column {
  cname : string;
  ctype : DataType;
  cvalues : list cell
}.

Record table := Table {
  columns : list column;
  num_rows : nat
}.

(** The columns of a table under a name. *)
Definition columns_named (n : string) (cols : list column) : list column :=
  filter (fun c => cname c = n) cols.



(** Everything outside the function that a merge depends on. *)
Record env := Env {
  files : Discover.fs;
  (** [pq.ParquetFile(p).schema_arrow]; [None] when it raises *)
  read_schema : string -> option schema;
  (** [pq.read_table(p)]; [None] when it raises *)
  read_table : string -> option table;
  (** [pa.compute.cast(col, type)]; [None] when it raises *)
  cast : column -> DataType -> option column;
  (** [datetime.now().strftime("%Y%m%d_%H%M%S")] *)
  ts : string;
  (** whether [pq.ParquetWriter(...)] opens *)
  writer_opens : bool;
  (** whether [writer.write_table] succeeds for the shard at an index *)
  write_ok : nat -> bool;
  (** [os.path.exists(out_parquet_tmp)] after the writer is closed *)
  tmp_exists : bool;
  (** whether [os.replace] succeeds *)
  replace_ok : bool
}.

Section Merging.

Variable E : env.

(** The body of [for f in schema]: the column that goes under a field.
    A column of the table under the name of the field is cast when its
    type is another, and kept as it is when the cast raises. With no
    such column the code means to fill the field with nulls, but
    [pa.nulls(length=...)] raises a [TypeError]: the parameter of
    [pa.nulls] is [size], and an array has no [rename]. With more than
    one column of that name [tbl[f.name]] raises a [KeyError]. *)
Definition align_column (tbl : table) (f : field) : outcome column :=
  match columns_named (name f) (columns tbl) with
  | [] =>
      Raise (TypeError "nulls() got an unexpected keyword argument 'length'")
  | [col] =>
      Return (if bool_decide (ctype col = type f) then col
              else
                match cast E col (type f) with
                | Some col' => col'
                | None => col
                end)
  | _ => Raise (KeyError (name f))
  end.

(** The loop [for f in schema]: the first field that raises ends it. *)
Fixpoint align_columns (tbl : table) (s : schema) : outcome (list column) :=
  match s with
  | [] => Return []
  | f :: s' =>
      match align_column tbl f with
      | Raise e => Raise e
      | Return col =>
          match align_columns tbl s' with
          | Raise e => Raise e
          | Return cols => Return (col :: cols)
          end
      end
  end.

(** [pa.table(cols, schema=schema)] takes the names of the schema and
    has the rows of its columns, none when there is no column; a column
    left with another type than its field (its cast has raised) is cast
    again, and this raises as the first cast did. *)
Definition _align_table_to_schema (tbl : table) (s : schema) : outcome table :=
  match align_columns tbl s with
  | Raise e => Raise e
  | Return cols =>
      if forallb (fun fc => bool_decide (ctype (snd fc) = type (fst fc)))
                 (combine s cols)
      then Return (Table (map (fun fc => Column (name (fst fc)) (type (fst fc))
                                                (cvalues (snd fc)))
                              (combine s cols))
                         match s with
                         | [] => 0%nat
                         | _ => num_rows tbl
                         end)
      else Raise (ArrowInvalid "schema")
  end.












End Merging.

End Merge.

(** ** Concrete runs *)

Module Scenarios.

Import Stream.

(** Stand-ins for the string encoders and the digest; any functions will
    do, these keep the payload readable. *)
Definition plain (s : string) : string := s.
Definition no_int (z : Z) : string := "0".

(** The cursor of a link: the text after its first [=]. *)
Fixpoint after_eq (url : string) : option string :=
  match url with
  | EmptyString => None
  | String c rest => if bool_decide (c = "="%char) then Some rest else after_eq rest
  end.

Definition cursor_of (params : pydict) : string :=
  match dict_get "page[cursor]" params with
  | Some (VStr c) => c
  | _ => ""
  end.

(** A catalogue of three pages of two records, the records numbered. *)
Definition three_pages (params : pydict) : option (response nat) :=
  if String.eqb (cursor_of params) "1" then
    Some (Resp [1; 2]%nat (Some "dois?page[cursor]=c2"))
  else if String.eqb (cursor_of params) "c2" then
    Some (Resp [3; 4]%nat (Some "dois?page[cursor]=c3"))
  else if String.eqb (cursor_of params) "c3" then
    Some (Resp [5; 6]%nat None)
  else Some (Resp [] None).

(** A catalogue whose second page is empty. *)
Definition empty_second_page (params : pydict) : option (response nat) :=
  if String.eqb (cursor_of params) "1" then
    Some (Resp [1; 2]%nat (Some "dois?page[cursor]=c2"))
  else Some (Resp [] None).

Definition all_written (k : nat) : write_outcome := Written.

Definition preprints : pydict :=
  [ ("page[size]", VInt 2); ("page[cursor]", VStr "1");
    ("resource-type-id", VStr "Preprint");
    ("from-registered-date", VStr "2000-01-01");
    ("until-registered-date", VStr "2020-01-01");
    ("disable-facets", VStr "true") ].

Definition nothing_yet : hstate nat := HState [] [] ∅.

Definition pass_of (api : pydict -> option (response nat)) (fuel : nat)
    (fs : ckpt_store) : list (event nat) :=
  stream_datacite_with_resume plain no_int plain after_eq api all_written
    fuel preprints "ckpt" None fs.

Definition run_of (api : pydict -> option (response nat)) (every : Z)
    (evs : list (event nat)) : hstate nat :=
  run Some every true nothing_yet evs.

(** A pass that the caller starts at a cursor of its own
    ([start_cursor="c7"]). *)
Definition from_c7 : pydict :=
  [ ("page[size]", VInt 2); ("page[cursor]", VStr "c7");
    ("resource-type-id", VStr "Preprint") ].

(** The same parameters as [preprints], inserted in another order and
    with another page size and cursor. *)
Definition preprints_shuffled : pydict :=
  [ ("until-registered-date", VStr "2020-01-01");
    ("page[cursor]", VStr "c3");
    ("disable-facets", VStr "true");
    ("from-registered-date", VStr "2000-01-01");
    ("resource-type-id", VStr "Preprint");
    ("page[size]", VInt 1000) ].

(** A server that answers every attempt with 503. *)
Definition always_503 (k : nat) : Fetch.attempt_outcome unit :=
  Fetch.Response 503 tt.

(** Two rows for one DOI, registered the same day; only the second has a
    provider. *)
Definition bare_x : Dedup.row :=
  Dedup.Row (Some "x") None None (Some "2020-01-01") None None.
Definition rich_x : Dedup.row :=
  Dedup.Row (Some "x") (Some "v") None (Some "2020-01-01") None None.

(** The text after the last [/]. *)
Fixpoint base_name (acc p : string) : string :=
  match p with
  | EmptyString => acc
  | String c rest =>
      if bool_decide (c = "/"%char) then base_name "" rest
      else base_name (acc ++ String c EmptyString) rest
  end.

(** A directory [runs] with one subdirectory [sub] that holds one
    shard. *)
Definition nested : Discover.fs :=
  Discover.FS
    (fun p => p)
    (fun p => bool_decide (p ∈ ["runs"; "runs/sub"]))
    (fun p => if String.eqb p "runs" then Some ["sub"]
              else if String.eqb p "runs/sub" then Some [] else None)
    (fun p => String.eqb p "runs/sub")
    (fun pattern =>
       if bool_decide (pattern ∈ ["runs/**/*.parquet"; "runs/sub/**/*.parquet"])
       then ["runs/sub/a.parquet"] else [])
    (base_name "").

(** A directory [runs] that holds the two shards of the end-to-end
    scenario. *)
Definition two_shards : Discover.fs :=
  Discover.FS
    (fun p => p)
    (fun p => String.eqb p "runs")
    (fun p => if String.eqb p "runs" then Some [] else None)
    (fun p => false)
    (fun pattern =>
       if String.eqb pattern "runs/**/*.parquet"
       then ["runs/a.parquet"; "runs/b.parquet"] else [])
    (base_name "").

Import Schema Merge.

Definition shard_a : table :=
  Table [ Column "doi" string_ [Some "x"];
          Column "registered" string_ [Some "2020-01-01"];
          Column "provider_id" null [None] ] 1.

Definition shard_b : table :=
  Table [ Column "doi" string_ [Some "x"];
          Column "registered" string_ [Some "2020-01-01"];
          Column "provider_id" string_ [Some "v"] ] 1.

Definition schema_of (t : table) : schema :=
  map (fun c => Field (cname c) (ctype c)) (columns t).

Definition shard_table (p : string) : option table :=
  if String.eqb p "runs/a.parquet" then Some shard_a
  else if String.eqb p "runs/b.parquet" then Some shard_b
  else None.

(** A cast that knows how to give a type to a column of nulls. *)
Definition cast_nulls (c : column) (t : DataType) : option column :=
  if bool_decide (ctype c = null) then Some (Column (cname c) t (cvalues c))
  else None.

Definition scenario (opens : bool) (writes : nat -> bool) (renames : bool)
  : env :=
  Env two_shards (fun p => schema_of <$> shard_table p) shard_table cast_nulls
      "20240101_000000" opens writes true renames.

(** Three shard schemas for the unification. *)
Definition schema_A : schema := [Field "doi" string_].
Definition schema_B : schema := [Field "doi" string_; Field "score" int64].
Definition schema_C : schema := [Field "title" string_].

Definition schema_at (p : string) : option schema :=
  if String.eqb p "A" then Some schema_A
  else if String.eqb p "B" then Some schema_B
  else if String.eqb p "C" then Some schema_C
  else None.

End Scenarios.

(** ** The passes of a harvest: the head of the loop of
       [harvest_datacite_preprints_dataframe] *)

Module Harvest.

(** The double quote, as a string. *)
Definition dquote : string := String "034"%char EmptyString.

(** [f'types.resourceType:"{label}"'] *)
Definition label_query (label : string) : string :=
  "types.resourceType:" ++ dquote ++ label ++ dquote.

(** An element of [passes]: [{"rtid": ..., "query": ...}]. *)
Record selector := Selector {
  rtid : option string;
  query : option string
}.

(** The list of passes, or the [ValueError] of an unknown [type_mode]. *)
Inductive passes_result :=
| Passes (sels : list selector)
| ValueError (msg : string).

Definition build_passes (type_mode resource_type_id : string)
    (type_label_value : option string) : passes_result :=
  if String.eqb type_mode "canonical" then
    Passes [Selector (Some resource_type_id) None]
  else if String.eqb type_mode "label" then
    let label := str_or type_label_value resource_type_id in
    Passes [Selector None (Some (label_query label))]
  else if String.eqb type_mode "both" then
    let label := str_or type_label_value resource_type_id in
    Passes [ Selector (Some resource_type_id) None;
             Selector None (Some (label_query label)) ]
  else
    ValueError ("type_mode must be " ++ dquote ++ "canonical" ++ dquote
                ++ ", " ++ dquote ++ "label" ++ dquote ++ ", or "
                ++ dquote ++ "both" ++ dquote).

(** [client_ids if client_ids else [None]] *)
Definition client_list (client_ids : option (list string))
  : list (option string) :=
  match client_ids with
  | Some (c :: cs) => map Some (c :: cs)
  | _ => [None]
  end.

(** [for cid in client_list: for sel in passes:] *)
Definition planned (clients : list (option string)) (sels : list selector)
  : list (option string * selector) :=
  flat_map (fun cid => map (fun sel => (cid, sel)) sels) clients.

Section PassParams.

Variable today : string.
Variable date_field : string.
Variable date_start date_end : Params.date_arg.
Variable rows_per_call : Z.
Variable start_cursor : option string.
Variable include_affiliation : bool.

(** The call of [_build_params] at the head of a pass. *)
Definition pass_params (cid : option string) (sel : selector)
  : outcome pydict :=
  Params._build_params today (rtid sel) date_field date_start
    match date_end with
    | Params.DVal None => Params.DVal (Some today)
    | _ => date_end
    end
    cid rows_per_call (Some (str_or start_cursor "1")) include_affiliation
    true (query sel).

End PassParams.

End Harvest.

(** ** Fields that [_one_row_wide] derives from other fields *)

Module RowMap.

(** [s.split(c, 1)] when [c] occurs in [s]: the text before the first [c]
    and the text after it. *)
Fixpoint split_first (c : ascii) (s : string) : option (string * string) :=
  match s with
  | EmptyString => None
  | String a s' =>
      if bool_decide (a = c) then Some (EmptyString, s')
      else
        match split_first c s' with
        | Some (before, after) => Some (String a before, after)
        | None => None
        end
  end.

(** [c in s] for a character. *)
Fixpoint has_char (c : ascii) (s : string) : bool :=
  match s with
  | EmptyString => false
  | String a s' => bool_decide (a = c) || has_char c s'
  end.

Definition _fallback_prefix_from_doi (doi : option string) : option string :=
  match doi with
  | Some d =>
      if String.eqb d "" || negb (has_char "/" d) then None
      else fst <$> split_first "/" d
  | None => None
  end.

(** [a or b] on two [Optional[str]]. *)
Definition opt_or (a b : option string) : option string :=
  if truthy_str a then a else b.

(** [prefix = a.get("prefix") or _fallback_prefix_from_doi(doi)] *)
Definition prefix_of (attr_prefix doi : option string) : option string :=
  opt_or attr_prefix (_fallback_prefix_from_doi doi).

(** [provider_id = (rel ... ).get("id") or a.get("providerId")], then
    [if not provider_id and client_id and "." in client_id:
       provider_id = client_id.split(".", 1)[0]]. *)
Definition provider_of (rel_provider attr_provider client_id : option string)
  : option string :=
  let provider_id := opt_or rel_provider attr_provider in
  if negb (truthy_str provider_id) && truthy_str client_id then
    match client_id with
    | Some cid =>
        if has_char "." cid then fst <$> split_first "." cid else provider_id
    | None => provider_id
    end
  else provider_id.

End RowMap.

(** ** The harvest: the loop over the passes of
       [harvest_datacite_preprints_dataframe], the chunk files and the
       final frame *)

Module Orchestrator.

Import Stream Harvest.

(** The decimal digits of a number. *)
Definition decimal (n : nat) : string :=
  DecimalString.NilEmpty.string_of_uint (Nat.to_uint n).

Fixpoint zeros (k : nat) (s : string) : string :=
  match k with
  | O => s
  | S k' => String "0" (zeros k' s)
  end.

(** [f"{idx:05d}"] *)
Definition pad5 (idx : nat) : string :=
  zeros (5 - String.length (decimal idx)) (decimal idx).

(** [f"datacite_preprints_chunk_{chunk_idx_global:05d}.parquet"] *)
Definition chunk_name (idx : nat) : string :=
  "datacite_preprints_chunk_" ++ pad5 idx ++ ".parquet".

(** How a loop that may raise ends: it completes, an exception leaves
    the function, or the model has run out of fuel. *)
Inductive run_result (A : Type) :=
| Completed (a : A)
| Propagated
| Unfinished.
Arguments Completed {A} a.
Arguments Propagated {A}.
Arguments Unfinished {A}.

Section Passes.

Context {item row : Type}.

Variable encode_basestring : string -> string.
Variable int_repr : Z -> string.
Variable sha1_hexdigest : string -> string.
Variable _parse_next_cursor : string -> option string.
Variable request_get : pydict -> option (response item).
Variable disk : nat -> write_outcome.
Variable _one_row_wide : item -> option row.
(** [probe_total(params)] as the loop sees it: whether it returns (its
    value is only printed). *)
Variable probe_total : pydict -> bool.
Variable today : string.

(** The arguments of the call. The model is of calls without
    [save_ndjson_path]. *)
Variable date_field : string.
Variable date_start date_end : Params.date_arg.
Variable rows_per_call : Z.
Variable start_cursor : option string.
Variable include_affiliation : bool.
Variable checkpoint_dir : string.
Variable incremental_save_dir : bool.
Variable incremental_every : Z.
Variable fuel : nat.

(** The files [datacite_preprints_chunk_*.parquet] of the chunk
    directory, by name, each with its rows. *)
Local Abbreviation chunk_dir := (gmap string (list row)).

(** What the loop over the passes has reached: the chunks written by
    this call (the next one gets the index [chunk_idx_global], their
    number), [all_rows], the checkpoint files, and the events of the
    passes so far. *)
Record harvest_state := HarvestState {
  chunks_written : list (list row);
  all_rows : list row;
  checkpoints : ckpt_store;
  history : list (event item)
}.

(** The body of [for sel in passes]. *)
Definition one_pass (st : harvest_state) (job : option string * selector)
  : run_result harvest_state :=
  match pass_params today date_field date_start date_end rows_per_call
          start_cursor include_affiliation job.1 job.2 with
  | Raise _ => Propagated
  | Return params =>
      if probe_total params then
        let evs :=
          stream_datacite_with_resume encode_basestring int_repr
            sha1_hexdigest _parse_next_cursor request_get disk fuel params
            checkpoint_dir job.1 (checkpoints st) in
        let s :=
          run _one_row_wide incremental_every incremental_save_dir
              (HState [] (chunks_written st) (checkpoints st)) evs in
        match how_ended evs with
        | NoNextCursor | EmptyPage =>
            Completed (HarvestState (chunks s)
                                    (all_rows st ++ buffer_rows s)
                                    (ckpts s)
                                    (history st ++ evs))
        | Aborted => Propagated
        | Cut => Unfinished
        end
      else Propagated
  end.

(** [for cid in client_list: for sel in passes: ...] *)
Fixpoint passes_from (st : harvest_state)
    (jobs : list (option string * selector)) : run_result harvest_state :=
  match jobs with
  | [] => Completed st
  | job :: jobs' =>
      match one_pass st job with
      | Completed st' => passes_from st' jobs'
      | Propagated => Propagated
      | Unfinished => Unfinished
      end
  end.

(** The chunk directory after the writes of the call: the chunk of index
    [i] goes to the file of that index, over what was there. *)
Definition write_chunks (dir : chunk_dir) (chunks : list (list row))
  : chunk_dir :=
  fold_left (fun d ic => <[chunk_name ic.1 := ic.2]> d)
            (imap (fun i c => (i, c)) chunks) dir.

(** The order of [sorted] on the files: by name, as strings. *)
Definition by_name (a b : string * list row) : Prop :=
  String.leb a.1 b.1 = true.

#[global] Instance by_name_dec a b : Decision (by_name a b).
Proof. unfold by_name. apply _. Defined.

(** [[pd.read_parquet(p) for p in sorted(glob.glob(...))]]; a chunk
    file reads back as the rows written to it. *)
Definition read_chunks (dir : chunk_dir) : list (list row) :=
  map snd (merge_sort by_name (map_to_list dir)).

(** [df_final] before the deduplication. *)
Definition final_frame (dir : chunk_dir) (all_rows : list row) : list row :=
  if incremental_save_dir then
    match read_chunks dir with
    | [] => all_rows
    | dfs => (concat dfs ++ all_rows)%list
    end
  else all_rows.

End Passes.

Arguments harvest_state item row : clear implicits.

Section Body.

Context {item : Type}.

Variable encode_basestring : string -> string.
Variable int_repr : Z -> string.
Variable sha1_hexdigest : string -> string.
Variable _parse_next_cursor : string -> option string.
Variable request_get : pydict -> option (response item).
Variable disk : nat -> write_outcome.
Variable _one_row_wide : item -> option Dedup.row.
Variable probe_total : pydict -> bool.
Variable today : string.

(** What the call leaves: [df_final] at the end of the body (the
    function computes it and returns nothing), the chunk directory, the
    checkpoint files, and the events of its passes. *)
Record harvested := Harvested {
  df_final : list Dedup.row;
  chunk_files : gmap string (list Dedup.row);
  checkpoints_left : ckpt_store;
  events : list (event item)
}.

Definition harvest_datacite_preprints_dataframe
    (date_field : string) (date_start date_end : Params.date_arg)
    (client_ids : option (list string)) (resource_type_id : string)
    (rows_per_call : Z) (include_affiliation : bool)
    (start_cursor : option string) (type_mode : string)
    (type_label_value : option string) (checkpoint_dir : string)
    (incremental_save_dir : bool) (incremental_every : Z)
    (fuel : nat) (dir : gmap string (list Dedup.row)) (fs : ckpt_store)
  : run_result harvested :=
  match build_passes type_mode resource_type_id type_label_value with
  | ValueError _ => Propagated
  | Passes sels =>
      match passes_from encode_basestring int_repr sha1_hexdigest
              _parse_next_cursor request_get disk _one_row_wide probe_total
              today date_field date_start date_end rows_per_call start_cursor
              include_affiliation checkpoint_dir incremental_save_dir
              incremental_every fuel
              (HarvestState [] [] fs [])
              (planned (client_list client_ids) sels) with
      | Completed st =>
          let dir' := write_chunks dir (chunks_written st) in
          Completed
            (Harvested
               (Dedup.dedup_final
                  (final_frame incremental_save_dir dir' (all_rows st)))
               dir' (checkpoints st) (history st))
      | Propagated => Propagated
      | Unfinished => Unfinished
      end
  end.

End Body.

End Orchestrator.

(** ** A pass that is killed, and the call that comes after it *)

Module Crash.

Import Stream Orchestrator.

Section Kill.

Context {item row : Type}.

Variable encode_basestring : string -> string.
Variable int_repr : Z -> string.
Variable sha1_hexdigest : string -> string.
Variable _parse_next_cursor : string -> option string.
Variable request_get : pydict -> option (response item).
Variable disk : nat -> write_outcome.
Variable _one_row_wide : item -> option row.
Variable incremental_every : Z.
Variable incremental_save_dir : bool.

(** A chunk file that [to_parquet] was writing when the process was
    killed: the file is there and no row can be read from it. *)
Definition torn_chunk (s : hstate row) : hstate row :=
  if incremental_save_dir then
    HState (buffer_rows s) (chunks s ++ [[]]) (ckpts s)
  else s.

(** A checkpoint file that was being written: [open(path, "w")] has
    emptied it. *)
Definition torn_checkpoint (path : string) (s : hstate row) : hstate row :=
  HState (buffer_rows s) (chunks s) (<[path := Unreadable]> (ckpts s)).

(** The states in which a kill can find the pass while an event is
    handled, in the order in which it goes through them; the last one
    is the state after the event. For an item: after the append (line
    412), during and after the write of the chunk (423), after the
    clear (429). *)
Definition kill_states (s : hstate row) (e : event item)
  : list (hstate row) :=
  match e with
  | EvYield it =>
      let s1 := append_row _one_row_wide s it in
      if incremental_every <=? Z.of_nat (length (buffer_rows s1)) then
        [ s1; torn_chunk s1; write_chunk incremental_save_dir s1;
          clear_buffer (write_chunk incremental_save_dir s1) ]
      else [s1]
  | EvSave path c Written =>
      [ torn_checkpoint path s;
        consume _one_row_wide incremental_every incremental_save_dir s e ]
  | EvDone _ =>
      match buffer_rows s with
      | [] => [s]
      | _ => [torn_chunk s; write_chunk incremental_save_dir s]
      end
  | _ => [consume _one_row_wide incremental_every incremental_save_dir s e]
  end.

(** The points at which a pass that handles [evs] from the state [s]
    can be killed: the number of events that the generator has
    produced, and the state. *)
Fixpoint kill_points (k : nat) (s : hstate row) (evs : list (event item))
  : list (nat * hstate row) :=
  match evs with
  | [] => []
  | e :: evs' =>
      (map (pair (S k)) (kill_states s e)
       ++ kill_points (S k)
            (consume _one_row_wide incremental_every incremental_save_dir s e)
            evs')%list
  end.

Definition crash_points (s0 : hstate row) (evs : list (event item))
  : list (nat * hstate row) :=
  (0%nat, s0) :: kill_points 0 s0 evs.

(** The rows of the page that a request gets. *)
Definition page_rows (p : pydict) : list row :=
  match request_get p with
  | Some js => omap _one_row_wide (data js)
  | None => []
  end.

(** The rows that a trace has fetched from the network: the rows of the
    page of each request, yielded or not yet. *)
Definition received (evs : list (event item)) : list row :=
  concat (omap (fun e => match e with
                         | EvRequest p => Some (page_rows p)
                         | _ => None
                         end) evs).

(** The chunk directory once the call that was killed, and then a later
    call, have written their chunks: every call numbers its chunk files
    from 0 ([chunk_idx_global = 0], line 368). *)
Definition disk_after (dir : gmap string (list row))
    (killed later : list (list row)) : gmap string (list row) :=
  write_chunks (write_chunks dir killed) later.

Definition rows_on_disk (dir : gmap string (list row)) : list row :=
  concat (map snd (map_to_list dir)).

(** The rows lost by a kill at the point [p] of the trace [evs]: fetched
    by then, and in no chunk file once a later call has written the
    chunks [later]. *)
Definition lost `{EqDecision row} (dir : gmap string (list row))
    (evs : list (event item)) (later : list (list row))
    (p : nat * hstate row) : list row :=
  filter (fun r => r ∉ rows_on_disk (disk_after dir (chunks p.2) later))
         (received (take p.1 evs)).

(** The chunks that a rerun of the pass writes, from the checkpoint
    files as the kill left them. *)
Definition rerun_chunks (fuel : nat) (base_params : pydict)
    (checkpoint_dir : string) (client_id : option string) (s : hstate row)
  : list (list row) :=
  chunks (run _one_row_wide incremental_every incremental_save_dir
            (HState [] [] (ckpts s))
            (stream_datacite_with_resume encode_basestring int_repr
               sha1_hexdigest _parse_next_cursor request_get disk fuel
               base_params checkpoint_dir client_id (ckpts s))).

(** The bound of the specification on what a kill loses, with the rerun
    as the later call. *)
Definition loss_within_last_page `{EqDecision row} (fuel : nat)
    (base_params : pydict) (checkpoint_dir : string)
    (client_id : option string) (dir : gmap string (list row))
    (fs : ckpt_store) : Prop :=
  let evs := stream_datacite_with_resume encode_basestring int_repr
               sha1_hexdigest _parse_next_cursor request_get disk fuel
               base_params checkpoint_dir client_id fs in
  forall i p,
    crash_points (HState [] [] fs) evs !! i = Some p ->
    lost dir evs
         (rerun_chunks fuel base_params checkpoint_dir client_id p.2) p
    ⊆ last_page request_get _one_row_wide (take p.1 evs).

End Kill.

End Crash.

(** ** More concrete runs *)

Module Cases.

(** Three answers 503, then 200 with the body [7]. *)
Definition three_503_then_200 (k : nat) : Fetch.attempt_outcome nat :=
  if (k <? 3)%nat then Fetch.Response 503 0%nat else Fetch.Response 200 7%nat.

(** A server that answers every attempt with 404. *)
Definition always_404 (k : nat) : Fetch.attempt_outcome unit :=
  Fetch.Response 404 tt.

(** A network that fails every attempt, each time with another error. *)
Definition always_down (k : nat) : Fetch.attempt_outcome unit :=
  Fetch.NetworkError (if (k <? 5)%nat then "timeout" else "reset").




(** A record as a row: its number is its DOI, and it has nothing
    else. *)
Definition numbered_row (n : nat) : option Dedup.row :=
  Some (Dedup.Row (Some (Orchestrator.decimal n)) None None None None None).

Definition probe_fine (params : pydict) : bool := true.

(** A harvest of the catalogue of three pages, registered since 2020,
    with no client filter and pages of two records. *)
Definition harvest_three_pages (type_mode : string)
    (incremental_save_dir : bool) (incremental_every : Z)
    (dir : gmap string (list Dedup.row)) (fs : Stream.ckpt_store)
  : Orchestrator.run_result (Orchestrator.harvested (item := nat)) :=
  Orchestrator.harvest_datacite_preprints_dataframe
    Scenarios.plain Scenarios.no_int Scenarios.plain Scenarios.after_eq
    Scenarios.three_pages Scenarios.all_written numbered_row probe_fine
    "2024-05-05" "registered" (Params.DVal (Some "2020-01-01"))
    (Params.DVal None) None "Preprint" 2 false None type_mode None "ckpt"
    incremental_save_dir incremental_every 10 dir fs.

End Cases.

(** * Properties *)

(** ** Dictionaries *)

Module PyFacts.

Lemma eqb_string_true (a b : string) : String.eqb a b = true <-> a = b.
Proof. apply String.eqb_eq. Qed.

Lemma eqb_string_false (a b : string) : String.eqb a b = false <-> a ≠ b.
Proof. apply String.eqb_neq. Qed.

Lemma dict_get_set_eq k v d : dict_get k (dict_set k v d) = Some v.
Proof.
  induction d as [|[k' v'] d IH]; simpl.
  - by rewrite String.eqb_refl.
  - destruct (String.eqb k k') eqn:E; simpl; rewrite E; [done | exact IH].
Qed.

Lemma dict_get_set_ne k k' v d :
  k ≠ k' -> dict_get k (dict_set k' v d) = dict_get k d.
Proof.
  intros Hne. induction d as [|[k0 v0] d IH]; simpl.
  - apply eqb_string_false in Hne. by rewrite Hne.
  - destruct (String.eqb k' k0) eqn:E; simpl.
    + apply eqb_string_true in E as <-.
      apply eqb_string_false in Hne. by rewrite Hne.
    + by rewrite IH.
Qed.

(** The lookup of the model is the lookup of the finite map. *)
Lemma dict_get_list_to_map k (d : pydict) :
  (list_to_map d : gmap string pyval) !! k = dict_get k d.
Proof.
  induction d as [|[k' v'] d IH]; simpl; [apply lookup_empty|].
  destruct (String.eqb k k') eqn:E.
  - apply eqb_string_true in E as ->. apply lookup_insert_eq.
  - apply eqb_string_false in E. rewrite lookup_insert_ne; [exact IH | done].
Qed.

Lemma dict_eqb_spec d1 d2 :
  dict_eqb d1 d2 = true <-> forall k, dict_get k d1 = dict_get k d2.
Proof.
  unfold dict_eqb. rewrite bool_decide_eq_true. split.
  - intros H k. by rewrite <- !dict_get_list_to_map, H.
  - intros H. apply map_eq. intros k. by rewrite !dict_get_list_to_map.
Qed.

Lemma dict_get_elem_of k v (d : pydict) :
  NoDup (keys d) -> dict_get k d = Some v <-> (k, v) ∈ d.
Proof.
  induction d as [|[k' v'] d IH]; simpl; intros Hnd.
  - split; [done | by intros ?%elem_of_nil].
  - apply NoDup_cons in Hnd as [Hk' Hnd].
    destruct (String.eqb k k') eqn:E.
    + apply eqb_string_true in E as ->. split.
      * intros [= ->]. left.
      * intros [[= ->]|Hin]%elem_of_cons; [done|].
        exfalso. apply Hk'. unfold keys.
        apply list_elem_of_fmap. by exists (k', v).
    + apply eqb_string_false in E. rewrite (IH Hnd). split.
      * by right.
      * intros [[= -> ->]|Hin]%elem_of_cons; [done | exact Hin].
Qed.

End PyFacts.

(** ** Query signature *)

Module SigFacts.

Import Sig PyFacts.

Lemma sig_dict_ext d1 d2 :
  (forall k, k ∈ keep -> dict_get k d1 = dict_get k d2) ->
  _sig_dict d1 = _sig_dict d2.
Proof.
  unfold _sig_dict. generalize keep. intros ks H.
  induction ks as [|k ks IH]; [done|]. cbn.
  rewrite (H k) by left.
  assert (IH' := IH (fun k' Hk' => H k' (list_elem_of_further _ _ _ Hk'))).
  cbn in IH'. by rewrite IH'.
Qed.

(** The pagination keys are not part of the signature. *)
Lemma sig_dict_ignores_pagination d cursor size :
  _sig_dict (dict_set "page[cursor]" cursor (dict_set "page[size]" size d))
  = _sig_dict d.
Proof.
  apply sig_dict_ext. intros k Hk.
  rewrite !dict_get_set_ne; [done | |];
    intros ->; apply (bool_decide_pack _) in Hk; vm_compute in Hk; exact Hk.
Qed.

(** Dictionaries with the same items agree on every lookup. *)
Lemma same_items_same_lookups (d1 d2 : pydict) (ks : list string) :
  NoDup (keys d1) -> NoDup (keys d2) ->
  (forall k v, k ∈ ks -> (k, v) ∈ d1 <-> (k, v) ∈ d2) ->
  forall k, k ∈ ks -> dict_get k d1 = dict_get k d2.
Proof.
  intros N1 N2 H k Hk.
  destruct (dict_get k d1) as [v|] eqn:E1.
  - symmetry. apply dict_get_elem_of; [done|]. apply H; [done|].
    by apply dict_get_elem_of.
  - destruct (dict_get k d2) as [v|] eqn:E2; [|done].
    apply dict_get_elem_of in E2; [|done]. apply H in E2; [|done].
    apply dict_get_elem_of in E2; [|done]. congruence.
Qed.

Lemma same_lookups_same_items (d1 d2 : pydict) (ks : list string) :
  NoDup (keys d1) -> NoDup (keys d2) ->
  (forall k, k ∈ ks -> dict_get k d1 = dict_get k d2) ->
  forall k v, k ∈ ks -> (k, v) ∈ d1 <-> (k, v) ∈ d2.
Proof.
  intros N1 N2 H k v Hk.
  rewrite <- !dict_get_elem_of by done. by rewrite (H k Hk).
Qed.

Section Digest.

Variable encode_basestring : string -> string.
Variable int_repr : Z -> string.
Variable sha1_hexdigest : string -> string.

(** C6. Two parameter dictionaries that hold the same items under the
    filter-relevant keys have the same digest: neither the insertion
    order nor the items under other keys (the page cursor and the page
    size among them) reach it, and the digest is a function of the
    dictionary. *)
Theorem sig_hash_order_independent (d1 d2 : pydict) :
  NoDup (keys d1) -> NoDup (keys d2) ->
  (forall k v, k ∈ keep -> (k, v) ∈ d1 <-> (k, v) ∈ d2) ->
  _sig_hash encode_basestring int_repr sha1_hexdigest (_sig_dict d1)
  = _sig_hash encode_basestring int_repr sha1_hexdigest (_sig_dict d2).
Proof.
  intros N1 N2 H. f_equal.
  apply sig_dict_ext. by apply same_items_same_lookups.
Qed.

End Digest.

(** The parameters of a pass and the same parameters inserted in another
    order, with another cursor and page size: one digest. *)
Lemma sig_hash_order_independent_witness :
  Sig._sig_hash Scenarios.plain Scenarios.no_int Scenarios.plain
    (_sig_dict Scenarios.preprints)
  = Sig._sig_hash Scenarios.plain Scenarios.no_int Scenarios.plain
      (_sig_dict Scenarios.preprints_shuffled).
Proof.
  apply (sig_hash_order_independent Scenarios.plain Scenarios.no_int
           Scenarios.plain Scenarios.preprints Scenarios.preprints_shuffled).
  - apply (bool_decide_unpack _). vm_compute. exact I.
  - apply (bool_decide_unpack _). vm_compute. exact I.
  - apply same_lookups_same_items.
    + apply (bool_decide_unpack _). vm_compute. exact I.
    + apply (bool_decide_unpack _). vm_compute. exact I.
    + apply Forall_forall. apply (bool_decide_unpack _). vm_compute. exact I.
Defined.

End SigFacts.

(** ** Request parameters *)

Module ParamsFacts.

Import Params PyFacts.

Lemma get_set_if_truthy_ne k k' o d :
  k ≠ k' -> dict_get k (set_if_truthy k' o d) = dict_get k d.
Proof.
  intros Hne. unfold set_if_truthy.
  destruct o as [s|]; [|done].
  destruct (String.eqb s ""); [done|]. by apply dict_get_set_ne.
Qed.

Lemma get_set_flag_ne k k' b d :
  k ≠ k' -> dict_get k (set_flag k' b d) = dict_get k d.
Proof.
  intros Hne. unfold set_flag. destruct b; [|done]. by apply dict_get_set_ne.
Qed.

Lemma get_set_if_truthy_eq k s d :
  s ≠ "" -> dict_get k (set_if_truthy k (Some s) d) = Some (VStr s).
Proof.
  intros Hs. unfold set_if_truthy.
  apply eqb_string_false in Hs. rewrite Hs. apply dict_get_set_eq.
Qed.

Lemma in_range_dec (rows : Z) :
  negb ((1 <=? rows) && (rows <=? 1000)) = false <-> 1 <= rows <= 1000.
Proof.
  rewrite negb_false_iff, andb_true_iff, !Z.leb_le. tauto.
Qed.

(** Steps through the assignments of [_build_params] that do not touch
    the key looked up. *)
Ltac skip_other_keys :=
  repeat (first [ rewrite get_set_if_truthy_ne by (simpl; discriminate)
                | rewrite get_set_flag_ne by (simpl; discriminate) ]).

Section BuildParams.

Variable today : string.

(** C9. [_build_params] fails its assertion exactly when [rows] is not
    in 1..1000; otherwise it returns a dictionary with [page[size]] set
    to [rows], with [page[cursor]] set to a string (the cursor given, or
    "1" when it is [None] or empty), and, when [date_end] is [None], with
    the upper date bound set to today's date. *)
Theorem build_params_contract
    (resource_type_id : option string) (date_field : string)
    (date_start date_end : date_arg) (client_id : option string)
    (rows : Z) (cursor : option string)
    (include_affiliation disable_facets : bool) (query : option string) :
  today ≠ "" ->
  let result :=
    _build_params today resource_type_id date_field date_start date_end
      client_id rows cursor include_affiliation disable_facets query in
  (¬ (1 <= rows <= 1000) ->
     result = Raise (AssertionError "page[size] must be 1..1000"))
  ∧ (1 <= rows <= 1000 ->
     exists params,
       result = Return params
       ∧ dict_get "page[size]" params = Some (VInt rows)
       ∧ dict_get "page[cursor]" params = Some (VStr (str_or cursor "1"))
       ∧ (cursor = None -> dict_get "page[cursor]" params = Some (VStr "1"))
       ∧ (date_end = DVal None ->
          dict_get ("until-" ++ date_field ++ "-date") params
          = Some (VStr today))).
Proof.
  intros Htoday result. subst result. unfold _build_params. split.
  - intros Hout.
    destruct (negb ((1 <=? rows) && (rows <=? 1000))) eqn:E; [done|].
    apply in_range_dec in E. contradiction.
  - intros Hin. apply in_range_dec in Hin. rewrite Hin.
    eexists. split; [reflexivity|]. repeat split.
    + skip_other_keys. reflexivity.
    + skip_other_keys. reflexivity.
    + intros ->. skip_other_keys. reflexivity.
    + intros ->. cbn [_as_str_or_none]. skip_other_keys.
      by apply get_set_if_truthy_eq.
Qed.

End BuildParams.

(** The default call of the harvester on 2024-05-05. *)
Lemma build_params_contract_witness :
  exists params,
    _build_params "2024-05-05" (Some "Preprint") "registered"
      (DVal (Some "2000-01-01")) (DVal None) None 1000 None false true None
    = Return params
    ∧ dict_get "page[size]" params = Some (VInt 1000)
    ∧ dict_get "page[cursor]" params = Some (VStr "1")
    ∧ dict_get "until-registered-date" params = Some (VStr "2024-05-05").
Proof.
  destruct (build_params_contract "2024-05-05" (Some "Preprint") "registered"
              (DVal (Some "2000-01-01")) (DVal None) None 1000 None false true
              None) as [_ H]; [discriminate|].
  destruct H as (params & E & Hsize & Hcursor & _ & Hend); [lia|].
  exists params. repeat split; [exact E | exact Hsize | exact Hcursor |].
  by apply Hend.
Defined.

End ParamsFacts.

(** ** The retrying fetcher *)

Module FetchFacts.

Import Fetch.

Section RequestGet.

Context {json : Type}.
Variable net : nat -> attempt_outcome json.

(** Attempts that end in a retried status code leave [last_exc] as it
    was. *)
Lemma attempts_retried_statuses remaining attempt last_exc sleeps :
  (forall k, exists body status,
      net k = Response status body ∧ retry_status status = true) ->
  fst (attempts net remaining attempt last_exc sleeps)
  = match last_exc with
    | Some e => Raised e
    | None => ReturnedNone
    end.
Proof.
  intros H. revert attempt sleeps.
  induction remaining as [|remaining IH]; intros attempt sleeps; simpl.
  - by destruct last_exc.
  - destruct (H attempt) as (body & status & -> & Hretry).
    rewrite Hretry.
    destruct (status =? 200) eqn:E; [|apply IH].
    apply Z.eqb_eq in E. subst status. vm_compute in Hretry. discriminate.
Qed.

(** A call all of whose attempts fail with a network error raises the
    error of the last attempt. *)
Lemma attempts_network_errors remaining attempt last_exc sleeps :
  (forall k, exists what, net k = NetworkError what) ->
  exists what,
    fst (attempts net (S remaining) attempt last_exc sleeps)
    = Raised (RequestException what)
    ∧ net (attempt + remaining)%nat = NetworkError what.
Proof.
  intros H. revert attempt last_exc sleeps.
  induction remaining as [|remaining IH]; intros attempt last_exc sleeps.
  - destruct (H attempt) as [what Hw]. exists what.
    simpl. rewrite Hw. simpl. by rewrite Nat.add_0_r.
  - destruct (H attempt) as [what Hw].
    destruct (IH (S attempt) (Some (RequestException what))
                 (sleeps ++ [attempt])%list) as (what' & He & Hlast).
    exists what'. split.
    + rewrite <- He. cbn [attempts]. by rewrite Hw.
    + by replace (attempt + S remaining)%nat with (S attempt + remaining)%nat
        by lia.
Qed.

(** A call all of whose attempts fail with a transient condition hands
    back no body. *)
Lemma attempts_transient_no_body remaining attempt last_exc sleeps js :
  (forall k, transient (net k)) ->
  fst (attempts net remaining attempt last_exc sleeps) ≠ Returned js.
Proof.
  intros H. revert attempt last_exc sleeps.
  induction remaining as [|remaining IH]; intros attempt last_exc sleeps.
  - simpl. by destruct last_exc.
  - simpl. specialize (H attempt). unfold transient in H.
    destruct (net attempt) as [status body|what]; [|apply IH].
    rewrite H. destruct (status =? 200) eqn:E; [|apply IH].
    apply Z.eqb_eq in E. subst status. vm_compute in H. discriminate.
Qed.

End RequestGet.

(** C3. Six attempts that are all answered with HTTP 503: the call
    sleeps six times and returns [None]; it raises nothing. *)
Theorem request_get_all_503 :
  _request_get Scenarios.always_503 6
  = (ReturnedNone, [0; 1; 2; 3; 4; 5]%nat).
Proof. reflexivity. Qed.

End FetchFacts.

(** ** Checkpoints and the resumable stream *)

Module StreamFacts.

Import Stream PyFacts.

Lemma entry_resuming_iff sig ckpt nc :
  entry sig ckpt = Resuming nc
  <-> exists c, ckpt = Some c
              ∧ (forall k, dict_get k (signature c) = dict_get k sig)
              ∧ next_cursor c = Some nc ∧ nc ≠ "".
Proof.
  unfold entry. split.
  - destruct ckpt as [c|]; [|done].
    destruct (dict_eqb (signature c) sig) eqn:Esig; [|done].
    destruct (next_cursor c) as [nc'|] eqn:Enc; [|done]. simpl.
    destruct (String.eqb nc' "") eqn:E; [done|]. simpl.
    intros [= ->]. exists c. repeat split; try done.
    + by apply dict_eqb_spec.
    + by apply eqb_string_false.
  - intros (c & -> & Hsig & Hnc & Hne).
    apply dict_eqb_spec in Hsig. rewrite Hsig, Hnc. simpl.
    apply eqb_string_false in Hne. by rewrite Hne.
Qed.

Lemma entry_cases sig ckpt :
  (exists nc, entry sig ckpt = Resuming nc) ∨ entry sig ckpt = Fresh.
Proof. destruct (entry sig ckpt); eauto. Qed.

Lemma start_params_resuming base nc :
  dict_get "page[cursor]" (start_params base (Resuming nc)) = Some (VStr nc).
Proof. apply dict_get_set_eq. Qed.

Lemma start_params_fresh base :
  dict_get "page[cursor]" (start_params base Fresh)
  = Some (default (VStr "1") (dict_get "page[cursor]" base)).
Proof.
  unfold start_params, dict_setdefault.
  destruct (dict_get "page[cursor]" base) as [v|] eqn:E; simpl.
  - exact E.
  - apply dict_get_set_eq.
Qed.

Lemma load_checkpoint_stored fs path c :
  _load_checkpoint fs path = Some c <-> fs !! path = Some (Stored c).
Proof.
  unfold _load_checkpoint. destruct (fs !! path) as [[c'|]|]; split; congruence.
Qed.

Section Pass.

Context {item row : Type}.
Variable encode_basestring : string -> string.
Variable int_repr : Z -> string.
Variable sha1_hexdigest : string -> string.
Variable _parse_next_cursor : string -> option string.
Variable request_get : pydict -> option (response item).
Variable disk : nat -> write_outcome.

(** C5, amended. A pass asks for its first page at the cursor of the
    stored checkpoint exactly when that checkpoint has the signature of
    the pass and a cursor that is not empty; in every other case it keeps
    the cursor its parameters already hold, and takes "1" only when they
    hold none. *)
Theorem resume_iff_signature_and_cursor (fuel : nat) (base_params : pydict)
    (checkpoint_dir : string) (client_id : option string) (fs : ckpt_store) :
  exists params rest,
    stream_datacite_with_resume encode_basestring int_repr sha1_hexdigest
      _parse_next_cursor request_get disk fuel base_params checkpoint_dir
      client_id fs
    = EvRequest params :: rest
    ∧ ((exists c nc,
          resumable encode_basestring int_repr sha1_hexdigest fs
            base_params checkpoint_dir client_id c nc
          ∧ dict_get "page[cursor]" params = Some (VStr nc))
       ∨ ((¬ exists c nc,
             resumable encode_basestring int_repr sha1_hexdigest fs
               base_params checkpoint_dir client_id c nc)
          ∧ dict_get "page[cursor]" params
            = Some (default (VStr "1")
                            (dict_get "page[cursor]" base_params)))).
Proof.
  unfold stream_datacite_with_resume, resumable.
  fold (path_of encode_basestring int_repr sha1_hexdigest base_params
          checkpoint_dir client_id).
  set (sig := Sig._sig_dict base_params).
  set (path := path_of encode_basestring int_repr sha1_hexdigest base_params
                 checkpoint_dir client_id).
  eexists _, _. split; [reflexivity|].
  destruct (entry sig (_load_checkpoint fs path)) as [nc|] eqn:E.
  - left. apply entry_resuming_iff in E as (c & Hload & Hsig & Hnc & Hne).
    apply load_checkpoint_stored in Hload.
    exists c, nc. split; [by repeat split|]. apply start_params_resuming.
  - right. split; [|apply start_params_fresh].
    intros (c & nc & Hst & Hsig & Hnc & Hne).
    apply load_checkpoint_stored in Hst.
    assert (entry sig (_load_checkpoint fs path) = Resuming nc) as E'.
    { apply entry_resuming_iff. by exists c. }
    congruence.
Qed.

End Pass.

(** C5 as the specification states it fails: with no checkpoint file, a
    pass whose parameters hold the cursor "c7" asks for its first page at
    "c7", not at the initial cursor "1". *)
Lemma fresh_pass_keeps_caller_cursor :
  exists path params rest,
    _load_checkpoint (∅ : ckpt_store) path = None
    ∧ path = _checkpoint_path "ckpt"
               (Sig._sig_hash Scenarios.plain Scenarios.no_int Scenarios.plain
                  (Sig._sig_dict Scenarios.from_c7)) None
    ∧ stream_datacite_with_resume Scenarios.plain Scenarios.no_int
        Scenarios.plain Scenarios.after_eq Scenarios.three_pages
        Scenarios.all_written 10 Scenarios.from_c7 "ckpt" None ∅
      = EvRequest params :: rest
    ∧ dict_get "page[cursor]" params = Some (VStr "c7")
    ∧ dict_get "page[cursor]" params ≠ Some (VStr "1").
Proof.
  eexists _, _, _. split; [|split; [reflexivity|split; [reflexivity|]]].
  - reflexivity.
  - split; [reflexivity | discriminate].
Qed.

Section Harvest.

Context {item row : Type}.
Variable encode_basestring : string -> string.
Variable int_repr : Z -> string.
Variable sha1_hexdigest : string -> string.
Variable _parse_next_cursor : string -> option string.
Variable request_get : pydict -> option (response item).
Variable disk : nat -> write_outcome.
Variable _one_row_wide : item -> option row.
Variable incremental_every : Z.
Variable incremental_save_dir : bool.

Local Abbreviation consumeH :=
  (consume _one_row_wide incremental_every incremental_save_dir).
Local Abbreviation runH :=
  (run _one_row_wide incremental_every incremental_save_dir).
Local Abbreviation streamH :=
  (stream_datacite_with_resume encode_basestring int_repr sha1_hexdigest
     _parse_next_cursor request_get disk).
Local Abbreviation pathH :=
  (path_of encode_basestring int_repr sha1_hexdigest).

Lemma run_app (s : hstate row) (l1 l2 : list (event item)) :
  runH s (l1 ++ l2) = runH (runH s l1) l2.
Proof. apply fold_left_app. Qed.

Lemma run_cons (s : hstate row) (e : event item) l :
  runH s (e :: l) = runH (consumeH s e) l.
Proof. reflexivity. Qed.

Lemma run_app_cons (s : hstate row) (l : list (event item)) e rest :
  runH s (l ++ e :: rest) = runH (runH s (l ++ [e])) rest.
Proof. rewrite <- run_app, <- app_assoc. reflexivity. Qed.

Lemma ckpts_write_chunk (s : hstate row) :
  ckpts (write_chunk incremental_save_dir s) = ckpts s.
Proof. unfold write_chunk. by destruct incremental_save_dir. Qed.

(** Only a checkpoint write changes the checkpoint files. *)
Lemma ckpts_consume (s : hstate row) (e : event item) :
  (forall path c o, e ≠ EvSave path c o) ->
  ckpts (consumeH s e) = ckpts s.
Proof.
  intros He. destruct e as [p|it|path c o|c|]; simpl; try done.
  - unfold append_row.
    destruct (_one_row_wide it); simpl;
      destruct (incremental_every <=? _); simpl;
      by rewrite ?ckpts_write_chunk.
  - by specialize (He path c o).
  - destruct (buffer_rows s); [done|]. apply ckpts_write_chunk.
Qed.

Lemma ckpts_run_yields (s : hstate row) (items : list item) :
  ckpts (runH s (map EvYield items)) = ckpts s.
Proof.
  revert s. induction items as [|it items IH]; intros s; [done|].
  simpl map. rewrite run_cons, IH. by apply ckpts_consume.
Qed.

Lemma last_done_cons (e : event item) rest c :
  (forall c', e ≠ EvDone c') ->
  last (e :: rest) = Some (EvDone c) -> last rest = Some (EvDone c).
Proof.
  intros He. destruct rest as [|e' rest]; [|done].
  simpl. intros [= ->]. by specialize (He c).
Qed.

(** After the items of a page, a successful write leaves the checkpoint
    of that page on disk. *)
Lemma page_then_rest (s : hstate row) items path ck rest c :
  last (map EvYield items ++ EvSave path ck Written :: rest)
  = Some (EvDone c) ->
  last rest = Some (EvDone c)
  ∧ _load_checkpoint
      (ckpts (runH s (map EvYield items ++ [EvSave path ck Written]))) path
    = Some ck.
Proof.
  intros H. rewrite last_app_cons in H.
  apply last_done_cons in H; [|done]. split; [exact H|].
  rewrite run_app. simpl. unfold _load_checkpoint.
  by rewrite lookup_insert_eq.
Qed.

(** The loop leaves on disk the checkpoint with the cursor it ends
    with. *)
Lemma next_pages_done fuel path sig params k cursor (s : hstate row) c :
  (forall k, disk k = Written) ->
  _load_checkpoint (ckpts s) path = Some (Checkpoint sig cursor) ->
  last (next_pages _parse_next_cursor request_get disk fuel path sig
          params k cursor) = Some (EvDone c) ->
  _load_checkpoint
    (ckpts (runH s (next_pages _parse_next_cursor request_get disk fuel
                      path sig params k cursor))) path
  = Some (Checkpoint sig c).
Proof.
  intros Hdisk. revert params k cursor s.
  induction fuel as [|fuel IH]; intros params k cursor s Hload Hend;
    [done|]. cbn [next_pages] in *.
  assert (forall (s' : hstate row) (c' : option string),
             ckpts (runH s' [EvDone c']) = ckpts s') as Hdone.
  { intros s' c'. change (runH s' [EvDone c']) with (consumeH s' (EvDone c')).
    by apply ckpts_consume. }
  destruct cursor as [nc|];
    [|injection Hend as <-; by rewrite Hdone].
  destruct (String.eqb nc "") eqn:Enc.
  { injection Hend as <-. by rewrite Hdone. }
  set (params' := dict_set "page[cursor]" (VStr nc) params) in *.
  destruct (request_get params') as [js|]; [|done].
  rewrite run_cons.
  set (s1 := consumeH s (EvRequest params')) in *.
  destruct (data js) as [|it items] eqn:Edata.
  { injection Hend as <-. by rewrite Hdone. }
  rewrite Hdisk in *.
  change (EvYield it :: map EvYield items ++ ?l)
    with (map EvYield (it :: items) ++ l) in *.
  apply last_done_cons in Hend; [|done].
  destruct (page_then_rest s1 _ _ _ _ _ Hend) as [Hrest Hsaved].
  rewrite run_app_cons.
  by apply IH.
Qed.

Lemma stream_done fuel base_params checkpoint_dir client_id
    (s0 : hstate row) c :
  (forall k, disk k = Written) ->
  last (streamH fuel base_params checkpoint_dir client_id (ckpts s0))
  = Some (EvDone c) ->
  _load_checkpoint
    (ckpts (runH s0 (streamH fuel base_params checkpoint_dir client_id
                       (ckpts s0))))
    (pathH base_params checkpoint_dir client_id)
  = Some (Checkpoint (Sig._sig_dict base_params) c).
Proof.
  intros Hdisk Hend. unfold stream_datacite_with_resume in *.
  fold (pathH base_params checkpoint_dir client_id) in *.
  set (path := pathH base_params checkpoint_dir client_id) in *.
  set (sig := Sig._sig_dict base_params) in *.
  set (params := start_params base_params _) in *.
  destruct (request_get params) as [js|]; [|done].
  rewrite Hdisk in *. rewrite run_cons.
  apply last_done_cons in Hend; [|done].
  set (s1 := consumeH s0 (EvRequest params)) in *.
  destruct (page_then_rest s1 _ _ _ _ _ Hend) as [Hrest Hsaved].
  rewrite run_app_cons.
  by apply (next_pages_done _ _ _ _ _ _ _ _ Hdisk Hsaved Hrest).
Qed.

Lemma how_ended_no_next_cursor (evs : list (event item)) :
  how_ended evs = NoNextCursor ->
  exists c, last evs = Some (EvDone c) ∧ truthy_str c = false.
Proof.
  unfold how_ended. destruct (last evs) as [[| | |c|]|]; try done.
  destruct (truthy_str c) eqn:E; [done|]. by exists c.
Qed.

Lemma how_ended_empty_page (evs : list (event item)) :
  how_ended evs = EmptyPage ->
  exists nc, last evs = Some (EvDone (Some nc)) ∧ nc ≠ "".
Proof.
  unfold how_ended. destruct (last evs) as [[| | |c|]|]; try done.
  destruct c as [nc|]; simpl; [|done].
  destruct (String.eqb nc "") eqn:E; simpl; [done|].
  exists nc. split; [done|]. by apply PyFacts.eqb_string_false.
Qed.

Lemma entry_same_signature sig c :
  entry sig (Some (Checkpoint sig c))
  = match c with
    | Some nc => if String.eqb nc "" then Fresh else Resuming nc
    | None => Fresh
    end.
Proof.
  unfold entry. simpl.
  assert (dict_eqb sig sig = true) as -> by (by apply dict_eqb_spec).
  destruct c as [nc|]; simpl; [|done]. by destruct (String.eqb nc "").
Qed.

(** C4, amended. A pass whose checkpoint writes succeed ends with the
    checkpoint on disk holding the cursor the loop ended with. When the
    pass ends because the last page it processed yields no cursor for a
    next page, that is no cursor, and a later pass with the same
    signature has nothing to resume from; when it ends because a page
    after the first is empty, that is the cursor of the empty page, and a
    later pass with the same signature resumes from it. *)
Theorem checkpoint_at_end_of_pass (fuel : nat)
    (base_params : pydict) (checkpoint_dir : string)
    (client_id : option string) (s0 : hstate row) :
  (forall k, disk k = Written) ->
  let evs := streamH fuel base_params checkpoint_dir client_id (ckpts s0) in
  let sig := Sig._sig_dict base_params in
  let saved :=
    _load_checkpoint (ckpts (runH s0 evs))
      (pathH base_params checkpoint_dir client_id) in
  (how_ended evs = NoNextCursor ->
   exists c, truthy_str c = false
             ∧ saved = Some (Checkpoint sig c)
             ∧ entry sig saved = Fresh)
  ∧ (how_ended evs = EmptyPage ->
     exists nc, nc ≠ ""
                ∧ saved = Some (Checkpoint sig (Some nc))
                ∧ entry sig saved = Resuming nc).
Proof.
  intros Hdisk evs sig saved. subst evs sig saved. split.
  - intros (c & Hlast & Hc)%how_ended_no_next_cursor.
    exists c. rewrite (stream_done _ _ _ _ _ _ Hdisk Hlast).
    repeat split; [done|]. rewrite entry_same_signature.
    destruct c as [nc|]; [|done]. simpl in Hc.
    by destruct (String.eqb nc "").
  - intros (nc & Hlast & Hnc)%how_ended_empty_page.
    exists nc. rewrite (stream_done _ _ _ _ _ _ Hdisk Hlast).
    repeat split; [done|]. rewrite entry_same_signature.
    apply PyFacts.eqb_string_false in Hnc. by rewrite Hnc.
Qed.

(** What the consumer keeps true of every trace: a fetched row is in a
    chunk on disk or in the buffer, and the buffer stays under the flush
    threshold. *)
Lemma run_keeps_rows (s0 : hstate row) (evs : list (event item)) :
  incremental_save_dir = true ->
  buffer_rows s0 = [] ->
  (forall r, r ∈ fetched _one_row_wide evs ->
             r ∈ concat (chunks (runH s0 evs)) ∨ r ∈ buffer_rows (runH s0 evs))
  ∧ Z.of_nat (length (buffer_rows (runH s0 evs))) < Z.max 1 incremental_every.
Proof.
  intros Hdir Hempty.
  induction evs as [|e evs [IHrows IHlen]] using rev_ind.
  - simpl. rewrite Hempty. simpl. split; [by intros r ?%elem_of_nil | lia].
  - unfold fetched in *. rewrite omap_app, run_app. simpl.
    set (s := runH s0 evs) in *.
    destruct e as [p|it|path c o|c|]; simpl.
    + split; [|done]. intros r Hr. rewrite app_nil_r in Hr. auto.
    + unfold append_row. destruct (_one_row_wide it) as [r0|] eqn:Erow; simpl.
      * destruct (incremental_every <=? _) eqn:E; simpl.
        -- unfold write_chunk. rewrite Hdir. simpl. split; [|lia].
           intros r Hr. left. rewrite concat_app. simpl. rewrite app_nil_r.
           apply elem_of_app in Hr as [Hr|Hr%list_elem_of_singleton].
           ++ destruct (IHrows r Hr) as [H|H];
                rewrite !elem_of_app; auto.
           ++ subst r. rewrite !elem_of_app. right. right.
              apply list_elem_of_singleton. done.
        -- apply Z.leb_gt in E. split; [|lia].
           intros r Hr.
           apply elem_of_app in Hr as [Hr|Hr%list_elem_of_singleton].
           ++ destruct (IHrows r Hr) as [H|H]; rewrite ?elem_of_app; auto.
           ++ subst r. right. rewrite elem_of_app. right.
              by apply list_elem_of_singleton.
      * rewrite app_nil_r.
        destruct (incremental_every <=? _) eqn:E; simpl.
        -- unfold write_chunk. rewrite Hdir. simpl. split; [|lia].
           intros r Hr. left. rewrite concat_app. simpl. rewrite app_nil_r.
           destruct (IHrows r Hr) as [H|H]; rewrite !elem_of_app; auto.
        -- split; [exact IHrows | exact IHlen].
    + split; [|done]. intros r Hr. rewrite app_nil_r in Hr. auto.
    + rewrite app_nil_r. destruct (buffer_rows s) as [|r0 rs] eqn:Ebuf.
      * rewrite Ebuf. split; [|done]. intros r Hr.
        destruct (IHrows r Hr) as [H|H]; auto.
      * unfold write_chunk. rewrite Hdir. simpl. rewrite Ebuf.
        split; [|exact IHlen].
        intros r Hr. destruct (IHrows r Hr) as [H|H]; [|by right].
        left. rewrite concat_app. apply elem_of_app. by left.
    + split; [|done]. intros r Hr. rewrite app_nil_r in Hr. auto.
Qed.

End Harvest.

(** C4 as the specification states it fails. The second page is empty:
    the pass ends, the checkpoint on disk still holds the cursor of that
    page (it is not cleared), and a later pass resumes from it. *)
Lemma empty_page_keeps_cursor :
  let evs := Scenarios.pass_of Scenarios.empty_second_page 10 ∅ in
  let sig := Sig._sig_dict Scenarios.preprints in
  let saved :=
    _load_checkpoint (ckpts (Scenarios.run_of Scenarios.empty_second_page
                               100 evs))
      (path_of Scenarios.plain Scenarios.no_int Scenarios.plain
         Scenarios.preprints "ckpt" None) in
  how_ended evs = EmptyPage
  ∧ saved = Some (Checkpoint sig (Some "c2"))
  ∧ entry sig saved = Resuming "c2".
Proof. vm_compute. repeat split. Qed.

(** The catalogue of three pages, harvested to its end: the checkpoint
    holds no cursor. *)
Lemma checkpoint_at_end_of_pass_witness :
  exists c,
    truthy_str c = false
    ∧ _load_checkpoint
        (ckpts (Scenarios.run_of Scenarios.three_pages 100
                  (Scenarios.pass_of Scenarios.three_pages 10 ∅)))
        (path_of Scenarios.plain Scenarios.no_int Scenarios.plain
           Scenarios.preprints "ckpt" None)
      = Some (Checkpoint (Sig._sig_dict Scenarios.preprints) c).
Proof.
  destruct (checkpoint_at_end_of_pass Scenarios.plain Scenarios.no_int
              Scenarios.plain Scenarios.after_eq Scenarios.three_pages
              Scenarios.all_written Some 100 true 10 Scenarios.preprints
              "ckpt" None Scenarios.nothing_yet) as [Hnone _].
  - reflexivity.
  - destruct Hnone as (c & Hc & Hload & _).
    + vm_compute. reflexivity.
    + exists c. split; [exact Hc | exact Hload].
Defined.

End StreamFacts.

(** ** The final deduplication of the harvester *)

Module DedupFacts.

Import Dedup.

(** *** The sort order is a total preorder *)

Lemma lex_ok {A : Type} (f g : A -> A -> comparison) :
  order_ok f -> order_ok g -> order_ok (fun a b => lex (f a b) (g a b)).
Proof.
  intros [fr fa fe ft] [gr ga ge gt]. split.
  - intros a. by rewrite fr, gr.
  - intros a b. rewrite (fa a b), (ga a b). by destruct (f b a).
  - intros a b c H.
    destruct (f a b) eqn:Ef; simpl in H; try done.
    by rewrite (fe a b c Ef), (ge a b c H).
  - intros a b c Hab Hbc.
    destruct (f a b) eqn:Eab; simpl in Hab; try done.
    + rewrite (fe a b c Eab).
      destruct (f b c) eqn:Ebc; simpl in *; try done. by apply (gt a b c).
    + destruct (f b c) eqn:Ebc; simpl in Hbc; try done.
      * assert (f c b = Eq) as Ecb by (by rewrite fa, Ebc).
        assert (f c a = Gt) as Eca.
        { rewrite (fe c b a Ecb), fa, Eab. done. }
        rewrite fa, Eca. done.
      * by rewrite (ft a b c Eab Ebc).
Qed.

Lemma on_key_ok {A K : Type} (key : A -> K) (f : K -> K -> comparison) :
  order_ok f -> order_ok (fun a b => f (key a) (key b)).
Proof. intros [fr fa fe ft]. split; eauto. Qed.

Lemma cmp_desc_ok : order_ok cmp_desc.
Proof.
  unfold cmp_desc. split.
  - intros a. apply Nat.compare_refl.
  - intros a b. apply Nat.compare_antisym.
  - intros a b c ->%Nat.compare_eq. done.
  - intros a b c ?%Nat.compare_lt_iff ?%Nat.compare_lt_iff.
    apply Nat.compare_lt_iff. lia.
Qed.

Lemma string_compare_refl (x : string) : String.compare x x = Eq.
Proof. by apply OrderedTypeEx.String_as_OT.cmp_eq. Qed.

Lemma string_compare_lt_trans (x y z : string) :
  String.compare x y = Lt -> String.compare y z = Lt ->
  String.compare x z = Lt.
Proof.
  intros H1%OrderedTypeEx.String_as_OT.cmp_lt
         H2%OrderedTypeEx.String_as_OT.cmp_lt.
  apply OrderedTypeEx.String_as_OT.cmp_lt.
  eapply OrderedTypeEx.String_as_OT.lt_trans; eauto.
Qed.

Lemma cmp_na_last_ok : order_ok cmp_na_last.
Proof.
  split.
  - intros [x|]; simpl; [apply string_compare_refl | done].
  - intros [x|] [y|]; simpl; try done. apply String.compare_antisym.
  - intros [x|] [y|] c; simpl; try done.
    by intros ->%String.compare_eq_iff.
  - intros [x|] [y|] [z|]; simpl; try done. apply string_compare_lt_trans.
Qed.

Lemma row_cmp_ok : order_ok row_cmp.
Proof.
  unfold row_cmp.
  apply (lex_ok (fun r1 r2 => cmp_desc (_rich r1) (_rich r2))).
  { apply (on_key_ok _rich), cmp_desc_ok. }
  apply (lex_ok (fun r1 r2 => cmp_na_last (registered r1) (registered r2))).
  { apply (on_key_ok registered), cmp_na_last_ok. }
  apply (lex_ok (fun r1 r2 => cmp_na_last (updated r1) (updated r2))).
  { apply (on_key_ok updated), cmp_na_last_ok. }
  apply (on_key_ok created), cmp_na_last_ok.
Qed.

Lemma row_leb_refl r : row_leb r r = true.
Proof. unfold row_leb. by rewrite (ok_refl _ row_cmp_ok). Qed.

Lemma row_leb_total r1 r2 : row_leb r1 r2 = false -> row_leb r2 r1 = true.
Proof.
  unfold row_leb. rewrite (ok_anti _ row_cmp_ok r2 r1).
  by destruct (row_cmp r1 r2).
Qed.

Lemma row_leb_trans r1 r2 r3 :
  row_leb r1 r2 = true -> row_leb r2 r3 = true -> row_leb r1 r3 = true.
Proof.
  unfold row_leb. intros H12 H23.
  destruct (row_cmp r1 r2) eqn:E12; try done.
  - by rewrite (ok_eq_l _ row_cmp_ok _ _ r3 E12).
  - destruct (row_cmp r2 r3) eqn:E23; try done.
    + assert (row_cmp r3 r2 = Eq) as E32.
      { by rewrite (ok_anti _ row_cmp_ok), E23. }
      assert (row_cmp r3 r1 = Gt) as E31.
      { rewrite (ok_eq_l _ row_cmp_ok _ _ r1 E32).
        by rewrite (ok_anti _ row_cmp_ok), E12. }
      by rewrite (ok_anti _ row_cmp_ok), E31.
    + by rewrite (ok_lt_trans _ row_cmp_ok _ _ _ E12 E23).
Qed.

(** A row that sorts no later than another is at least as rich. *)
Lemma row_leb_rich r1 r2 : row_leb r1 r2 = true -> (_rich r2 <= _rich r1)%nat.
Proof.
  unfold row_leb, row_cmp, cmp_desc. intros H.
  destruct (Nat.compare_spec (_rich r2) (_rich r1)) as [E|E|E]; [lia|lia|].
  simpl in H. done.
Qed.

(** *** The sort *)

Lemma insert_sorted_perm r l : insert_sorted r l ≡ₚ r :: l.
Proof.
  induction l as [|r' l IH]; simpl; [done|].
  destruct (row_leb r r'); [done|]. rewrite IH. apply Permutation_swap.
Qed.

Lemma sort_values_perm df : sort_values df ≡ₚ df.
Proof.
  induction df as [|r df IH]; simpl; [done|].
  by rewrite insert_sorted_perm, IH.
Qed.

Lemma insert_sorted_sorted r l :
  StronglySorted (fun a b => row_leb a b = true) l ->
  StronglySorted (fun a b => row_leb a b = true) (insert_sorted r l).
Proof.
  induction 1 as [|r' l Hl IH Hall]; simpl.
  - repeat constructor.
  - destruct (row_leb r r') eqn:E.
    + constructor; [by constructor|].
      constructor; [exact E|].
      eapply Forall_impl; [exact Hall|].
      intros x Hx. simpl in Hx. by apply (row_leb_trans r r' x).
    + constructor; [exact IH|].
      rewrite insert_sorted_perm. constructor; [|exact Hall].
      by apply row_leb_total.
Qed.

Lemma sort_values_sorted df :
  StronglySorted (fun a b => row_leb a b = true) (sort_values df).
Proof.
  induction df as [|r df IH]; simpl; [constructor|].
  by apply insert_sorted_sorted.
Qed.

(** Rows of equal rank keep the order they had. *)
Lemma insert_sorted_stable r r' l :
  row_leb r r' = true -> insert_sorted r (r' :: l) = r :: r' :: l.
Proof. intros H. simpl. by rewrite H. Qed.

(** *** Dropping the duplicates *)

Lemma drop_duplicates_subset seen df r :
  r ∈ drop_duplicates seen df -> r ∈ df ∧ doi r ∉ seen.
Proof.
  revert seen. induction df as [|r0 df IH]; intros seen; simpl.
  - by intros ?%elem_of_nil.
  - case_bool_decide as Hseen.
    + intros [H1 H2]%IH. split; [by right | done].
    + intros [->|H]%elem_of_cons; [split; [left | done]|].
      apply IH in H as [H1 H2]. split; [by right|].
      intros Hin. apply H2. by right.
Qed.

Lemma drop_duplicates_nodup seen df :
  NoDup (map doi (drop_duplicates seen df)).
Proof.
  revert seen. induction df as [|r0 df IH]; intros seen; simpl.
  - constructor.
  - case_bool_decide as Hseen; [apply IH|].
    simpl. constructor; [|apply IH].
    intros (r & Hr & Hin)%list_elem_of_fmap.
    apply drop_duplicates_subset in Hin as [_ Hnot].
    apply Hnot. rewrite <- Hr. left.
Qed.

(** In a sorted frame the row kept for a DOI sorts no later than any
    other row of that DOI. *)
Lemma drop_duplicates_keeps_first seen df r :
  StronglySorted (fun a b => row_leb a b = true) df ->
  r ∈ df -> doi r ∉ seen ->
  exists r', r' ∈ drop_duplicates seen df
             ∧ doi r' = doi r ∧ row_leb r' r = true.
Proof.
  intros Hsorted. revert seen.
  induction Hsorted as [|r0 df Hdf IH Hall]; intros seen Hin Hseen.
  - by apply elem_of_nil in Hin.
  - simpl. case_bool_decide as Hseen0.
    + apply elem_of_cons in Hin as [->|Hin]; [done|].
      by apply IH.
    + destruct (decide (doi r0 = doi r)) as [Heq|Hne].
      * exists r0. split; [left|]. split; [done|].
        apply elem_of_cons in Hin as [->|Hin]; [apply row_leb_refl|].
        rewrite Forall_forall in Hall. by apply Hall.
      * apply elem_of_cons in Hin as [->|Hin]; [done|].
        destruct (IH (doi r0 :: seen) Hin) as (r' & Hr' & Hdoi & Hle).
        { intros [?|?]%elem_of_cons; [congruence | done]. }
        exists r'. split; [by right | done].
Qed.

Lemma dedup_final_unfold df :
  dedup_final df = drop_duplicates [] (sort_values df).
Proof. by destruct df. Qed.

(** The deduplication keeps exactly one row for each DOI of the frame,
    a row of the frame that no other row of that DOI precedes in the
    sort order; in particular none is richer. *)
Lemma dedup_final_spec df :
  NoDup (map doi (dedup_final df))
  ∧ (forall r', r' ∈ dedup_final df -> r' ∈ df)
  ∧ (forall r, r ∈ df ->
       exists r', r' ∈ dedup_final df ∧ doi r' = doi r
                  ∧ row_leb r' r = true ∧ (_rich r <= _rich r')%nat).
Proof.
  rewrite dedup_final_unfold. split; [apply drop_duplicates_nodup|]. split.
  - intros r' [H _]%drop_duplicates_subset. by rewrite sort_values_perm in H.
  - intros r Hr.
    destruct (drop_duplicates_keeps_first [] (sort_values df) r)
      as (r' & Hin & Hdoi & Hle).
    + apply sort_values_sorted.
    + by rewrite sort_values_perm.
    + by intros ?%elem_of_nil.
    + exists r'. repeat split; try done. by apply row_leb_rich.
Qed.

End DedupFacts.

(** ** Shard discovery *)

Module DiscoverFacts.

Import Discover.

Section Discovery.

Variable F : fs.
Variable name_contains : string.
Variable one_level_deep : bool.

Local Abbreviation visitD := (visit F name_contains).
Local Abbreviation scan_folderD := (scan_folder F name_contains).
Local Abbreviation scan_parentD := (scan_parent F name_contains one_level_deep).
Local Abbreviation discover_fromD :=
  (discover_from F name_contains one_level_deep).

(** What the scan of one root keeps true: the records it has added have
    distinct paths, all of them in [seen]. *)
Lemma visit_grows folder (acc : gset string * list shard) fpath records g :
  acc.2 = (records ++ g)%list ->
  NoDup (map filepath g) ->
  (forall r, r ∈ g -> filepath r ∈ acc.1) ->
  exists g',
    (visitD folder acc fpath).2 = (records ++ g')%list
    ∧ NoDup (map filepath g')
    ∧ (forall r, r ∈ g' -> filepath r ∈ (visitD folder acc fpath).1).
Proof.
  destruct acc as [seen recs]. simpl. intros -> Hnd Hseen.
  unfold visit. case_bool_decide as Hin; [by exists g|].
  destruct (negb (String.eqb name_contains "") && _); simpl.
  - exists g. repeat split; try done.
    intros r Hr. apply elem_of_union_r. by apply Hseen.
  - exists (g ++ [Shard folder (_norm F fpath) (basename F (_norm F fpath))])%list.
    split; [by rewrite app_assoc|]. split.
    + rewrite map_app. simpl. apply NoDup_app. split; [done|]. split.
      * intros x (r & Hx & Hr)%list_elem_of_fmap [Hx'|?%elem_of_nil]%elem_of_cons;
          [|done].
        apply Hin. rewrite <- Hx', Hx. by apply Hseen.
      * apply NoDup_singleton.
    + intros r [Hr|Hr%list_elem_of_singleton]%elem_of_app.
      * apply elem_of_union_r. by apply Hseen.
      * subst r. simpl. apply elem_of_union_l. by apply elem_of_singleton.
Qed.

Lemma visits_grow folder fpaths (acc : gset string * list shard) records g :
  acc.2 = (records ++ g)%list ->
  NoDup (map filepath g) ->
  (forall r, r ∈ g -> filepath r ∈ acc.1) ->
  exists g',
    (fold_left (visitD folder) fpaths acc).2 = (records ++ g')%list
    ∧ NoDup (map filepath g')
    ∧ (forall r, r ∈ g' ->
                 filepath r ∈ (fold_left (visitD folder) fpaths acc).1).
Proof.
  revert acc g. induction fpaths as [|fpath fpaths IH]; intros acc g H1 H2 H3.
  - by exists g.
  - simpl. destruct (visit_grows folder acc fpath records g H1 H2 H3)
      as (g1 & G1 & G2 & G3).
    by apply (IH _ g1).
Qed.

Lemma folders_grow folders (acc : gset string * list shard) records g :
  acc.2 = (records ++ g)%list ->
  NoDup (map filepath g) ->
  (forall r, r ∈ g -> filepath r ∈ acc.1) ->
  exists g',
    (fold_left scan_folderD folders acc).2 = (records ++ g')%list
    ∧ NoDup (map filepath g').
Proof.
  revert acc g. induction folders as [|folder folders IH];
    intros acc g H1 H2 H3.
  - by exists g.
  - simpl. unfold scan_folder at 2.
    destruct (visits_grow folder
                (iglob F (path_join (path_join folder "**") "*.parquet"))
                acc records g H1 H2 H3) as (g1 & G1 & G2 & G3).
    by apply (IH _ g1).
Qed.

(** A root adds a group of records with distinct paths; a missing root
    adds none; the scan raises only when an existing root cannot be
    listed. *)
Lemma scan_parent_spec records parent :
  match scan_parentD records parent with
  | Return records' =>
      exists g, records' = (records ++ g)%list
                ∧ NoDup (map filepath g)
                ∧ (path_exists F (_norm F parent) = false -> g = [])
  | Raise e =>
      path_exists F (_norm F parent) = true
      ∧ listdir F (_norm F parent) = None
      ∧ e = NotADirectoryError (_norm F parent)
  end.
Proof.
  unfold scan_parent.
  destruct (path_exists F (_norm F parent)) eqn:Eex; simpl.
  - unfold folders_of. destruct one_level_deep.
    + destruct (listdir F (_norm F parent)) as [ds|]; [|done].
      destruct (folders_grow
                  (_norm F parent ::
                   filter (fun p => isdir F p = true)
                          (map (path_join (_norm F parent)) ds))
                  (∅, records) records [])
        as (g & G1 & G2).
      { simpl. by rewrite app_nil_r. }
      { constructor. }
      { by intros r ?%elem_of_nil. }
      exists g. by rewrite G1.
    + destruct (folders_grow [_norm F parent] (∅, records) records [])
        as (g & G1 & G2).
      { simpl. by rewrite app_nil_r. }
      { constructor. }
      { by intros r ?%elem_of_nil. }
      exists g. by rewrite G1.
  - exists []. split; [by rewrite app_nil_r|]. split; [constructor | done].
Qed.

Lemma discover_from_spec parents records :
  match discover_fromD records parents with
  | Return recs =>
      exists groups,
        recs = (records ++ concat groups)%list
        ∧ Forall2 (fun parent g =>
                     NoDup (map filepath g)
                     ∧ (path_exists F (_norm F parent) = false -> g = []))
                  parents groups
  | Raise e =>
      exists parent,
        parent ∈ parents
        ∧ path_exists F (_norm F parent) = true
        ∧ listdir F (_norm F parent) = None
        ∧ e = NotADirectoryError (_norm F parent)
  end.
Proof.
  revert records. induction parents as [|parent parents IH]; intros records.
  - simpl. exists []. by rewrite app_nil_r.
  - simpl. pose proof (scan_parent_spec records parent) as Hp.
    destruct (scan_parentD records parent) as [records'|e].
    + destruct Hp as (g & -> & Hnd & Hmiss).
      specialize (IH (records ++ g)%list).
      destruct (discover_fromD (records ++ g)%list parents) as [recs|e].
      * destruct IH as (groups & -> & Hall).
        exists (g :: groups). simpl. split; [by rewrite app_assoc|].
        by constructor.
      * destruct IH as (p & Hp & H). exists p. split; [by right | done].
    + destruct Hp as (H1 & H2 & H3). exists parent. split; [left | done].
Qed.

(** C8, amended. The records come in one group for each root, in the
    order of the roots; within the group of a root no two records share
    a path (that root and its one-level-deep children are scanned with
    one [seen] set); a root that does not exist adds no record and never
    raises: discovery raises only when a root that exists cannot be
    listed. *)
Theorem discover_dedups_within_each_root (parents : list string) :
  match discover_parquet_files F name_contains one_level_deep parents with
  | Return recs =>
      exists groups,
        recs = concat groups
        ∧ Forall2 (fun parent g =>
                     NoDup (map filepath g)
                     ∧ (path_exists F (_norm F parent) = false -> g = []))
                  parents groups
  | Raise e =>
      exists parent,
        parent ∈ parents
        ∧ path_exists F (_norm F parent) = true
        ∧ listdir F (_norm F parent) = None
        ∧ e = NotADirectoryError (_norm F parent)
  end.
Proof. apply (discover_from_spec parents []). Qed.

End Discovery.

(** C8 as the specification states it fails. The roots [runs] and
    [runs/sub] both reach [runs/sub/a.parquet]; the file is listed once
    for each root. *)
Lemma same_file_from_two_roots :
  exists recs,
    discover_parquet_files Scenarios.nested "" true ["runs"; "runs/sub"]
    = Return recs
    ∧ map filepath recs = ["runs/sub/a.parquet"; "runs/sub/a.parquet"]
    ∧ ¬ NoDup (map filepath recs).
Proof.
  eexists. split; [vm_compute; reflexivity|]. split; [reflexivity|].
  intros Hnd. apply (bool_decide_pack _) in Hnd. vm_compute in Hnd. exact Hnd.
Qed.

End DiscoverFacts.

(** ** Schema unification *)

Module SchemaFacts.

Import Schema PyFacts.

(** *** The merge of types is a join *)

Lemma join_comm a b : join a b = join b a.
Proof. destruct a as [|t1|], b as [|t2|]; try done; by destruct t1, t2. Qed.

Lemma join_assoc a b c : join a (join b c) = join (join a b) c.
Proof.
  destruct a as [|t1|], b as [|t2|], c as [|t3|]; try done;
    try (by destruct t1, t2); try (by destruct t2, t3);
    try (by destruct t1, t3).
  destruct t1, t2, t3; reflexivity.
Qed.

Lemma join_absent_r a : join a Absent = a.
Proof. by destruct a. Qed.

Lemma join_clash_l a : join Clash a = Clash.
Proof. by destruct a. Qed.

Lemma join_has t1 t2 :
  join (Has t1) (Has t2)
  = match merge_types t1 t2 with
    | Some t => Has t
    | None => Clash
    end.
Proof. reflexivity. Qed.

(** *** What a name stands for does not depend on the order *)

Lemma slot_of_cons n f fs :
  slot_of n (f :: fs)
  = if String.eqb n (name f) then join (Has (type f)) (slot_of n fs)
    else slot_of n fs.
Proof. reflexivity. Qed.

Lemma slot_of_perm n fs fs' : fs ≡ₚ fs' -> slot_of n fs = slot_of n fs'.
Proof.
  induction 1 as [|f fs fs' _ IH|f g fs|fs1 fs2 fs3 _ IH1 _ IH2].
  - done.
  - by rewrite !slot_of_cons, IH.
  - rewrite !slot_of_cons.
    destruct (String.eqb n (name f)), (String.eqb n (name g)); try done.
    by rewrite !join_assoc, (join_comm (Has (type f))).
  - by rewrite IH1.
Qed.

(** *** One field added *)

Lemma field_of_name n s f : field_of n s = Some f -> name f = n.
Proof.
  induction s as [|g s IH]; simpl; [done|].
  destruct (String.eqb n (name g)) eqn:E; [|exact IH].
  apply eqb_string_true in E. by intros [= <-].
Qed.

Lemma field_of_elem_of n s f : field_of n s = Some f -> f ∈ s.
Proof.
  induction s as [|g s IH]; simpl; [done|].
  destruct (String.eqb n (name g)); [intros [= ->]; left | right; auto].
Qed.

Lemma field_of_none n s : field_of n s = None <-> n ∉ names s.
Proof.
  induction s as [|g s IH]; simpl.
  - split; [intros _ ?%elem_of_nil; done | done].
  - destruct (String.eqb n (name g)) eqn:E.
    + apply eqb_string_true in E. split; [done|].
      intros H. exfalso. apply H. rewrite E. left.
    + apply eqb_string_false in E. rewrite IH. split.
      * intros H [?|?]%elem_of_cons; done.
      * intros H ?. apply H. by right.
Qed.

Lemma slot_in_cons n g s :
  slot_in n (g :: s)
  = if String.eqb n (name g) then Has (type g) else slot_in n s.
Proof. unfold slot_in. simpl. by destruct (String.eqb n (name g)). Qed.

Lemma add_field_names f s s' :
  add_field f s = Return s' ->
  forall n, n ∈ names s' <-> n ∈ names s ∨ n = name f.
Proof.
  revert s'. induction s as [|g s IH]; intros s'; simpl.
  - intros [= <-] n. simpl. rewrite list_elem_of_singleton.
    split; [by right | by intros [?%elem_of_nil|?]].
  - destruct (String.eqb (name f) (name g)) eqn:E.
    + apply eqb_string_true in E.
      destruct (merge_types (type g) (type f)); [|done].
      intros [= <-] n. simpl. rewrite !elem_of_cons, E. tauto.
    + destruct (add_field f s) as [s''|]; [|done].
      intros [= <-] n. simpl. rewrite !elem_of_cons, (IH s'' eq_refl n). tauto.
Qed.

Lemma add_field_nodup f s s' :
  NoDup (names s) -> add_field f s = Return s' -> NoDup (names s').
Proof.
  revert s'. induction s as [|g s IH]; intros s'; simpl.
  - intros _ [= <-]. simpl. apply NoDup_singleton.
  - intros [Hg Hs]%NoDup_cons.
    destruct (String.eqb (name f) (name g)) eqn:E.
    + destruct (merge_types (type g) (type f)); [|done].
      intros [= <-]. simpl. by apply NoDup_cons.
    + destruct (add_field f s) as [s''|] eqn:Es; [|done].
      intros [= <-]. simpl. apply NoDup_cons. split; [|by apply IH].
      rewrite (add_field_names f s s'' Es).
      apply eqb_string_false in E. intros [?|?]; congruence.
Qed.

Lemma add_field_slots f s :
  match add_field f s with
  | Return s' =>
      forall n, slot_in n s'
                = if String.eqb n (name f)
                  then join (slot_in n s) (Has (type f)) else slot_in n s
  | Raise _ => join (slot_in (name f) s) (Has (type f)) = Clash
  end.
Proof.
  induction s as [|g s IH]; simpl.
  - intros n. rewrite slot_in_cons. by destruct (String.eqb n (name f)).
  - destruct (String.eqb (name f) (name g)) eqn:E.
    + apply eqb_string_true in E.
      destruct (merge_types (type g) (type f)) as [t|] eqn:Em.
      * intros n. rewrite !slot_in_cons. simpl. rewrite E.
        destruct (String.eqb n (name g)); [|done].
        by rewrite join_has, Em.
      * rewrite slot_in_cons, E, String.eqb_refl, join_has. by rewrite Em.
    + destruct (add_field f s) as [s'|e].
      * intros n. rewrite !slot_in_cons.
        destruct (String.eqb n (name g)) eqn:En; [|apply IH].
        apply eqb_string_true in En. subst n.
        apply eqb_string_false in E.
        assert (String.eqb (name g) (name f) = false) as ->
          by (apply eqb_string_false; congruence).
        done.
      * by rewrite slot_in_cons, E.
Qed.

(** *** All the fields added *)

Lemma slot_in_not_clash n s : slot_in n s ≠ Clash.
Proof. unfold slot_in. by destruct (field_of n s). Qed.

Lemma add_fields_raise e fs : add_fields (Raise e) fs = Raise e.
Proof. induction fs as [|f fs IH]; [done | exact IH]. Qed.

Lemma add_fields_cons acc f fs :
  add_fields acc (f :: fs)
  = add_fields match acc with
               | Return u => add_field f u
               | Raise e => Raise e
               end fs.
Proof. reflexivity. Qed.

Lemma add_fields_spec fs s :
  NoDup (names s) ->
  match add_fields (Return s) fs with
  | Return s' =>
      NoDup (names s')
      ∧ forall n, slot_in n s' = join (slot_in n s) (slot_of n fs)
  | Raise _ => exists n, join (slot_in n s) (slot_of n fs) = Clash
  end.
Proof.
  revert s. induction fs as [|f fs IH]; intros s Hnd.
  - simpl. split; [done|]. intros n. by rewrite join_absent_r.
  - rewrite add_fields_cons.
    pose proof (add_field_slots f s) as Hf.
    destruct (add_field f s) as [s1|e] eqn:E1.
    + specialize (IH s1 (add_field_nodup f s s1 Hnd E1)).
      destruct (add_fields (Return s1) fs) as [s'|e'].
      * destruct IH as [Hnd' IH]. split; [done|].
        intros n. rewrite IH, Hf, slot_of_cons.
        destruct (String.eqb n (name f)); [|done]. by rewrite join_assoc.
      * destruct IH as [n IH]. exists n.
        rewrite Hf in IH. rewrite slot_of_cons.
        destruct (String.eqb n (name f)); [|done]. by rewrite join_assoc.
    + rewrite add_fields_raise. exists (name f).
      by rewrite slot_of_cons, String.eqb_refl, join_assoc, Hf, join_clash_l.
Qed.

Lemma unify_schemas_concat schemas acc :
  fold_left add_fields schemas acc = add_fields acc (concat schemas).
Proof.
  revert acc. induction schemas as [|s schemas IH]; intros acc; [done|].
  simpl. rewrite IH. unfold add_fields. by rewrite fold_left_app.
Qed.

Lemma field_of_member s f :
  NoDup (names s) -> f ∈ s -> field_of (name f) s = Some f.
Proof.
  induction s as [|g s IH]; intros Hnd Hf; [by apply elem_of_nil in Hf|].
  cbn [field_of]. apply NoDup_cons in Hnd as [Hg Hnd].
  apply elem_of_cons in Hf as [->|Hf]; [by rewrite String.eqb_refl|].
  destruct (String.eqb (name f) (name g)) eqn:E; [|by apply IH].
  apply eqb_string_true in E. exfalso. apply Hg. rewrite <- E.
  apply list_elem_of_fmap. by exists f.
Qed.

(** Schemas without repeated names that give every name the same type
    hold the same fields. *)
Lemma same_slots_perm s s' :
  NoDup (names s) -> NoDup (names s') ->
  (forall n, slot_in n s = slot_in n s') -> s ≡ₚ s'.
Proof.
  assert (forall s s' : schema,
             NoDup (names s) ->
             (forall n, slot_in n s = slot_in n s') ->
             forall f, f ∈ s -> f ∈ s') as Hincl.
  { clear. intros s s' Hnd Hslots f Hf.
    pose proof (field_of_member s f Hnd Hf) as Hfield.
    specialize (Hslots (name f)). unfold slot_in in Hslots.
    rewrite Hfield in Hslots.
    destruct (field_of (name f) s') as [f'|] eqn:E'; [|done].
    injection Hslots as Hty.
    pose proof (field_of_name _ _ _ E') as Hname.
    apply field_of_elem_of in E'.
    destruct f, f'; simpl in *; by subst. }
  intros Hnd Hnd' Hslots. apply NoDup_Permutation.
  - by apply (NoDup_fmap_1 name).
  - by apply (NoDup_fmap_1 name).
  - intros f. split; apply Hincl; done.
Qed.

Lemma concat_perm (schemas schemas' : list schema) :
  schemas ≡ₚ schemas' -> concat schemas ≡ₚ concat schemas'.
Proof.
  induction 1 as [|s l l' _ IH|s1 s2 l|l1 l2 l3 _ IH1 _ IH2]; simpl.
  - done.
  - by rewrite IH.
  - rewrite !app_assoc. by rewrite (Permutation_app_comm s1 s2).
  - by rewrite IH1.
Qed.

Lemma unify_schemas_perm schemas schemas' :
  schemas ≡ₚ schemas' ->
  same_fields (unify_schemas schemas) (unify_schemas schemas').
Proof.
  intros Hperm. unfold unify_schemas. rewrite !unify_schemas_concat.
  change (@Return (list field)) with (@Return schema).
  assert (forall n, slot_of n (concat schemas) = slot_of n (concat schemas'))
    as Hslots.
  { intros n. apply slot_of_perm. by apply concat_perm. }
  pose proof (add_fields_spec (concat schemas) [] (NoDup_nil_2)) as H1.
  pose proof (add_fields_spec (concat schemas') [] (NoDup_nil_2)) as H2.
  revert H1 H2.
  destruct (add_fields (@Return schema []) (concat schemas)) as [s|e],
           (add_fields (@Return schema []) (concat schemas')) as [s'|e'];
    simpl; intros H1 H2.
  - destruct H1 as [N1 S1], H2 as [N2 S2].
    apply same_slots_perm; try done.
    intros n. by rewrite S1, S2, Hslots.
  - destruct H1 as [_ S1], H2 as [n S2].
    rewrite <- Hslots, <- S1 in S2. by apply slot_in_not_clash in S2.
  - destruct H1 as [n S1], H2 as [_ S2].
    rewrite Hslots, <- S2 in S1. by apply slot_in_not_clash in S1.
  - done.
Qed.

Section Collect.

Variable read_schema : string -> option schema.

Lemma collect_unfold paths :
  _collect_unified_schema read_schema paths
  = unify_schemas (readable_schemas read_schema paths).
Proof.
  unfold _collect_unified_schema.
  by destruct (readable_schemas read_schema paths).
Qed.

(** C7, amended. For a list of shard paths and any permutation of it,
    [_collect_unified_schema] raises for both or returns for both, and
    the two schemas returned hold the same fields, each name with the
    same type; the order of the columns follows the order of the shards
    and need not be the same. *)
Theorem unified_schema_same_fields (paths paths' : list string) :
  paths ≡ₚ paths' ->
  same_fields (_collect_unified_schema read_schema paths)
              (_collect_unified_schema read_schema paths').
Proof.
  intros Hperm. rewrite !collect_unfold. apply unify_schemas_perm.
  unfold readable_schemas. by apply omap_Permutation.
Qed.

End Collect.

(** C7 as the specification states it fails: the shards [A,B,C] and the
    shards [C,A,B] give schemas with the columns in different orders. *)
Lemma unified_schema_depends_on_order :
  _collect_unified_schema Scenarios.schema_at ["A"; "B"; "C"]
  = Return [Field "doi" string_; Field "score" float64; Field "title" string_]
  ∧ _collect_unified_schema Scenarios.schema_at ["C"; "A"; "B"]
    = Return [Field "title" string_; Field "doi" string_;
              Field "score" float64]
  ∧ _collect_unified_schema Scenarios.schema_at ["A"; "B"; "C"]
    ≠ _collect_unified_schema Scenarios.schema_at ["C"; "A"; "B"].
Proof. repeat split; try reflexivity. discriminate. Qed.

(** The shards [A,B,C] and [C,A,B]: the same fields. *)
Lemma unified_schema_same_fields_witness :
  same_fields (_collect_unified_schema Scenarios.schema_at ["A"; "B"; "C"])
              (_collect_unified_schema Scenarios.schema_at ["C"; "A"; "B"]).
Proof.
  apply (unified_schema_same_fields Scenarios.schema_at).
  symmetry. apply (Permutation_cons_append ["A"; "B"] "C").
Defined.

End SchemaFacts.

(** ** The merge *)

Module MergeFacts.

Import Schema Merge.

Section Merging.

Variable E : env.


(** *** A shard aligns only when it has the columns of the schema *)













End Merging.






End MergeFacts.

(** * Further properties *)

(** ** More on the retrying fetcher *)

Module FetchMore.

Import Fetch.

Section RequestGet.

Context {json : Type}.
Variable net : nat -> attempt_outcome json.

Lemma transient_step remaining attempt last_exc sleeps :
  transient (net attempt) ->
  exists last_exc',
    attempts net (S remaining) attempt last_exc sleeps
    = attempts net remaining (S attempt) last_exc' (sleeps ++ [attempt])%list.
Proof.
  intros H. cbn [attempts]. unfold transient in H.
  destruct (net attempt) as [status body|what]; [|eauto].
  rewrite H. destruct (status =? 200) eqn:E; [|eauto].
  apply Z.eqb_eq in E. subst status. vm_compute in H. discriminate.
Qed.

Lemma attempts_until_200 k remaining attempt last_exc sleeps body :
  (forall j, (attempt <= j < attempt + k)%nat -> transient (net j)) ->
  net (attempt + k)%nat = Response 200 body ->
  (k < remaining)%nat ->
  attempts net remaining attempt last_exc sleeps
  = (Returned body, (sleeps ++ seq attempt k)%list).
Proof.
  revert remaining attempt last_exc sleeps.
  induction k as [|k IH]; intros remaining attempt last_exc sleeps Htr H200 Hlt.
  - destruct remaining as [|remaining]; [lia|].
    rewrite Nat.add_0_r in H200. cbn [attempts]. rewrite H200. simpl.
    by rewrite app_nil_r.
  - destruct remaining as [|remaining]; [lia|].
    destruct (transient_step remaining attempt last_exc sleeps) as [e ->].
    { apply Htr. lia. }
    rewrite (IH remaining (S attempt) e (sleeps ++ [attempt])%list).
    + by rewrite <- app_assoc.
    + intros j Hj. apply Htr. lia.
    + by replace (S attempt + k)%nat with (attempt + S k)%nat by lia.
    + lia.
Qed.

(** X1. Attempts that fail with a transient condition (a retried status
    or a network error) followed, before the ceiling, by an answer 200:
    the call returns the body of that answer after one sleep for each
    failed attempt, with the exponents 0, 1, ..., k-1. *)
Theorem request_get_returns_after_retries (retries : Z) (k : nat)
    (body : json) :
  (k < Z.to_nat retries)%nat ->
  (forall j, (j < k)%nat -> transient (net j)) ->
  net k = Response 200 body ->
  _request_get net retries = (Returned body, seq 0 k).
Proof.
  intros Hk Htr H200. unfold _request_get.
  rewrite (attempts_until_200 k (Z.to_nat retries) 0 None [] body); try done.
  intros j Hj. apply Htr. lia.
Qed.

Lemma attempts_http_errors code remaining attempt last_exc sleeps :
  code ≠ 200 -> retry_status code = false ->
  400 <= code < 600 ->
  (forall j, exists body, net j = Response code body) ->
  attempts net (S remaining) attempt last_exc sleeps
  = (Raised (HTTPError code), (sleeps ++ seq attempt (S remaining))%list).
Proof.
  intros Hne Hretry Hrange Hnet.
  assert (raise_for_status code = Some (HTTPError code)) as Hraise.
  { unfold raise_for_status.
    destruct (400 <=? code) eqn:E1; [|apply Z.leb_gt in E1; lia].
    destruct (code <? 600) eqn:E2; [done|apply Z.ltb_ge in E2; lia]. }
  apply Z.eqb_neq in Hne.
  revert attempt last_exc sleeps.
  induction remaining as [|remaining IH]; intros attempt last_exc sleeps.
  - cbn [attempts]. destruct (Hnet attempt) as [body ->].
    by rewrite Hne, Hretry, Hraise.
  - cbn [attempts] in *. destruct (Hnet attempt) as [body ->].
    rewrite Hne, Hretry, Hraise.
    specialize (IH (S attempt) (Some (HTTPError code))
                   (sleeps ++ [attempt])%list).
    destruct (Hnet (S attempt)) as [body' Hb]. rewrite Hb in *.
    rewrite Hne, Hretry, Hraise in *. rewrite IH.
    by rewrite <- app_assoc.
Qed.

(** X2. An HTTP error status outside the retried list (a 404, say) is
    retried like a transient failure: when every attempt gets it, the
    call sleeps after each of them and then raises the [HTTPError] of
    that status. *)
Theorem request_get_retries_http_errors (retries code : Z) :
  0 < retries ->
  code ≠ 200 -> retry_status code = false ->
  400 <= code < 600 ->
  (forall j, exists body, net j = Response code body) ->
  _request_get net retries
  = (Raised (HTTPError code), seq 0 (Z.to_nat retries)).
Proof.
  intros Hpos Hne Hretry Hrange Hnet. unfold _request_get.
  destruct (Z.to_nat retries) as [|n] eqn:E; [lia|].
  by rewrite (attempts_http_errors code n 0 None []).
Qed.

Lemma attempts_all_network_errors remaining attempt last_exc sleeps :
  (forall j, exists what, net j = NetworkError what) ->
  exists what,
    attempts net (S remaining) attempt last_exc sleeps
    = (Raised (RequestException what),
       (sleeps ++ seq attempt (S remaining))%list)
    ∧ net (attempt + remaining)%nat = NetworkError what.
Proof.
  intros Hnet. revert attempt last_exc sleeps.
  induction remaining as [|remaining IH]; intros attempt last_exc sleeps.
  - destruct (Hnet attempt) as [what Hw]. exists what.
    cbn [attempts]. rewrite Hw. by rewrite Nat.add_0_r.
  - destruct (Hnet attempt) as [what Hw].
    destruct (IH (S attempt) (Some (RequestException what))
                 (sleeps ++ [attempt])%list) as (what' & He & Hlast).
    exists what'. split.
    + change (attempts net (S (S remaining)) attempt last_exc sleeps)
        with (match net attempt with
              | Response status body =>
                  if status =? 200 then (Returned body, sleeps)
                  else if retry_status status then
                    attempts net (S remaining) (S attempt) last_exc
                             (sleeps ++ [attempt])
                  else
                    match raise_for_status status with
                    | Some e =>
                        attempts net (S remaining) (S attempt) (Some e)
                                 (sleeps ++ [attempt])
                    | None =>
                        attempts net (S remaining) (S attempt) last_exc sleeps
                    end
              | NetworkError what =>
                  attempts net (S remaining) (S attempt)
                           (Some (RequestException what)) (sleeps ++ [attempt])
              end).
      rewrite Hw, He. by rewrite <- app_assoc.
    + by replace (attempt + S remaining)%nat with (S attempt + remaining)%nat
        by lia.
Qed.

(** X3. When every attempt fails with a network error, the call sleeps
    after each attempt, the last included, and then raises the error of
    the last attempt. *)
Theorem request_get_raises_last_network_error (retries : Z) :
  0 < retries ->
  (forall j, exists what, net j = NetworkError what) ->
  exists what,
    _request_get net retries
    = (Raised (RequestException what), seq 0 (Z.to_nat retries))
    ∧ net (Z.to_nat retries - 1)%nat = NetworkError what.
Proof.
  intros Hpos Hnet. unfold _request_get.
  destruct (Z.to_nat retries) as [|n] eqn:E; [lia|].
  destruct (attempts_all_network_errors n 0 None [] Hnet) as (what & H1 & H2).
  exists what. split; [exact H1|].
  by replace (S n - 1)%nat with (0 + n)%nat by lia.
Qed.

Lemma attempts_sleeps remaining attempt last_exc sleeps :
  exists more,
    snd (attempts net remaining attempt last_exc sleeps)
    = (sleeps ++ more)%list
    ∧ sublist more (seq attempt remaining).
Proof.
  revert attempt last_exc sleeps.
  induction remaining as [|remaining IH]; intros attempt last_exc sleeps.
  - exists []. simpl. rewrite app_nil_r. split; [by destruct last_exc|].
    constructor.
  - cbn [attempts seq].
    assert (forall e, exists more,
               snd (attempts net remaining (S attempt) e
                             (sleeps ++ [attempt])%list)
               = (sleeps ++ more)%list
               ∧ sublist more (attempt :: seq (S attempt) remaining)) as Hslept.
    { intros e.
      destruct (IH (S attempt) e (sleeps ++ [attempt])%list) as (m & -> & Hm).
      exists (attempt :: m). split; [by rewrite <- app_assoc|].
      by constructor. }
    assert (forall e, exists more,
               snd (attempts net remaining (S attempt) e sleeps)
               = (sleeps ++ more)%list
               ∧ sublist more (attempt :: seq (S attempt) remaining)) as Hquiet.
    { intros e. destruct (IH (S attempt) e sleeps) as (m & -> & Hm).
      exists m. split; [done|]. by constructor. }
    destruct (net attempt) as [status body|what]; [|apply Hslept].
    destruct (status =? 200).
    { exists []. simpl. rewrite app_nil_r. split; [done|].
      apply sublist_nil_l. }
    destruct (retry_status status); [apply Hslept|].
    destruct (raise_for_status status); [apply Hslept | apply Hquiet].
Qed.

(** X4. Whatever the attempts do, the call sleeps at most once for each
    attempt that the ceiling allows, and the exponents of the delays are
    increasing numbers below the ceiling: no delay is taken twice, none
    is longer than [base_sleep * 2 ** (retries - 1)]. *)
Theorem request_get_sleeps_bounded (retries : Z) :
  sublist (snd (_request_get net retries)) (seq 0 (Z.to_nat retries)).
Proof.
  unfold _request_get.
  destruct (attempts_sleeps (Z.to_nat retries) 0 None []) as (more & -> & H).
  exact H.
Qed.

End RequestGet.

(** Three answers 503, then 200: the body comes back after the sleeps
    with exponents 0, 1, 2. *)
Lemma request_get_returns_after_retries_witness :
  _request_get Cases.three_503_then_200 6 = (Returned 7%nat, [0; 1; 2]%nat).
Proof.
  apply (request_get_returns_after_retries Cases.three_503_then_200 6 3 7%nat).
  - vm_compute. lia.
  - intros j Hj. unfold Cases.three_503_then_200.
    destruct (j <? 3)%nat eqn:E; [reflexivity|].
    apply Nat.ltb_ge in E. lia.
  - reflexivity.
Defined.

(** Six answers 404: six sleeps, then the [HTTPError]. *)
Lemma request_get_retries_http_errors_witness :
  _request_get Cases.always_404 6
  = (Raised (HTTPError 404), [0; 1; 2; 3; 4; 5]%nat).
Proof.
  apply (request_get_retries_http_errors Cases.always_404 6 404).
  - lia.
  - discriminate.
  - reflexivity.
  - lia.
  - intros j. by exists tt.
Defined.

(** Six network errors: the error of the sixth attempt is raised. *)
Lemma request_get_raises_last_network_error_witness :
  exists what,
    _request_get Cases.always_down 6
    = (Raised (RequestException what), [0; 1; 2; 3; 4; 5]%nat)
    ∧ Cases.always_down 5 = NetworkError what.
Proof.
  apply (request_get_raises_last_network_error Cases.always_down 6).
  - lia.
  - intros j. unfold Cases.always_down. eauto.
Defined.

End FetchMore.

(** ** More on the signature and the request parameters *)

Module SigMore.

Import Sig Params PyFacts.

Lemma dict_get_set k k' v d :
  dict_get k (dict_set k' v d)
  = if String.eqb k k' then Some v else dict_get k d.
Proof.
  destruct (String.eqb k k') eqn:E.
  - apply eqb_string_true in E as ->. apply dict_get_set_eq.
  - apply eqb_string_false in E. by apply dict_get_set_ne.
Qed.

Lemma keys_dict_set k v d :
  keys (dict_set k v d) = if bool_decide (k ∈ keys d) then keys d
                          else (keys d ++ [k])%list.
Proof.
  induction d as [|[k' v'] d IH]; simpl; [done|].
  destruct (String.eqb k k') eqn:E.
  - apply eqb_string_true in E as ->. simpl.
    rewrite bool_decide_eq_true_2; [done | left].
  - apply eqb_string_false in E. simpl. rewrite IH.
    destruct (bool_decide (k ∈ keys d)) eqn:Ein.
    + apply bool_decide_eq_true in Ein.
      rewrite bool_decide_eq_true_2; [done | by right].
    + apply bool_decide_eq_false in Ein.
      rewrite bool_decide_eq_false_2; [done|].
      intros [?|?]%elem_of_cons; done.
Qed.

Lemma dict_set_nodup k v d : NoDup (keys d) -> NoDup (keys (dict_set k v d)).
Proof.
  intros Hnd. rewrite keys_dict_set. case_bool_decide as Hin; [done|].
  apply NoDup_app. repeat split; try done.
  - intros x Hx ->%list_elem_of_singleton. done.
  - apply NoDup_singleton.
Qed.

Lemma set_if_truthy_nodup k o d :
  NoDup (keys d) -> NoDup (keys (set_if_truthy k o d)).
Proof.
  intros Hnd. unfold set_if_truthy. destruct o as [s|]; [|done].
  destruct (String.eqb s ""); [done|]. by apply dict_set_nodup.
Qed.

Lemma set_flag_nodup k b d : NoDup (keys d) -> NoDup (keys (set_flag k b d)).
Proof.
  intros Hnd. unfold set_flag. destruct b; [|done]. by apply dict_set_nodup.
Qed.

Lemma get_set_if_truthy k k' o d :
  dict_get k (set_if_truthy k' o d)
  = if String.eqb k k' && truthy_str o
    then VStr <$> o else dict_get k d.
Proof.
  unfold set_if_truthy, truthy_str. destruct o as [s|]; simpl.
  - destruct (String.eqb s ""); simpl.
    + by rewrite andb_false_r.
    + rewrite dict_get_set, andb_true_r. done.
  - by rewrite andb_false_r.
Qed.

Lemma get_set_flag k k' b d :
  dict_get k (set_flag k' b d)
  = if String.eqb k k' && b then Some (VStr "true") else dict_get k d.
Proof.
  unfold set_flag. destruct b; simpl.
  - by rewrite dict_get_set, andb_true_r.
  - by rewrite andb_false_r.
Qed.

Lemma keep_nodup : NoDup keep.
Proof. apply (bool_decide_unpack _). vm_compute. exact I. Qed.

(** What remains of a value in the signature. *)
Lemma sig_dict_lookup_in (d : pydict) (ks : list string) k :
  NoDup ks ->
  dict_get k
    (omap (fun k => match dict_get k d with
                    | Some VNone | None => None
                    | Some v => Some (k, v)
                    end) ks)
  = if bool_decide (k ∈ ks) then
      match dict_get k d with
      | Some VNone | None => None
      | Some v => Some v
      end
    else None.
Proof.
  induction ks as [|k0 ks IH]; intros Hnd.
  - done.
  - apply NoDup_cons in Hnd as [Hk0 Hnd]. specialize (IH Hnd). cbn.
    destruct (decide (k = k0)) as [->|Hne].
    + rewrite bool_decide_eq_true_2 by left.
      assert (bool_decide (k0 ∈ ks) = false) as Hout
        by (by apply bool_decide_eq_false_2).
      rewrite Hout in IH. cbn in IH.
      destruct (dict_get k0 d) as [[|s|z]|]; cbn; rewrite ?String.eqb_refl;
        done.
    + assert (bool_decide (k ∈ k0 :: ks) = bool_decide (k ∈ ks)) as ->.
      { apply bool_decide_ext. rewrite elem_of_cons. tauto. }
      apply eqb_string_false in Hne. cbn in IH.
      destruct (dict_get k0 d) as [[|s|z]|]; cbn; rewrite ?Hne; done.
Qed.

Lemma sig_dict_keys_in (d : pydict) (ks : list string) :
  NoDup ks ->
  NoDup (keys (omap (fun k => match dict_get k d with
                              | Some VNone | None => None
                              | Some v => Some (k, v)
                              end) ks))
  ∧ forall k, k ∈ keys (omap (fun k => match dict_get k d with
                                       | Some VNone | None => None
                                       | Some v => Some (k, v)
                                       end) ks) -> k ∈ ks.
Proof.
  induction ks as [|k0 ks IH]; intros Hnd.
  - split; [constructor | by intros k ?%elem_of_nil].
  - apply NoDup_cons in Hnd as [Hk0 Hnd]. destruct (IH Hnd) as [IH1 IH2]. cbn.
    cbn in IH1, IH2.
    destruct (dict_get k0 d) as [[|s|z]|]; cbn.
    + split; [done|]. intros k Hk. right. by apply IH2.
    + split.
      * apply NoDup_cons. split; [|done]. intros Hin. by apply Hk0, IH2.
      * intros k [->|Hk]%elem_of_cons; [left | right; by apply IH2].
    + split.
      * apply NoDup_cons. split; [|done]. intros Hin. by apply Hk0, IH2.
      * intros k [->|Hk]%elem_of_cons; [left | right; by apply IH2].
    + split; [done|]. intros k Hk. right. by apply IH2.
Qed.

Lemma sig_dict_lookup (d : pydict) (k : string) :
  dict_get k (_sig_dict d)
  = if bool_decide (k ∈ keep) then
      match dict_get k d with
      | Some VNone | None => None
      | Some v => Some v
      end
    else None.
Proof. apply (sig_dict_lookup_in d keep k keep_nodup). Qed.

(** X5. The signature is a dictionary with distinct keys that holds,
    for each of the nine filter keys, the value the parameters give it
    when that value is not [None], and nothing else: no other key of the
    parameters, no key whose value is [None]. *)
Theorem sig_dict_projection (d : pydict) :
  NoDup (keys (_sig_dict d))
  ∧ forall k,
      dict_get k (_sig_dict d)
      = if bool_decide (k ∈ keep) then
          match dict_get k d with
          | Some VNone | None => None
          | Some v => Some v
          end
        else None.
Proof.
  split.
  - apply (sig_dict_keys_in d keep keep_nodup).
  - intros k. apply sig_dict_lookup.
Qed.

Section BuildParams.

Variable today : string.

Lemma build_params_returns rtid df ds de cid rows cursor aff fac q p :
  _build_params today rtid df ds de cid rows cursor aff fac q = Return p ->
  p = set_if_truthy "query" q
        (set_flag "disable-facets" fac
           (set_flag "affiliation" aff
              (set_if_truthy "client-id" cid
                 (set_if_truthy ("until-" ++ df ++ "-date")
                    (_as_str_or_none
                       match de with
                       | DVal None => DVal (Some today)
                       | _ => de
                       end)
                    (set_if_truthy ("from-" ++ df ++ "-date")
                       (_as_str_or_none ds)
                       (set_if_truthy "resource-type-id" rtid
                          [ ("page[size]", VInt rows);
                            ("page[cursor]", VStr (str_or cursor "1")) ])))))).
Proof.
  unfold _build_params.
  destruct (negb ((1 <=? rows) && (rows <=? 1000))); [done|].
  by intros [= <-].
Qed.

(** X6. The dictionary that [_build_params] returns has distinct keys,
    whatever the arguments: an assignment to a key that is already there
    replaces its value. *)
Theorem build_params_distinct_keys rtid df ds de cid rows cursor aff fac q p :
  _build_params today rtid df ds de cid rows cursor aff fac q = Return p ->
  NoDup (keys p).
Proof.
  intros ->%build_params_returns.
  repeat first [ apply set_if_truthy_nodup | apply set_flag_nodup ].
  apply (bool_decide_unpack _). vm_compute. exact I.
Qed.

(** X7. The signature of the parameters of a pass does not depend on
    the page size, on the start cursor, or on the [affiliation] and
    [disable-facets] switches: passes that differ only in these share
    their checkpoint signature. *)
Theorem signature_ignores_paging_and_switches
    rtid df ds de cid q rows rows' cursor cursor' aff aff' fac fac' p p' :
  _build_params today rtid df ds de cid rows cursor aff fac q = Return p ->
  _build_params today rtid df ds de cid rows' cursor' aff' fac' q
  = Return p' ->
  _sig_dict p = _sig_dict p'.
Proof.
  intros ->%build_params_returns ->%build_params_returns.
  apply SigFacts.sig_dict_ext. intros k Hk.
  rewrite !get_set_if_truthy, !get_set_flag, !get_set_if_truthy.
  unfold keep in Hk.
  repeat (apply elem_of_cons in Hk as [->|Hk]); try (by apply elem_of_nil in Hk);
    cbn; reflexivity.
Qed.

End BuildParams.

(** The default call of the harvester: distinct keys. *)
Lemma build_params_distinct_keys_witness :
  exists p,
    _build_params "2024-05-05" (Some "Preprint") "registered"
      (DVal (Some "2000-01-01")) (DVal None) None 1000 None false true None
    = Return p
    ∧ NoDup (keys p).
Proof.
  eexists. split; [reflexivity|].
  apply (build_params_distinct_keys "2024-05-05" (Some "Preprint")
           "registered" (DVal (Some "2000-01-01")) (DVal None) None 1000 None
           false true None).
  reflexivity.
Defined.

(** Pages of 1000 from the start and pages of 50 from a later cursor,
    with the affiliations: one signature. *)
Lemma signature_ignores_paging_and_switches_witness :
  exists p p',
    _build_params "2024-05-05" (Some "Preprint") "registered"
      (DVal (Some "2000-01-01")) (DVal None) None 1000 None false true None
    = Return p
    ∧ _build_params "2024-05-05" (Some "Preprint") "registered"
        (DVal (Some "2000-01-01")) (DVal None) None 50 (Some "c9") true false
        None
      = Return p'
    ∧ _sig_dict p = _sig_dict p'.
Proof.
  eexists _, _. split; [reflexivity|]. split; [reflexivity|].
  apply (signature_ignores_paging_and_switches "2024-05-05" (Some "Preprint")
           "registered" (DVal (Some "2000-01-01")) (DVal None) None None
           1000 50 None (Some "c9") false true true false);
    reflexivity.
Defined.

End SigMore.

(** ** More on the checkpoint files *)

Module CheckpointMore.

Import Stream PyFacts.

Lemma sanitize_length s : String.length (sanitize s) = String.length s.
Proof. induction s as [|c s IH]; simpl; [done | by rewrite IH]. Qed.

Lemma sanitize_no_separator c s :
  c ∈ ["."; "/"; ":"]%char -> RowMap.has_char c (sanitize s) = false.
Proof.
  intros Hc. induction s as [|a s IH]; simpl; [done|]. rewrite IH, orb_false_r.
  apply bool_decide_eq_false. case_bool_decide as Ha.
  - intros <-. revert Hc. apply (bool_decide_unpack _). vm_compute. exact I.
  - intros ->. done.
Qed.

Lemma sanitize_idempotent s : sanitize (sanitize s) = sanitize s.
Proof.
  induction s as [|a s IH]; simpl; [done|]. rewrite IH. f_equal.
  destruct (bool_decide (a ∈ ["."; "/"; ":"]%char)) eqn:E; [reflexivity|].
  by rewrite E.
Qed.

Section Pass.

Context {item : Type}.
Variable encode_basestring : string -> string.
Variable int_repr : Z -> string.
Variable sha1_hexdigest : string -> string.
Variable _parse_next_cursor : string -> option string.
Variable request_get : pydict -> option (response item).
Variable disk : nat -> write_outcome.

(** X10. Save, then resume: once a checkpoint with the signature of the
    parameters and a cursor that is not empty is written under the path
    of the pass, the next pass with these parameters asks for its first
    page at that cursor, whatever cursor the parameters hold. *)
Theorem resume_after_save (fuel : nat) (base_params : pydict)
    (checkpoint_dir : string) (client_id : option string) (fs : ckpt_store)
    (nc : string) :
  nc ≠ "" ->
  exists rest,
    stream_datacite_with_resume encode_basestring int_repr sha1_hexdigest
      _parse_next_cursor request_get disk fuel base_params checkpoint_dir
      client_id
      (_save_checkpoint Written
         (path_of encode_basestring int_repr sha1_hexdigest base_params
            checkpoint_dir client_id)
         (Checkpoint (Sig._sig_dict base_params) (Some nc)) fs)
    = EvRequest (dict_set "page[cursor]" (VStr nc) base_params) :: rest.
Proof.
  intros Hnc. unfold stream_datacite_with_resume.
  fold (path_of encode_basestring int_repr sha1_hexdigest base_params
          checkpoint_dir client_id).
  unfold _save_checkpoint, _load_checkpoint. rewrite lookup_insert_eq.
  rewrite StreamFacts.entry_same_signature.
  apply eqb_string_false in Hnc. rewrite Hnc. simpl. eauto.
Qed.

End Pass.

(** A checkpoint at "c2" is written; the next pass over the catalogue of
    three pages starts at "c2". *)
Lemma resume_after_save_witness :
  exists rest,
    stream_datacite_with_resume Scenarios.plain Scenarios.no_int
      Scenarios.plain Scenarios.after_eq Scenarios.three_pages
      Scenarios.all_written 10 Scenarios.preprints "ckpt" None
      (_save_checkpoint Written
         (path_of Scenarios.plain Scenarios.no_int Scenarios.plain
            Scenarios.preprints "ckpt" None)
         (Checkpoint (Sig._sig_dict Scenarios.preprints) (Some "c2")) ∅)
    = EvRequest (dict_set "page[cursor]" (VStr "c2") Scenarios.preprints)
      :: rest.
Proof.
  apply (resume_after_save Scenarios.plain Scenarios.no_int Scenarios.plain
           Scenarios.after_eq Scenarios.three_pages Scenarios.all_written 10
           Scenarios.preprints "ckpt" None ∅ "c2").
  discriminate.
Defined.

End CheckpointMore.

(** ** The passes of a harvest *)

Module HarvestMore.

Import Harvest Params Sig PyFacts SigMore.

Lemma append_length (s t : string) :
  String.length (s ++ t) = (String.length s + String.length t)%nat.
Proof. induction s as [|a s IH]; simpl; [done | by rewrite IH]. Qed.

Lemma append_inj_r (s1 s2 t : string) : s1 ++ t = s2 ++ t -> s1 = s2.
Proof.
  revert s2. induction s1 as [|a s1 IH]; intros [|b s2] H.
  - done.
  - apply (f_equal String.length) in H.
    rewrite !append_length in H. simpl in H. lia.
  - apply (f_equal String.length) in H.
    rewrite !append_length in H. simpl in H. lia.
  - change (String a (s1 ++ t) = String b (s2 ++ t)) in H.
    injection H as -> H. by rewrite (IH s2 H).
Qed.

(** The keys of the date bounds of a date field that the signature does
    not know are not among the filter keys. *)
Lemma date_keys_not_kept (df k : string) :
  df ∉ ["registered"; "created"; "updated"] ->
  k ∈ keep ->
  String.eqb k ("from-" ++ df ++ "-date") = false
  ∧ String.eqb k ("until-" ++ df ++ "-date") = false.
Proof.
  intros Hdf Hk.
  assert (forall a, a ∈ ["registered"; "created"; "updated"] ->
                    a ++ "-date" ≠ df ++ "-date") as Hne.
  { intros a Ha Heq. apply append_inj_r in Heq. by subst a. }
  assert ("registered" ∈ ["registered"; "created"; "updated"]) as Hreg
    by (apply (bool_decide_unpack _); vm_compute; exact I).
  assert ("created" ∈ ["registered"; "created"; "updated"]) as Hcre
    by (apply (bool_decide_unpack _); vm_compute; exact I).
  assert ("updated" ∈ ["registered"; "created"; "updated"]) as Hupd
    by (apply (bool_decide_unpack _); vm_compute; exact I).
  unfold keep in Hk.
  repeat (apply elem_of_cons in Hk as [->|Hk]);
    try (by apply elem_of_nil in Hk);
    split; apply eqb_string_false; intros Heq; cbn in Heq;
    try discriminate; injection Heq as Heq;
    first [ exact (Hne "registered" Hreg Heq)
          | exact (Hne "created" Hcre Heq)
          | exact (Hne "updated" Hupd Heq) ].
Qed.

Section PassParams.

Variable today : string.

(** X11. The signature knows the date bounds of the fields [registered],
    [created] and [updated] only: with any other [date_field] the date
    range does not reach the signature, and two passes that differ only
    in their date range share their signature. *)
Theorem signature_ignores_dates_of_other_fields
    rtid df cid q rows cursor aff fac ds de ds' de' p p' :
  df ∉ ["registered"; "created"; "updated"] ->
  _build_params today rtid df ds de cid rows cursor aff fac q = Return p ->
  _build_params today rtid df ds' de' cid rows cursor aff fac q = Return p' ->
  _sig_dict p = _sig_dict p'.
Proof.
  intros Hdf ->%build_params_returns ->%build_params_returns.
  apply SigFacts.sig_dict_ext. intros k Hk.
  destruct (date_keys_not_kept df k Hdf Hk) as [Hfrom Huntil].
  rewrite !get_set_if_truthy, !get_set_flag, !get_set_if_truthy.
  by rewrite Hfrom, Huntil.
Qed.

Variable date_field : string.
Variable date_start date_end : date_arg.
Variable rows_per_call : Z.
Variable start_cursor : option string.
Variable include_affiliation : bool.

Lemma label_query_not_empty label : String.eqb (label_query label) "" = false.
Proof. reflexivity. Qed.

Lemma query_of_pass cid sel p :
  pass_params today date_field date_start date_end rows_per_call start_cursor
    include_affiliation cid sel = Return p ->
  dict_get "query" p
  = if truthy_str (query sel) then VStr <$> query sel else None.
Proof.
  unfold pass_params. intros ->%build_params_returns.
  rewrite !get_set_if_truthy, !get_set_flag, !get_set_if_truthy. cbn.
  by destruct (truthy_str (query sel)).
Qed.

(** X12. In the mode [both] a client gets two passes, one with the
    canonical type and one with the label query, and their signatures
    differ: the label pass has a [query] and the canonical pass has
    none. Neither pass resumes from the checkpoint of the other, even if
    the two were stored under one path. *)
Theorem both_modes_checkpoint_apart (resource_type_id : string)
    (type_label_value : option string) (cid : option string) :
  exists canonical label,
    build_passes "both" resource_type_id type_label_value
    = Passes [canonical; label]
    ∧ forall pc pl,
        pass_params today date_field date_start date_end rows_per_call
          start_cursor include_affiliation cid canonical = Return pc ->
        pass_params today date_field date_start date_end rows_per_call
          start_cursor include_affiliation cid label = Return pl ->
        _sig_dict pc ≠ _sig_dict pl
        ∧ forall c,
            Stream.entry (_sig_dict pl)
              (Some (Stream.Checkpoint (_sig_dict pc) c)) = Stream.Fresh
            ∧ Stream.entry (_sig_dict pc)
                (Some (Stream.Checkpoint (_sig_dict pl) c)) = Stream.Fresh.
Proof.
  eexists _, _. split; [reflexivity|]. intros pc pl Hc Hl.
  apply query_of_pass in Hc, Hl. cbn in Hc, Hl.
  assert (dict_get "query" (_sig_dict pc) ≠ dict_get "query" (_sig_dict pl))
    as Hdiff.
  { rewrite !sig_dict_lookup.
    rewrite bool_decide_eq_true_2
      by (apply (bool_decide_unpack _); vm_compute; exact I).
    by rewrite Hc, Hl. }
  split; [intros Heq; by rewrite Heq in Hdiff|].
  intros c. unfold Stream.entry. simpl.
  assert (dict_eqb (_sig_dict pc) (_sig_dict pl) = false) as E1.
  { apply not_true_is_false. intros H. apply Hdiff.
    by apply dict_eqb_spec. }
  assert (dict_eqb (_sig_dict pl) (_sig_dict pc) = false) as E2.
  { apply not_true_is_false. intros H. apply Hdiff. symmetry.
    by apply dict_eqb_spec. }
  by rewrite E1, E2.
Qed.

End PassParams.

(** With the date field [published], the ranges 2000..2010 and
    2015..2020 give one signature. *)
Lemma signature_ignores_dates_of_other_fields_witness :
  exists p p',
    _build_params "2024-05-05" (Some "Preprint") "published"
      (DVal (Some "2000-01-01")) (DVal (Some "2010-01-01")) None 1000 None
      false true None = Return p
    ∧ _build_params "2024-05-05" (Some "Preprint") "published"
        (DVal (Some "2015-01-01")) (DVal (Some "2020-01-01")) None 1000 None
        false true None = Return p'
    ∧ _sig_dict p = _sig_dict p'.
Proof.
  eexists _, _. split; [reflexivity|]. split; [reflexivity|].
  apply (signature_ignores_dates_of_other_fields "2024-05-05"
           (Some "Preprint") "published" None None 1000 None false true
           (DVal (Some "2000-01-01")) (DVal (Some "2010-01-01"))
           (DVal (Some "2015-01-01")) (DVal (Some "2020-01-01")));
    [|reflexivity|reflexivity].
  intros Hin. apply (bool_decide_pack _) in Hin. vm_compute in Hin. exact Hin.
Defined.

End HarvestMore.

(** ** More on the stream and on the buffering loop *)

Module StreamMore.

Import Stream PyFacts.

Section Harvest.

Context {item row : Type}.
Variable encode_basestring : string -> string.
Variable int_repr : Z -> string.
Variable sha1_hexdigest : string -> string.
Variable _parse_next_cursor : string -> option string.
Variable request_get : pydict -> option (response item).
Variable disk : nat -> write_outcome.
Variable _one_row_wide : item -> option row.
Variable incremental_every : Z.
Variable incremental_save_dir : bool.

Local Abbreviation consumeH :=
  (consume _one_row_wide incremental_every incremental_save_dir).
Local Abbreviation runH :=
  (run _one_row_wide incremental_every incremental_save_dir).
Local Abbreviation streamH :=
  (stream_datacite_with_resume encode_basestring int_repr sha1_hexdigest
     _parse_next_cursor request_get disk).
Local Abbreviation next_pagesH :=
  (next_pages _parse_next_cursor request_get disk).
Local Abbreviation pathH :=
  (path_of encode_basestring int_repr sha1_hexdigest).
Local Abbreviation rowsH := (fetched _one_row_wide).

(** *** Where [EvDone] can be *)

Lemma next_pages_done_last fuel path sig params k cursor :
  exists pre,
    Forall (fun e => forall c, e ≠ EvDone c) pre
    ∧ (next_pagesH fuel path sig params k cursor = pre
       ∨ exists c, next_pagesH fuel path sig params k cursor
                   = (pre ++ [EvDone c])%list).
Proof.
  revert params k cursor.
  induction fuel as [|fuel IH]; intros params k cursor.
  - exists []. split; [constructor | by left].
  - cbn [next_pages].
    assert (exists pre : list (event item),
               Forall (fun e => forall c, e ≠ EvDone c) pre
               ∧ ([EvDone cursor] = pre
                  ∨ exists c, [EvDone cursor] = (pre ++ [EvDone c])%list))
      as Hdone.
    { exists []. split; [constructor|]. right. by exists cursor. }
    destruct cursor as [nc|]; [|exact Hdone].
    destruct (String.eqb nc ""); [exact Hdone|].
    set (params' := dict_set "page[cursor]" (VStr nc) params).
    destruct (request_get params') as [js|].
    + destruct (data js) as [|it items] eqn:Edata.
      * exists [EvRequest params']. split; [by repeat constructor|].
        right. by exists (Some nc).
      * destruct (IH params' (S k) (parsed_next _parse_next_cursor js))
          as (pre & Hpre & Hcase).
        exists (EvRequest params'
                :: (map EvYield (it :: items)
                    ++ EvSave path (Checkpoint sig
                                      (parsed_next _parse_next_cursor js))
                                   (disk k) :: pre))%list.
        split.
        -- constructor; [done|]. apply Forall_app. split.
           ++ apply Forall_forall. intros e (x & -> & _)%list_elem_of_fmap.
              done.
           ++ by constructor.
        -- destruct Hcase as [->|[c ->]]; [by left|].
           right. exists c. simpl. by rewrite <- app_assoc.
    + exists [EvRequest params'; EvRaise]. split; [by repeat constructor|].
      by left.
Qed.

Lemma stream_done_last fuel base_params checkpoint_dir client_id fs c :
  last (streamH fuel base_params checkpoint_dir client_id fs)
  = Some (EvDone c) ->
  exists pre,
    streamH fuel base_params checkpoint_dir client_id fs
    = (pre ++ [EvDone c])%list
    ∧ Forall (fun e => forall c, e ≠ EvDone c) pre.
Proof.
  unfold stream_datacite_with_resume.
  set (sig := Sig._sig_dict base_params).
  set (path := _checkpoint_path _ _ _).
  set (params := start_params base_params _).
  assert (forall (pre : list (event item)) c',
             Forall (fun e => forall c, e ≠ EvDone c) pre ->
             last pre = Some (EvDone c') -> False) as Hno.
  { intros pre c' Hall Hlast.
    assert (EvDone c' ∈ pre) as Hin.
    { destruct pre as [|e pre] using rev_ind; [done|].
      rewrite last_snoc in Hlast. injection Hlast as ->.
      apply elem_of_app. right. left. }
    rewrite Forall_forall in Hall. by apply (Hall _ Hin c'). }
  destruct (request_get params) as [js|];
    [|intros Hlast; simpl in Hlast; discriminate].
  destruct (next_pages_done_last fuel path sig params 1
              (parsed_next _parse_next_cursor js)) as (pre & Hpre & Hcase).
  set (save := EvSave path (Checkpoint sig (parsed_next _parse_next_cursor js))
                      (disk 0)).
  assert (forall tail : list (event item),
             (EvRequest params :: map EvYield (data js) ++ save :: tail)%list
             = ((EvRequest params :: map EvYield (data js) ++ [save])
                ++ tail)%list) as Hsplit.
  { intros tail. simpl. by rewrite <- app_assoc. }
  rewrite Hsplit.
  set (head := (EvRequest params :: map EvYield (data js) ++ [save])%list).
  assert (Forall (fun e : event item => forall c, e ≠ EvDone c) head)
    as Hhead.
  { subst head. constructor; [done|]. apply Forall_app. split.
    - apply Forall_forall. intros e (x & -> & _)%list_elem_of_fmap. done.
    - by repeat constructor. }
  destruct Hcase as [->|[c' ->]]; intros Hlast.
  - exfalso. apply (Hno (head ++ pre)%list c); [by apply Forall_app | done].
  - rewrite app_assoc in Hlast |- *. rewrite last_snoc in Hlast.
    injection Hlast as ->. exists (head ++ pre)%list.
    split; [done | by apply Forall_app].
Qed.

(** *** The chunks of a pass that ends *)

Lemma run_fills_chunks (s0 : hstate row) (evs : list (event item)) :
  incremental_save_dir = true ->
  1 <= incremental_every ->
  buffer_rows s0 = [] ->
  Forall (fun e => forall c, e ≠ EvDone c) evs ->
  exists full,
    chunks (runH s0 evs) = (chunks s0 ++ full)%list
    ∧ Forall (fun chunk => Z.of_nat (length chunk) = incremental_every) full
    ∧ (concat full ++ buffer_rows (runH s0 evs))%list = rowsH evs
    ∧ Z.of_nat (length (buffer_rows (runH s0 evs))) < incremental_every.
Proof.
  intros Hdir Hevery Hempty.
  induction evs as [|e evs IH] using rev_ind; intros Hall.
  - exists []. simpl. rewrite Hempty, app_nil_r. simpl.
    repeat split; [constructor | lia].
  - apply Forall_app in Hall as [Hall He]. rewrite Forall_singleton in He.
    destruct (IH Hall) as (full & Hchunks & Hfull & Hrows & Hlen).
    unfold run, fetched in *. rewrite fold_left_app, omap_app. simpl.
    set (s := fold_left consumeH evs s0) in *.
    destruct e as [p|it|path c o|c|]; simpl.
    + exists full. by rewrite app_nil_r.
    + unfold append_row.
      destruct (_one_row_wide it) as [r|]; simpl.
      * destruct (incremental_every <=? Z.of_nat (length (buffer_rows s ++ [r])))
          eqn:E; simpl.
        -- apply Z.leb_le in E. rewrite length_app in E. simpl in E.
           unfold write_chunk. rewrite Hdir. simpl.
           exists (full ++ [buffer_rows s ++ [r]])%list.
           rewrite Hchunks, <- app_assoc. split; [done|]. split.
           ++ apply Forall_app. split; [done|]. apply Forall_singleton.
              rewrite length_app. simpl. lia.
           ++ split; [|lia]. rewrite concat_app. simpl.
              rewrite !app_nil_r, <- Hrows. by rewrite app_assoc.
        -- apply Z.leb_gt in E. exists full. split; [done|]. split; [done|].
           split; [|done]. by rewrite <- Hrows, app_assoc.
      * rewrite app_nil_r.
        destruct (incremental_every <=? Z.of_nat (length (buffer_rows s)))
          eqn:E; [apply Z.leb_le in E; lia|].
        by exists full.
    + exists full. by rewrite app_nil_r.
    + by specialize (He c).
    + exists full. by rewrite app_nil_r.
Qed.

(** X13. A pass that runs to its end, with a directory for the chunks
    and a flush threshold of at least 1, leaves on disk every row it
    fetched, once and in the order fetched: the new chunk files hold
    exactly [incremental_every] rows each, except that a last, shorter
    chunk takes the rows that remain. *)
Theorem chunks_of_a_finished_pass (fuel : nat) (base_params : pydict)
    (checkpoint_dir : string) (client_id : option string)
    (s0 : hstate row) (c : option string) :
  incremental_save_dir = true ->
  1 <= incremental_every ->
  buffer_rows s0 = [] ->
  last (streamH fuel base_params checkpoint_dir client_id (ckpts s0))
  = Some (EvDone c) ->
  exists full rest,
    chunks (runH s0 (streamH fuel base_params checkpoint_dir client_id
                       (ckpts s0)))
    = (chunks s0 ++ full ++ rest)%list
    ∧ Forall (fun chunk => Z.of_nat (length chunk) = incremental_every) full
    ∧ (rest = []
       ∨ exists chunk, rest = [chunk]
                       ∧ 0 < Z.of_nat (length chunk) < incremental_every)
    ∧ concat (full ++ rest)
      = rowsH (streamH fuel base_params checkpoint_dir client_id (ckpts s0)).
Proof.
  intros Hdir Hevery Hempty Hlast.
  destruct (stream_done_last _ _ _ _ _ _ Hlast) as (pre & -> & Hpre).
  destruct (run_fills_chunks s0 pre Hdir Hevery Hempty Hpre)
    as (full & Hchunks & Hfull & Hrows & Hlen).
  unfold run, fetched in *. rewrite fold_left_app, omap_app. simpl.
  rewrite app_nil_r.
  set (s := fold_left consumeH pre s0) in *.
  destruct (buffer_rows s) as [|r rs] eqn:Ebuf.
  - exists full, []. rewrite app_nil_r in *. repeat split; try done.
    by left.
  - unfold write_chunk. rewrite Hdir. simpl. rewrite Ebuf.
    exists full, [r :: rs]. rewrite Hchunks, <- app_assoc.
    repeat split; try done.
    + right. exists (r :: rs). split; [done|]. simpl in *. lia.
    + rewrite concat_app. simpl. by rewrite app_nil_r.
Qed.

End Harvest.

(** The catalogue of three pages of two records with a threshold of 4:
    a chunk of four rows and a chunk of two. *)
Lemma chunks_of_a_finished_pass_witness :
  exists full rest,
    chunks (Scenarios.run_of Scenarios.three_pages 4
              (Scenarios.pass_of Scenarios.three_pages 10 ∅))
    = ([] ++ full ++ rest)%list
    ∧ Forall (fun chunk => Z.of_nat (length chunk) = 4) full
    ∧ (rest = []
       ∨ exists chunk, rest = [chunk] ∧ 0 < Z.of_nat (length chunk) < 4)
    ∧ concat (full ++ rest)
      = fetched Some (Scenarios.pass_of Scenarios.three_pages 10 ∅).
Proof.
  apply (chunks_of_a_finished_pass Scenarios.plain Scenarios.no_int
           Scenarios.plain Scenarios.after_eq Scenarios.three_pages
           Scenarios.all_written Some 4 true 10 Scenarios.preprints "ckpt"
           None Scenarios.nothing_yet None).
  - reflexivity.
  - lia.
  - reflexivity.
  - vm_compute. reflexivity.
Defined.

End StreamMore.

(** ** The order of the requests and the rerun after a crash *)

Module ResumeMore.

Import Stream PyFacts.

Lemma dict_set_set k v v' d : dict_set k v (dict_set k v' d) = dict_set k v d.
Proof.
  induction d as [|[k0 v0] d IH]; simpl.
  - by rewrite String.eqb_refl.
  - destruct (String.eqb k k0) eqn:E; simpl; rewrite E; [done|].
    by rewrite IH.
Qed.

Lemma dict_set_setdefault k v v' d :
  dict_set k v (dict_setdefault k v' d) = dict_set k v d.
Proof.
  unfold dict_setdefault. destruct (dict_get k d); [done|].
  apply dict_set_set.
Qed.

Lemma dict_set_start_params base m c :
  dict_set "page[cursor]" c (start_params base m)
  = dict_set "page[cursor]" c base.
Proof.
  destruct m; simpl; [apply dict_set_set | apply dict_set_setdefault].
Qed.

Section Pass.

Context {item row : Type}.
Variable encode_basestring : string -> string.
Variable int_repr : Z -> string.
Variable sha1_hexdigest : string -> string.
Variable _parse_next_cursor : string -> option string.
Variable request_get : pydict -> option (response item).
Variable disk : nat -> write_outcome.
Variable _one_row_wide : item -> option row.
Variable incremental_every : Z.
Variable incremental_save_dir : bool.

Local Abbreviation consumeH :=
  (consume _one_row_wide incremental_every incremental_save_dir).
Local Abbreviation runH :=
  (run _one_row_wide incremental_every incremental_save_dir).
Local Abbreviation streamH :=
  (stream_datacite_with_resume encode_basestring int_repr sha1_hexdigest
     _parse_next_cursor request_get disk).
Local Abbreviation next_pagesH :=
  (next_pages _parse_next_cursor request_get disk).
Local Abbreviation pathH :=
  (path_of encode_basestring int_repr sha1_hexdigest).
Local Abbreviation rowsH := (fetched _one_row_wide).

(** *** Every later request follows the checkpoint with its cursor *)

(** A request inside the block of a page (its items, its checkpoint,
    then the rest of the trace) comes right after a checkpoint write
    that holds its cursor. *)
Lemma block_order (items : list item) path sig nxt o
    (tail : list (event item)) :
  (forall p, tail !! 0%nat = Some (EvRequest p) ->
             exists nc, nxt = Some nc ∧ nc ≠ ""
                        ∧ dict_get "page[cursor]" p = Some (VStr nc)) ->
  (forall i p, tail !! S i = Some (EvRequest p) ->
               exists c o' nc,
                 tail !! i = Some (EvSave path c o')
                 ∧ signature c = sig ∧ next_cursor c = Some nc ∧ nc ≠ ""
                 ∧ dict_get "page[cursor]" p = Some (VStr nc)) ->
  forall i p,
    (map EvYield items ++ EvSave path (Checkpoint sig nxt) o :: tail)%list
      !! i = Some (EvRequest p) ->
    exists j c o' nc,
      i = S j
      ∧ (map EvYield items ++ EvSave path (Checkpoint sig nxt) o :: tail)%list
          !! j = Some (EvSave path c o')
      ∧ signature c = sig ∧ next_cursor c = Some nc ∧ nc ≠ ""
      ∧ dict_get "page[cursor]" p = Some (VStr nc).
Proof.
  intros Hhead Hrest i p Hi.
  apply lookup_app_Some in Hi as [Hi|[Hlen Hi]].
  { rewrite list_lookup_fmap in Hi.
    destruct (items !! i); simpl in Hi; discriminate. }
  rewrite length_map in Hlen, Hi.
  destruct (i - length items)%nat as [|[|j]] eqn:Ei; simpl in Hi.
  - discriminate.
  - destruct (Hhead p Hi) as (nc & -> & Hnc & Hp).
    exists (length items), (Checkpoint sig (Some nc)), o, nc.
    split; [lia|]. split; [|done].
    apply list_lookup_middle. by rewrite length_map.
  - destruct (Hrest j p Hi) as (c & o' & nc & Hj & Hsig & Hnc & Hne & Hp).
    exists (length items + S j)%nat, c, o', nc.
    split; [lia|]. split; [|done].
    rewrite lookup_app_r by (rewrite length_map; lia).
    rewrite length_map.
    by replace (length items + S j - length items)%nat with (S j) by lia.
Qed.

Lemma next_pages_order fuel path sig params k cursor :
  (forall p, next_pagesH fuel path sig params k cursor !! 0%nat
             = Some (EvRequest p) ->
             exists nc, cursor = Some nc ∧ nc ≠ ""
                        ∧ dict_get "page[cursor]" p = Some (VStr nc))
  ∧ (forall i p, next_pagesH fuel path sig params k cursor !! S i
                 = Some (EvRequest p) ->
                 exists c o' nc,
                   next_pagesH fuel path sig params k cursor !! i
                   = Some (EvSave path c o')
                   ∧ signature c = sig ∧ next_cursor c = Some nc ∧ nc ≠ ""
                   ∧ dict_get "page[cursor]" p = Some (VStr nc)).
Proof.
  revert params k cursor.
  induction fuel as [|fuel IH]; intros params k cursor; [done|].
  cbn [next_pages].
  destruct cursor as [nc|]; [|split; [done | by intros [|i] p]].
  destruct (String.eqb nc "") eqn:Enc; [split; [done | by intros [|i] p]|].
  apply eqb_string_false in Enc.
  set (params' := dict_set "page[cursor]" (VStr nc) params). split.
  - intros p [= <-]. exists nc. repeat split; try done.
    apply dict_get_set_eq.
  - intros i p Hi. simpl in Hi.
    destruct (request_get params') as [js|]; [|by destruct i as [|[|i]]].
    destruct (data js) as [|it items] eqn:Edata; [by destruct i as [|[|i]]|].
    destruct (IH params' (S k) (parsed_next _parse_next_cursor js))
      as [Hhead Hrest].
    destruct (block_order (it :: items) path sig _ _ _ Hhead Hrest i p Hi)
      as (j & c & o' & nc' & -> & Hj & Hc).
    exists c, o', nc'. split; [exact Hj | exact Hc].
Qed.

(** X14. In every trace of a pass, a request after the first one comes
    right after the write of a checkpoint, and it asks for the cursor
    that this checkpoint holds, under the signature of the pass: the
    checkpoint of a page is written before the next page is asked
    for. *)
Theorem request_follows_its_checkpoint (fuel : nat) (base_params : pydict)
    (checkpoint_dir : string) (client_id : option string) (fs : ckpt_store)
    (i : nat) (p : pydict) :
  streamH fuel base_params checkpoint_dir client_id fs !! S i
  = Some (EvRequest p) ->
  exists c o nc,
    streamH fuel base_params checkpoint_dir client_id fs !! i
    = Some (EvSave (pathH base_params checkpoint_dir client_id) c o)
    ∧ signature c = Sig._sig_dict base_params
    ∧ next_cursor c = Some nc ∧ nc ≠ ""
    ∧ dict_get "page[cursor]" p = Some (VStr nc).
Proof.
  unfold stream_datacite_with_resume.
  fold (pathH base_params checkpoint_dir client_id).
  set (path := pathH base_params checkpoint_dir client_id).
  set (sig := Sig._sig_dict base_params).
  set (params := start_params base_params _).
  intros Hi. simpl in Hi.
  destruct (request_get params) as [js|]; [|by destruct i as [|[|i]]].
  destruct (next_pages_order fuel path sig params 1
              (parsed_next _parse_next_cursor js)) as [Hhead Hrest].
  destruct (block_order (data js) path sig _ _ _ Hhead Hrest i p Hi)
    as (j & c & o' & nc' & -> & Hj & Hc).
  exists c, o', nc'. split; [exact Hj | exact Hc].
Qed.

End Pass.

(** The second request of the pass over the three pages is event 4; it
    follows the checkpoint that holds "c2". *)
Lemma request_follows_its_checkpoint_witness :
  exists c o nc,
    stream_datacite_with_resume Scenarios.plain Scenarios.no_int
      Scenarios.plain Scenarios.after_eq Scenarios.three_pages
      Scenarios.all_written 10 Scenarios.preprints "ckpt" None ∅ !! 3%nat
    = Some (EvSave (path_of Scenarios.plain Scenarios.no_int Scenarios.plain
                      Scenarios.preprints "ckpt" None) c o)
    ∧ signature c = Sig._sig_dict Scenarios.preprints
    ∧ next_cursor c = Some nc ∧ nc ≠ ""
    ∧ dict_get "page[cursor]"
        (dict_set "page[cursor]" (VStr "c2") Scenarios.preprints)
      = Some (VStr nc).
Proof.
  exact (request_follows_its_checkpoint Scenarios.plain Scenarios.no_int
           Scenarios.plain Scenarios.after_eq Scenarios.three_pages
           Scenarios.all_written 10 Scenarios.preprints "ckpt" None ∅ 3
           (dict_set "page[cursor]" (VStr "c2") Scenarios.preprints)
           (eq_refl : stream_datacite_with_resume Scenarios.plain
                        Scenarios.no_int Scenarios.plain Scenarios.after_eq
                        Scenarios.three_pages Scenarios.all_written 10
                        Scenarios.preprints "ckpt" None ∅ !! 4%nat
                      = Some (EvRequest
                                (dict_set "page[cursor]" (VStr "c2")
                                   Scenarios.preprints)))).
Defined.

End ResumeMore.

(** ** The rerun after a crash fetches what the crash cut off *)

Module RerunMore.

Import Stream PyFacts ResumeMore.

Section Pass.

Context {item row : Type}.
Variable encode_basestring : string -> string.
Variable int_repr : Z -> string.
Variable sha1_hexdigest : string -> string.
Variable _parse_next_cursor : string -> option string.
Variable request_get : pydict -> option (response item).
Variable disk : nat -> write_outcome.
Variable _one_row_wide : item -> option row.
Variable incremental_every : Z.
Variable incremental_save_dir : bool.

Local Abbreviation consumeH :=
  (consume _one_row_wide incremental_every incremental_save_dir).
Local Abbreviation runH :=
  (run _one_row_wide incremental_every incremental_save_dir).
Local Abbreviation streamH :=
  (stream_datacite_with_resume encode_basestring int_repr sha1_hexdigest
     _parse_next_cursor request_get disk).
Local Abbreviation next_pagesH :=
  (next_pages _parse_next_cursor request_get disk).
Local Abbreviation pathH :=
  (path_of encode_basestring int_repr sha1_hexdigest).
Local Abbreviation rowsH := (fetched _one_row_wide).

Lemma rows_app (a b : list (event item)) :
  rowsH (a ++ b) = (rowsH a ++ rowsH b)%list.
Proof. unfold fetched. apply omap_app. Qed.

Lemma rows_yields (items : list item) :
  rowsH (map EvYield items) = omap _one_row_wide items.
Proof.
  induction items as [|it items IH]; [done|].
  unfold fetched in *. cbn. by rewrite IH.
Qed.

(** The rows of a page and of what follows it. *)
Lemma rows_block p (items : list item) path ck o (tail : list (event item)) :
  rowsH (EvRequest p :: map EvYield items ++ EvSave path ck o :: tail)
  = (omap _one_row_wide items ++ rowsH tail)%list.
Proof.
  change (rowsH (EvRequest p :: ?l)) with (rowsH l).
  rewrite rows_app, rows_yields. reflexivity.
Qed.

Lemma ckpts_run_no_save (s : hstate row) (evs : list (event item)) :
  Forall (fun e => forall path c o, e ≠ EvSave path c o) evs ->
  ckpts (runH s evs) = ckpts s.
Proof.
  revert s. induction evs as [|e evs IH]; intros s Hall; [done|].
  apply Forall_cons in Hall as [He Hall].
  change (runH s (e :: evs)) with (runH (consumeH s e) evs).
  rewrite (IH _ Hall). by apply StreamFacts.ckpts_consume.
Qed.

Lemma yields_no_save (items : list item) m :
  Forall (fun e : event item => forall path c o, e ≠ EvSave path c o)
         (take m (map EvYield items)).
Proof.
  apply Forall_take, Forall_forall.
  intros e (x & -> & _)%list_elem_of_fmap. done.
Qed.

(** The state after the items of a page and a checkpoint write that
    succeeds. *)
Lemma load_after_page (s : hstate row) (items : list item) path ck :
  _load_checkpoint
    (ckpts (runH s (map EvYield items ++ [EvSave path ck Written]))) path
  = Some ck.
Proof.
  unfold run. rewrite fold_left_app. simpl. unfold _load_checkpoint.
  by rewrite lookup_insert_eq.
Qed.

Lemma run_page_then (s : hstate row) p (items : list item) ev
    (tail : list (event item)) :
  runH s (EvRequest p :: map EvYield items ++ ev :: tail)
  = runH (runH s (map EvYield items ++ [ev])) tail.
Proof.
  change (runH s (EvRequest p :: ?l)) with (runH s l).
  unfold run. rewrite <- fold_left_app, <- app_assoc. reflexivity.
Qed.

(** More fuel fetches at least as much. *)
Lemma next_pages_more_fuel f f' path sig params k k' cursor r :
  (f <= f')%nat ->
  r ∈ rowsH (next_pagesH f path sig params k cursor) ->
  r ∈ rowsH (next_pagesH f' path sig params k' cursor).
Proof.
  revert f' params k k' cursor.
  induction f as [|f IH]; intros f' params k k' cursor Hle Hr.
  - by apply elem_of_nil in Hr.
  - destruct f' as [|f']; [lia|]. cbn [next_pages] in *.
    destruct cursor as [nc|]; [|done].
    destruct (String.eqb nc ""); [done|].
    set (params' := dict_set "page[cursor]" (VStr nc) params) in *.
    destruct (request_get params') as [js|]; [|done].
    destruct (data js) as [|it items]; [done|].
    rewrite rows_block in Hr |- *.
    apply elem_of_app in Hr as [Hr|Hr]; apply elem_of_app; [by left|].
    right. apply (IH f' params' (S k)); [lia | done].
Qed.

Section Rerun.

Variable fuel : nat.
Variable base_params : pydict.
Variable checkpoint_dir : string.
Variable client_id : option string.

Local Abbreviation path := (pathH base_params checkpoint_dir client_id).
Local Abbreviation sig := (Sig._sig_dict base_params).
Local Abbreviation rerun :=
  (streamH fuel base_params checkpoint_dir client_id).

Lemma stream_resumed (fs : ckpt_store) nc :
  _load_checkpoint fs path = Some (Checkpoint sig (Some nc)) ->
  nc ≠ "" ->
  rerun fs
  = EvRequest (dict_set "page[cursor]" (VStr nc) base_params)
    :: match request_get (dict_set "page[cursor]" (VStr nc) base_params) with
       | None => [EvRaise]
       | Some js =>
           (map EvYield (data js)
            ++ EvSave path (Checkpoint sig (parsed_next _parse_next_cursor js))
                 (disk 0)
            :: next_pagesH fuel path sig
                 (dict_set "page[cursor]" (VStr nc) base_params) 1
                 (parsed_next _parse_next_cursor js))%list
       end.
Proof.
  intros Hload Hnc. unfold stream_datacite_with_resume.
  fold path. rewrite Hload, StreamFacts.entry_same_signature.
  apply eqb_string_false in Hnc. by rewrite Hnc.
Qed.

(** What the loop would still fetch from a cursor, a rerun fetches from
    the checkpoint that holds this cursor. *)
Lemma next_pages_in_rerun f params k cursor (fs : ckpt_store) r :
  (f <= fuel)%nat ->
  (forall c, dict_set "page[cursor]" c params
             = dict_set "page[cursor]" c base_params) ->
  _load_checkpoint fs path = Some (Checkpoint sig cursor) ->
  r ∈ rowsH (next_pagesH f path sig params k cursor) ->
  r ∈ rowsH (rerun fs).
Proof.
  intros Hle Hparams Hload Hr.
  destruct f as [|f]; [by apply elem_of_nil in Hr|].
  cbn [next_pages] in Hr.
  destruct cursor as [nc|]; [|by apply elem_of_nil in Hr].
  destruct (String.eqb nc "") eqn:Enc; [by apply elem_of_nil in Hr|].
  apply eqb_string_false in Enc.
  rewrite (stream_resumed fs nc Hload Enc).
  rewrite Hparams in Hr.
  set (params' := dict_set "page[cursor]" (VStr nc) base_params) in *.
  destruct (request_get params') as [js|]; [|by apply elem_of_nil in Hr].
  destruct (data js) as [|it items]; [by apply elem_of_nil in Hr|].
  rewrite rows_block in Hr |- *.
  apply elem_of_app in Hr as [Hr|Hr]; apply elem_of_app; [by left|].
  right. apply (next_pages_more_fuel f fuel _ _ _ (S k)); [lia | done].
Qed.

Lemma rerun_covers_next_pages f :
  (forall k, disk k = Written) ->
  forall params k cursor (s : hstate row) n r,
    (f <= fuel)%nat ->
    (forall c, dict_set "page[cursor]" c params
               = dict_set "page[cursor]" c base_params) ->
    _load_checkpoint (ckpts s) path = Some (Checkpoint sig cursor) ->
    r ∈ rowsH (next_pagesH f path sig params k cursor) ->
    r ∈ rowsH (take n (next_pagesH f path sig params k cursor))
    ∨ r ∈ rowsH (rerun (ckpts (runH s (take n (next_pagesH f path sig
                                                 params k cursor))))).
Proof.
  intros Hdisk. induction f as [|f IH];
    intros params k cursor s n r Hle Hparams Hload Hr.
  - by apply elem_of_nil in Hr.
  - assert (forall fs : ckpt_store,
               _load_checkpoint fs path = Some (Checkpoint sig cursor) ->
               r ∈ rowsH (rerun fs)) as Hwhole.
    { intros fs Hfs.
      by apply (next_pages_in_rerun (S f) params k cursor fs r). }
    destruct n as [|m]; [right; by apply Hwhole|].
    cbn [next_pages] in *.
    destruct cursor as [nc|]; [|by apply elem_of_nil in Hr].
    destruct (String.eqb nc "") eqn:Enc; [by apply elem_of_nil in Hr|].
    set (params' := dict_set "page[cursor]" (VStr nc) params) in *.
    destruct (request_get params') as [js|]; [|by apply elem_of_nil in Hr].
    destruct (data js) as [|it items]; [by apply elem_of_nil in Hr|].
    set (items' := it :: items) in *.
    set (nxt := parsed_next _parse_next_cursor js) in *.
    rewrite Hdisk in *.
    set (tail := next_pagesH f path sig params' (S k) nxt) in *.
    rewrite rows_block in Hr. rewrite firstn_cons.
    destruct (decide (m <= length (map EvYield items'))%nat) as [Hm|Hm].
    + right. rewrite take_app_le by done.
      apply Hwhole.
      change (runH s (EvRequest params' :: ?l)) with (runH s l).
      rewrite ckpts_run_no_save; [done | apply yields_no_save].
    + replace m with (length (map EvYield items') + S (m - S (length (map EvYield items'))))%nat
        by lia.
      rewrite take_app_add' by done. rewrite firstn_cons.
      set (m' := (m - S (length (map EvYield items')))%nat).
      rewrite rows_block, run_page_then.
      apply elem_of_app in Hr as [Hr|Hr].
      * left. apply elem_of_app. by left.
      * destruct (IH params' (S k) nxt
                    (runH s (map EvYield items'
                             ++ [EvSave path (Checkpoint sig nxt) Written]))
                    m' r) as [H|H]; try done.
        -- lia.
        -- intros c. subst params'. by rewrite dict_set_set.
        -- apply load_after_page.
        -- left. apply elem_of_app. by right.
        -- by right.
Qed.

(** X15. A pass is killed after any number of events and run again with
    the same parameters on the checkpoint files it left. When the
    checkpoint writes succeed, every row that the uninterrupted pass
    fetches is fetched by the part of it that ran before the crash or by
    the rerun: resuming at the checkpoint skips no row. *)
Theorem rerun_skips_no_row (s0 : hstate row) (n : nat) (r : row) :
  (forall k, disk k = Written) ->
  r ∈ rowsH (rerun (ckpts s0)) ->
  r ∈ rowsH (take n (rerun (ckpts s0)))
  ∨ r ∈ rowsH (rerun (ckpts (runH s0 (take n (rerun (ckpts s0)))))).
Proof.
  intros Hdisk Hr.
  destruct n as [|m]; [by right|].
  set (T := rerun (ckpts s0)) in *.
  assert (exists p0,
             (forall c, dict_set "page[cursor]" c p0
                        = dict_set "page[cursor]" c base_params)
             ∧ T = EvRequest p0
                   :: match request_get p0 with
                      | None => [EvRaise]
                      | Some js =>
                          (map EvYield (data js)
                           ++ EvSave path
                                (Checkpoint sig
                                   (parsed_next _parse_next_cursor js))
                                (disk 0)
                           :: next_pagesH fuel path sig p0 1
                                (parsed_next _parse_next_cursor js))%list
                      end) as (p0 & Hp0 & HT).
  { eexists. split; [|reflexivity]. intros c. apply dict_set_start_params. }
  assert (forall fs : ckpt_store,
             _load_checkpoint fs path = _load_checkpoint (ckpts s0) path ->
             rerun fs = T) as Hsame.
  { intros fs Hfs. subst T. unfold stream_datacite_with_resume.
    fold path. by rewrite Hfs. }
  clearbody T. subst T.
  destruct (request_get p0) as [js|]; [|by apply elem_of_nil in Hr].
  set (nxt := parsed_next _parse_next_cursor js) in *.
  rewrite Hdisk in *.
  set (tail := next_pagesH fuel path sig p0 1 nxt) in *.
  rewrite firstn_cons.
  destruct (decide (m <= length (map EvYield (data js)))%nat) as [Hm|Hm].
  - right. rewrite take_app_le by done.
    change (runH s0 (EvRequest p0 :: ?l)) with (runH s0 l).
    rewrite Hsame; [done|].
    rewrite ckpts_run_no_save; [done | apply yields_no_save].
  - replace m with (length (map EvYield (data js))
                    + S (m - S (length (map EvYield (data js)))))%nat by lia.
    rewrite take_app_add' by done. rewrite firstn_cons.
    set (m' := (m - S (length (map EvYield (data js))))%nat).
    rewrite rows_block in Hr |- *. rewrite run_page_then.
    apply elem_of_app in Hr as [Hr|Hr].
    + left. apply elem_of_app. by left.
    + destruct (rerun_covers_next_pages fuel Hdisk p0 1 nxt
                  (runH s0 (map EvYield (data js)
                            ++ [EvSave path (Checkpoint sig nxt) Written]))
                  m' r) as [H|H]; try done.
      * apply load_after_page.
      * left. apply elem_of_app. by right.
      * by right.
Qed.

End Rerun.

End Pass.

(** The pass over the three pages killed after seven events, in the
    second page: record 5, of the third page, is fetched by the rerun. *)
Lemma rerun_skips_no_row_witness :
  5%nat ∈ fetched Some (take 7 (Scenarios.pass_of Scenarios.three_pages 10 ∅))
  ∨ 5%nat ∈ fetched Some
      (Scenarios.pass_of Scenarios.three_pages 10
         (ckpts (Scenarios.run_of Scenarios.three_pages 100
                   (take 7 (Scenarios.pass_of Scenarios.three_pages 10 ∅))))).
Proof.
  apply (rerun_skips_no_row Scenarios.plain Scenarios.no_int Scenarios.plain
           Scenarios.after_eq Scenarios.three_pages Scenarios.all_written
           Some 100 true 10 Scenarios.preprints "ckpt" None
           Scenarios.nothing_yet 7 5%nat).
  - reflexivity.
  - apply (bool_decide_unpack _). vm_compute. exact I.
Defined.

End RerunMore.

(** ** A harvest without a directory for the chunks *)

Module BufferMore.

Import Stream PyFacts.

Section Pass.

Context {item row : Type}.
Variable _one_row_wide : item -> option row.
Variable incremental_every : Z.

Local Abbreviation consumeN := (consume _one_row_wide incremental_every false).
Local Abbreviation runN := (run _one_row_wide incremental_every false).
Local Abbreviation rowsN := (fetched _one_row_wide).

Lemma run_without_directory (s0 : hstate row)
    (evs : list (event item)) :
  1 <= incremental_every ->
  buffer_rows s0 = [] ->
  chunks (runN s0 evs) = chunks s0
  ∧ exists batches,
      Forall (fun b => Z.of_nat (length b) = incremental_every) batches
      ∧ rowsN evs = (concat batches ++ buffer_rows (runN s0 evs))%list
      ∧ Z.of_nat (length (buffer_rows (runN s0 evs))) < incremental_every.
Proof.
  intros Hevery Hempty.
  induction evs as [|e evs IH] using rev_ind.
  - split; [done|]. exists []. simpl. rewrite Hempty. simpl.
    repeat split; [constructor | lia].
  - destruct IH as (Hchunks & batches & Hfull & Hrows & Hlen).
    unfold run, fetched in *. rewrite fold_left_app, omap_app. simpl.
    set (s := fold_left consumeN evs s0) in *.
    destruct e as [p|it|path c o|c|]; simpl.
    + split; [done|]. exists batches. by rewrite app_nil_r.
    + unfold append_row.
      destruct (_one_row_wide it) as [r|]; simpl.
      * destruct (incremental_every <=? Z.of_nat (length (buffer_rows s ++ [r])))
          eqn:E; simpl.
        -- apply Z.leb_le in E. rewrite length_app in E. simpl in E.
           split; [done|].
           exists (batches ++ [buffer_rows s ++ [r]])%list. split.
           ++ apply Forall_app. split; [done|]. apply Forall_singleton.
              rewrite length_app. simpl. lia.
           ++ split; [|lia]. rewrite concat_app. simpl.
              rewrite !app_nil_r, Hrows. by rewrite app_assoc.
        -- apply Z.leb_gt in E. split; [done|]. exists batches.
           split; [done|]. split; [|done]. by rewrite Hrows, app_assoc.
      * rewrite app_nil_r.
        destruct (incremental_every <=? Z.of_nat (length (buffer_rows s)))
          eqn:E; [apply Z.leb_le in E; lia|].
        split; [done|]. by exists batches.
    + split; [done|]. exists batches. by rewrite app_nil_r.
    + rewrite app_nil_r. unfold write_chunk.
      destruct (buffer_rows s) eqn:Ebuf.
      * split; [done|]. exists batches. by rewrite Ebuf in *.
      * split; [done|]. exists batches. by rewrite Ebuf in *.
    + split; [done|]. exists batches. by rewrite app_nil_r.
Qed.

(** X16. With [incremental_save_dir] not set a pass writes no chunk
    file, and still clears the buffer each time it reaches
    [incremental_every] rows: of the rows fetched, the buffer holds the
    last ones, fewer than [incremental_every]; the rows before them,
    whole batches of [incremental_every], are in no chunk and no longer
    in the buffer. *)
Theorem full_batches_are_dropped_without_directory (s0 : hstate row)
    (evs : list (event item)) :
  1 <= incremental_every ->
  buffer_rows s0 = [] ->
  chunks (runN s0 evs) = chunks s0
  ∧ exists batches,
      Forall (fun b => Z.of_nat (length b) = incremental_every) batches
      ∧ rowsN evs = (concat batches ++ buffer_rows (runN s0 evs))%list
      ∧ Z.of_nat (length (buffer_rows (runN s0 evs))) < incremental_every.
Proof. apply run_without_directory. Qed.

End Pass.

(** The catalogue of three pages of two records with a threshold of 4
    and no directory: the first four rows are gone, two are left. *)
Lemma full_batches_are_dropped_without_directory_witness :
  chunks (run Some 4 false Scenarios.nothing_yet
            (Scenarios.pass_of Scenarios.three_pages 10 ∅)) = []
  ∧ exists batches,
      Forall (fun b => Z.of_nat (length b) = 4) batches
      ∧ fetched Some (Scenarios.pass_of Scenarios.three_pages 10 ∅)
        = (concat batches
           ++ buffer_rows (run Some 4 false Scenarios.nothing_yet
                             (Scenarios.pass_of Scenarios.three_pages 10 ∅)))%list
      ∧ Z.of_nat (length (buffer_rows
                            (run Some 4 false Scenarios.nothing_yet
                               (Scenarios.pass_of Scenarios.three_pages 10 ∅))))
        < 4.
Proof.
  apply (full_batches_are_dropped_without_directory Some 4
           Scenarios.nothing_yet
           (Scenarios.pass_of Scenarios.three_pages 10 ∅)).
  - lia.
  - reflexivity.
Defined.

End BufferMore.

(** ** More on the final deduplication *)

Module DedupMore.

Import Dedup DedupFacts.

Local Abbreviation sorted := (StronglySorted (fun a b => row_leb a b = true)).

Lemma insert_sorted_least r l :
  Forall (fun x => row_leb r x = true) l -> insert_sorted r l = r :: l.
Proof.
  destruct l as [|r' l]; [done|]. intros Hall.
  apply Forall_cons in Hall as [Hr _]. by apply insert_sorted_stable.
Qed.

(** A frame that is in order is left as it is by the sort. *)
Lemma sort_values_sorted_id l : sorted l -> sort_values l = l.
Proof.
  induction 1 as [|r l Hsorted IH Hall]; [done|].
  change (sort_values (r :: l)) with (insert_sorted r (sort_values l)).
  rewrite IH. by apply insert_sorted_least.
Qed.

Lemma drop_duplicates_sorted seen df :
  sorted df -> sorted (drop_duplicates seen df).
Proof.
  intros Hsorted. revert seen.
  induction Hsorted as [|r l Hsorted IH Hall]; intros seen; simpl.
  - constructor.
  - case_bool_decide; [apply IH|].
    constructor; [apply IH|].
    apply Forall_forall. intros x Hx.
    apply drop_duplicates_subset in Hx as [Hx _].
    rewrite Forall_forall in Hall. by apply Hall.
Qed.

Lemma drop_duplicates_distinct seen df :
  NoDup (map doi df) ->
  (forall r, r ∈ df -> doi r ∉ seen) ->
  drop_duplicates seen df = df.
Proof.
  revert seen. induction df as [|r df IH]; intros seen Hnd Hseen; [done|].
  simpl in *. apply NoDup_cons in Hnd as [Hr Hnd].
  case_bool_decide as Hin.
  - exfalso. apply (Hseen r); [left | done].
  - f_equal. apply IH; [done|].
    intros x Hx [Heq|Hx']%elem_of_cons.
    + apply Hr. rewrite <- Heq. apply list_elem_of_fmap. by exists x.
    + apply (Hseen x); [by right | done].
Qed.

(** X17. The result of the deduplication is in the order of the sort:
    rows with more of [provider_id] and [alternate_ids_json] first,
    then by the registered, updated and created dates. *)
Theorem dedup_final_in_sort_order (df : list row) :
  StronglySorted (fun a b => row_leb a b = true) (dedup_final df).
Proof.
  rewrite dedup_final_unfold.
  apply drop_duplicates_sorted, sort_values_sorted.
Qed.

(** X18. Deduplicating a frame that is already deduplicated changes
    nothing. *)
Theorem dedup_final_idempotent (df : list row) :
  dedup_final (dedup_final df) = dedup_final df.
Proof.
  rewrite (dedup_final_unfold (dedup_final df)).
  rewrite sort_values_sorted_id.
  - apply drop_duplicates_distinct.
    + rewrite dedup_final_unfold. apply drop_duplicates_nodup.
    + intros r _. apply not_elem_of_nil.
  - rewrite dedup_final_unfold.
    apply drop_duplicates_sorted, sort_values_sorted.
Qed.

(** *** The row that is kept for a DOI *)

Lemma head_insert_sorted r l :
  head (insert_sorted r l)
  = Some match head l with
         | Some b => if row_leb r b then r else b
         | None => r
         end.
Proof. destruct l as [|b l]; [done|]. simpl. by destruct (row_leb r b). Qed.

Lemma head_sort_values_least df m :
  head (sort_values df) = Some m ->
  m ∈ df ∧ forall x, x ∈ df -> row_leb m x = true.
Proof.
  intros Hhead.
  assert (Hsorted := sort_values_sorted df).
  assert (Hperm := sort_values_perm df).
  destruct (sort_values df) as [|m' t]; [done|].
  injection Hhead as ->.
  split; [rewrite <- Hperm; left|].
  intros x Hx. rewrite <- Hperm in Hx.
  apply StronglySorted_inv in Hsorted as [_ Hall].
  apply elem_of_cons in Hx as [->|Hx]; [apply row_leb_refl|].
  rewrite Forall_forall in Hall. by apply Hall.
Qed.

Lemma head_sort_values_none df : head (sort_values df) = None -> df = [].
Proof.
  intros Hhead. assert (Hperm := sort_values_perm df).
  destruct (sort_values df); [|done].
  by apply Permutation_nil_l in Hperm.
Qed.

(** The first row after more rows are sorted into a sorted frame. *)
Lemma head_sorted_into t df :
  head (foldr insert_sorted t df)
  = match head (sort_values df), head t with
    | None, h => h
    | Some m, None => Some m
    | Some m, Some b => Some (if row_leb m b then m else b)
    end.
Proof.
  induction df as [|r df IH]; simpl.
  - by destruct (head t).
  - change (foldr insert_sorted [] df) with (sort_values df).
    rewrite !head_insert_sorted, IH.
    destruct (head (sort_values df)) as [m|], (head t) as [b|]; try done.
    destruct (row_leb m b) eqn:Emb.
    + destruct (row_leb r m) eqn:Erm; rewrite ?Emb; [|done].
      by rewrite (row_leb_trans r m b).
    + destruct (row_leb r m) eqn:Erm; [done|].
      rewrite Emb. destruct (row_leb r b) eqn:Erb; [|done].
      apply row_leb_total in Emb.
      by rewrite (row_leb_trans r b m) in Erm.
Qed.

(** Rows that are in the frame already do not change which row comes
    first. *)
Lemma head_sort_values_app df more :
  more ⊆ df ->
  head (sort_values (df ++ more)) = head (sort_values df).
Proof.
  intros Hsub. unfold sort_values at 1. rewrite foldr_app.
  change (foldr insert_sorted [] more) with (sort_values more).
  rewrite head_sorted_into.
  destruct (head (sort_values df)) as [m|] eqn:Em.
  - destruct (head (sort_values more)) as [b|] eqn:Eb; [|done].
    apply head_sort_values_least in Em as [_ Hleast].
    apply head_sort_values_least in Eb as [Hb _].
    by rewrite (Hleast b (Hsub b Hb)).
  - apply head_sort_values_none in Em as ->.
    destruct more as [|x more]; [done|].
    exfalso. apply (not_elem_of_nil x), Hsub. left.
Qed.

Lemma filter_insert_sorted (P : row -> Prop) `{!forall r, Decision (P r)} r l :
  sorted l ->
  filter P (insert_sorted r l)
  = if decide (P r) then insert_sorted r (filter P l) else filter P l.
Proof.
  induction 1 as [|r' l Hsorted IH Hall]; simpl.
  - rewrite filter_cons, filter_nil. by destruct (decide (P r)).
  - destruct (row_leb r r') eqn:Err'.
    + rewrite (filter_cons _ r). destruct (decide (P r)); [|done].
      symmetry. apply insert_sorted_least.
      apply Forall_forall. intros x [_ Hx]%list_elem_of_filter.
      apply elem_of_cons in Hx as [->|Hx]; [done|].
      rewrite Forall_forall in Hall.
      apply (row_leb_trans r r' x); [done | by apply Hall].
    + rewrite (filter_cons _ r'), IH, (filter_cons _ r').
      destruct (decide (P r)), (decide (P r')); simpl; by rewrite ?Err'.
Qed.

(** The sort is stable: it commutes with taking the rows of one DOI. *)
Lemma filter_sort_values (P : row -> Prop) `{!forall r, Decision (P r)} df :
  filter P (sort_values df) = sort_values (filter P df).
Proof.
  induction df as [|r df IH]; [done|].
  change (sort_values (r :: df)) with (insert_sorted r (sort_values df)).
  rewrite filter_insert_sorted by apply sort_values_sorted.
  rewrite filter_cons, IH. by destruct (decide (P r)).
Qed.

Lemma drop_duplicates_elem seen df r :
  r ∈ drop_duplicates seen df
  <-> (doi r ∉ seen) ∧ head (filter (fun x => doi x = doi r) df) = Some r.
Proof.
  revert seen. induction df as [|x df IH]; intros seen; simpl.
  - split; [by intros ?%elem_of_nil | by intros [_ ?]].
  - rewrite filter_cons. case_bool_decide as Hseen.
    + rewrite IH. destruct (decide (doi x = doi r)) as [Heq|Hne]; [|done].
      split; intros [Hr _]; exfalso; apply Hr; by rewrite <- Heq.
    + rewrite elem_of_cons, IH, not_elem_of_cons.
      destruct (decide (doi x = doi r)) as [Heq|Hne]; simpl.
      * split.
        -- intros [->|[[Hne _] _]]; [done | by exfalso].
        -- intros [_ [= ->]]. by left.
      * split.
        -- intros [->|[[_ Hr] Hhead]]; [done | done].
        -- intros [Hr Hhead]. right. by repeat split.
Qed.

(** The row kept for a DOI is the first, after the sort, of the rows of
    the frame with this DOI. *)
Lemma dedup_final_elem df r :
  r ∈ dedup_final df
  <-> head (sort_values (filter (fun x => doi x = doi r) df)) = Some r.
Proof.
  rewrite dedup_final_unfold, drop_duplicates_elem, filter_sort_values.
  split; [by intros [_ ?] | intros ?; split; [apply not_elem_of_nil | done]].
Qed.

(** X19. Rows appended to a frame that holds them already do not change
    what the deduplication keeps. (The harvest appends the last rows of
    each pass to a frame that has them in its last chunk.) *)
Theorem dedup_final_absorbs_copies (df more : list row) :
  more ⊆ df ->
  dedup_final (df ++ more) ≡ₚ dedup_final df.
Proof.
  intros Hsub. apply NoDup_Permutation.
  - apply (NoDup_fmap_1 doi). rewrite dedup_final_unfold.
    apply drop_duplicates_nodup.
  - apply (NoDup_fmap_1 doi). rewrite dedup_final_unfold.
    apply drop_duplicates_nodup.
  - intros r. rewrite !dedup_final_elem, filter_app.
    rewrite head_sort_values_app; [done|].
    intros x [Hx Hin]%list_elem_of_filter.
    apply list_elem_of_filter. split; [done | by apply Hsub].
Qed.

(** A frame with the rich row for "x" twice and the bare row: the copy
    appended changes nothing. *)
Lemma dedup_final_absorbs_copies_witness :
  dedup_final ([Scenarios.bare_x; Scenarios.rich_x] ++ [Scenarios.rich_x])
  ≡ₚ dedup_final [Scenarios.bare_x; Scenarios.rich_x].
Proof.
  apply (dedup_final_absorbs_copies [Scenarios.bare_x; Scenarios.rich_x]
           [Scenarios.rich_x]).
  intros r Hr. apply list_elem_of_singleton in Hr as ->. right. left.
Defined.

End DedupMore.

(** ** The prefix and the provider of a row *)

Module RowMapMore.

Import RowMap.

Lemma split_first_sound c s before after :
  split_first c s = Some (before, after) ->
  s = before ++ String c after ∧ has_char c before = false.
Proof.
  revert before. induction s as [|a s IH]; intros before; simpl; [done|].
  case_bool_decide as Hac.
  - subst a. by intros [= <- <-].
  - destruct (split_first c s) as [[b' a']|]; [|done].
    intros [= <- <-]. destruct (IH b' eq_refl) as [-> Hno]. simpl.
    by rewrite bool_decide_eq_false_2.
Qed.

Lemma split_first_complete c before after :
  has_char c before = false ->
  split_first c (before ++ String c after) = Some (before, after).
Proof.
  induction before as [|x before IH]; simpl.
  - intros _. by rewrite bool_decide_eq_true_2.
  - intros [Hx Hno]%orb_false_iff. rewrite Hx, (IH Hno). done.
Qed.

Lemma split_first_spec c s before after :
  split_first c s = Some (before, after)
  <-> s = before ++ String c after ∧ has_char c before = false.
Proof.
  split; [apply split_first_sound|].
  intros [-> Hno]. by apply split_first_complete.
Qed.

Lemma has_char_app c s t : has_char c (s ++ t) = has_char c s || has_char c t.
Proof.
  induction s as [|a s IH]; [done|]. simpl. by rewrite IH, orb_assoc.
Qed.

Lemma has_char_split c s :
  has_char c s = true -> exists before after, split_first c s = Some (before, after).
Proof.
  induction s as [|a s IH]; [done|]. simpl. case_bool_decide; simpl.
  - by eauto.
  - intros Hs. destruct (IH Hs) as (b & a' & ->). by eauto.
Qed.

Lemma fallback_prefix_spec (doi : option string) (p : string) :
  _fallback_prefix_from_doi doi = Some p
  <-> exists rest, doi = Some (p ++ "/" ++ rest) ∧ has_char "/" p = false.
Proof.
  unfold _fallback_prefix_from_doi. split.
  - destruct doi as [d|]; [|done].
    destruct (String.eqb d "" || negb (has_char "/" d)); [done|].
    destruct (split_first "/" d) as [[b a]|] eqn:Esplit; [|done].
    intros [= <-]. apply split_first_spec in Esplit as [-> Hno].
    by exists a.
  - intros (rest & -> & Hno).
    assert (split_first "/" (p ++ "/" ++ rest) = Some (p, rest)) as ->
      by by apply split_first_spec.
    rewrite has_char_app. simpl.
    rewrite orb_true_r. simpl.
    destruct p; simpl; [done|]. done.
Qed.

(** X20. The prefix of a row whose record gives none (no [prefix], or
    an empty one) is the text of the DOI before its first slash: it is
    [p] exactly for a DOI of the form [p/rest] where [p] has no slash,
    and there is no prefix for any other DOI, a missing or empty one
    included. *)
Theorem prefix_falls_back_to_doi (attr_prefix doi : option string)
    (p : string) :
  truthy_str attr_prefix = false ->
  prefix_of attr_prefix doi = Some p
  <-> exists rest, doi = Some (p ++ "/" ++ rest) ∧ has_char "/" p = false.
Proof.
  intros Hattr. unfold prefix_of, opt_or. rewrite Hattr.
  apply fallback_prefix_spec.
Qed.

(** The DOI [10.5281/zenodo.1] of a record with an empty prefix. *)
Lemma prefix_falls_back_to_doi_witness :
  prefix_of (Some "") (Some "10.5281/zenodo.1") = Some "10.5281"
  <-> exists rest, Some "10.5281/zenodo.1" = Some ("10.5281" ++ "/" ++ rest)
                   ∧ has_char "/" "10.5281" = false.
Proof.
  apply (prefix_falls_back_to_doi (Some "") (Some "10.5281/zenodo.1")
           "10.5281").
  reflexivity.
Defined.

(** X21. When the record gives no provider, a client id [p.rest] gives
    the provider [p], the text before its first dot. *)
Theorem provider_falls_back_to_client_id
    (rel_provider attr_provider : option string) (p rest : string) :
  truthy_str (opt_or rel_provider attr_provider) = false ->
  has_char "." p = false ->
  provider_of rel_provider attr_provider (Some (p ++ "." ++ rest)) = Some p.
Proof.
  unfold provider_of. intros -> Hno. simpl.
  assert (split_first "." (p ++ "." ++ rest) = Some (p, rest)) as Hsplit
    by by apply split_first_spec.
  rewrite Hsplit, has_char_app. simpl. rewrite orb_true_r.
  by destruct p.
Qed.

(** The client [cern.zenodo] of a record with an empty [providerId]. *)
Lemma provider_falls_back_to_client_id_witness :
  provider_of None (Some "") (Some ("cern" ++ "." ++ "zenodo")) = Some "cern".
Proof.
  apply (provider_falls_back_to_client_id None (Some "") "cern" "zenodo");
    reflexivity.
Defined.

End RowMapMore.

(** ** More on the unified schema *)

Module SchemaMore.

Import Schema PyFacts SchemaFacts.

Lemma elem_of_concat {A : Type} (x : A) (ls : list (list A)) :
  x ∈ concat ls <-> exists l, x ∈ l ∧ l ∈ ls.
Proof.
  induction ls as [|l ls IH]; simpl.
  - split; [by intros ?%elem_of_nil | by intros (l & _ & ?%elem_of_nil)].
  - rewrite elem_of_app, IH. split.
    + intros [Hx|(l' & Hx & Hl')]; [exists l; split; [done | left]|].
      exists l'. split; [done | by right].
    + intros (l' & Hx & [->|Hl']%elem_of_cons); [by left|].
      right. by exists l'.
Qed.

Lemma slot_of_absent n fs : slot_of n fs = Absent <-> n ∉ names fs.
Proof.
  induction fs as [|f fs IH]; simpl.
  - split; [intros _; apply not_elem_of_nil | done].
  - fold (slot_of n fs). rewrite not_elem_of_cons.
    destruct (String.eqb n (name f)) eqn:E.
    + apply eqb_string_true in E. split; [|by intros [? _]].
      destruct (slot_of n fs); simpl; try done.
      by destruct (merge_types _ _).
    + apply eqb_string_false in E. rewrite IH. by split; [|intros [_ ?]].
Qed.

Lemma merge_types_cases t1 t2 t :
  merge_types t1 t2 = Some t ->
  (t1 = t ∨ t1 = null) ∧ (t2 = t ∨ t2 = null).
Proof.
  unfold merge_types. repeat case_decide; intros [= <-]; subst; auto.
Qed.

(** A name that ends up with one type: every field of that name has this
    type, or [null]. *)
Lemma slot_of_has n fs t :
  slot_of n fs = Has t ->
  forall g, g ∈ fs -> name g = n -> type g = t ∨ type g = null.
Proof.
  revert t. induction fs as [|f fs IH]; intros t Hslot g Hg Hname.
  - by apply elem_of_nil in Hg.
  - rewrite slot_of_cons in Hslot.
    destruct (String.eqb n (name f)) eqn:E.
    + apply eqb_string_true in E.
      destruct (slot_of n fs) as [|t'|] eqn:Efs; simpl in Hslot; [| |done].
      * injection Hslot as <-.
        apply elem_of_cons in Hg as [->|Hg]; [by left|].
        apply slot_of_absent in Efs. exfalso. apply Efs.
        apply list_elem_of_fmap. by exists g.
      * destruct (merge_types (type f) t') as [t''|] eqn:Em; [|done].
        injection Hslot as ->.
        apply merge_types_cases in Em as [Hf Ht'].
        apply elem_of_cons in Hg as [->|Hg]; [done|].
        destruct (IH t' eq_refl g Hg Hname) as [->|?]; [done | by right].
    + apply elem_of_cons in Hg as [->|Hg].
      * apply eqb_string_false in E. by subst n.
      * by apply (IH t).
Qed.

Lemma names_score_to_float64 s : names (score_to_float64 s) = names s.
Proof.
  unfold score_to_float64. destruct (field_of "score" s) as [f|]; [|done].
  case_bool_decide; [done|]. unfold names. rewrite map_map.
  apply map_ext. intros g. destruct (String.eqb (name g) "score") eqn:E; [|done].
  apply eqb_string_true in E. by rewrite E.
Qed.

(** After the score block a schema with a [score] field has one that is
    [float64]. *)
Lemma score_to_float64_has_float64 s g :
  g ∈ score_to_float64 s -> name g = "score" ->
  Field "score" float64 ∈ score_to_float64 s.
Proof.
  unfold score_to_float64.
  destruct (field_of "score" s) as [f|] eqn:Ef.
  - case_bool_decide as Ht.
    + intros _ _. assert (Hf := field_of_elem_of _ _ _ Ef).
      apply field_of_name in Ef. destruct f as [fn ft]. simpl in *.
      by subst.
    + intros Hg Hname. apply list_elem_of_fmap in Hg as (g0 & -> & Hg0).
      apply list_elem_of_fmap. exists g0. split; [|done].
      destruct (String.eqb (name g0) "score") eqn:E; [done|].
      apply eqb_string_false in E. done.
  - intros Hg Hname. apply field_of_none in Ef. exfalso. apply Ef.
    apply list_elem_of_fmap. by exists g.
Qed.

Lemma score_to_float64_others s g :
  g ∈ s -> name g ≠ "score" -> g ∈ score_to_float64 s.
Proof.
  unfold score_to_float64. intros Hg Hname.
  destruct (field_of "score" s) as [f|]; [|done].
  case_bool_decide; [done|].
  apply list_elem_of_fmap. exists g. split; [|done].
  apply eqb_string_false in Hname. by rewrite Hname.
Qed.

Section Collect.

Variable read_schema : string -> option schema.

Lemma readable_schemas_elem s' paths :
  s' ∈ readable_schemas read_schema paths
  <-> exists p s, p ∈ paths ∧ read_schema p = Some s
                  ∧ s' = score_to_float64 s.
Proof.
  unfold readable_schemas. rewrite list_elem_of_omap. split.
  - intros (p & Hp & Hs). destruct (read_schema p) as [s|] eqn:E; [|done].
    injection Hs as <-. by exists p, s.
  - intros (p & s & Hp & Hs & ->). exists p. by rewrite Hs.
Qed.

(** What a schema that is returned holds. *)
Lemma collect_slots paths u :
  _collect_unified_schema read_schema paths = Return u ->
  NoDup (names u)
  ∧ forall n, slot_in n u
              = slot_of n (concat (readable_schemas read_schema paths)).
Proof.
  rewrite collect_unfold. unfold unify_schemas.
  rewrite unify_schemas_concat.
  assert (Hspec := add_fields_spec
                     (concat (readable_schemas read_schema paths)) []
                     (NoDup_nil_2)).
  intros Hu. change (@Return (list field)) with (@Return schema) in *.
  rewrite Hu in Hspec. destruct Hspec as [Hnd Hslots]. split; [done|].
  intros n. rewrite Hslots. done.
Qed.

Lemma slot_in_names n (u : schema) : slot_in n u = Absent <-> n ∉ names u.
Proof.
  unfold slot_in. rewrite <- field_of_none.
  by destruct (field_of n u).
Qed.

(** X22. The columns of the unified schema are the columns of the
    shards whose schema can be read, each name once: a name is in the
    unified schema exactly when some readable shard has a column of
    that name. Shards that cannot be read add nothing. *)
Theorem unified_schema_columns (paths : list string) (u : schema) :
  _collect_unified_schema read_schema paths = Return u ->
  NoDup (names u)
  ∧ forall n,
      n ∈ names u
      <-> exists p s, p ∈ paths ∧ read_schema p = Some s ∧ n ∈ names s.
Proof.
  intros Hu. destruct (collect_slots paths u Hu) as [Hnd Hslots].
  split; [done|]. intros n.
  assert (n ∈ names u
          <-> n ∈ names (concat (readable_schemas read_schema paths))) as ->.
  { split; intros Hn; apply dec_stable; intros Hno.
    - apply slot_of_absent in Hno. rewrite <- Hslots in Hno.
      by apply slot_in_names in Hno.
    - apply slot_in_names in Hno. rewrite Hslots in Hno.
      by apply slot_of_absent in Hno. }
  unfold names. rewrite list_elem_of_fmap. split.
  - intros (g & -> & Hg). apply elem_of_concat in Hg as (s' & Hg & Hs').
    apply readable_schemas_elem in Hs' as (p & s & Hp & Hs & ->).
    exists p, s. repeat split; try done.
    fold (names s). rewrite <- names_score_to_float64.
    apply list_elem_of_fmap. by exists g.
  - intros (p & s & Hp & Hs & Hn).
    fold (names s) in Hn. rewrite <- names_score_to_float64 in Hn.
    apply list_elem_of_fmap in Hn as (g & -> & Hg). exists g. split; [done|].
    apply elem_of_concat. exists (score_to_float64 s). split; [done|].
    apply readable_schemas_elem. by exists p, s.
Qed.

(** X23. The types of the unified schema: a column [score] is
    [float64]; any other column has the type that every readable shard
    gives to the column of that name, [null] columns aside. *)
Theorem unified_schema_types (paths : list string) (u : schema) (f : field) :
  _collect_unified_schema read_schema paths = Return u ->
  f ∈ u ->
  (name f = "score" -> type f = float64)
  ∧ (name f ≠ "score" ->
     forall p s g,
       p ∈ paths -> read_schema p = Some s -> g ∈ s -> name g = name f ->
       type g = type f ∨ type g = null).
Proof.
  intros Hu Hf. destruct (collect_slots paths u Hu) as [Hnd Hslots].
  assert (slot_of (name f) (concat (readable_schemas read_schema paths))
          = Has (type f)) as Hslot.
  { rewrite <- Hslots. unfold slot_in. by rewrite (field_of_member u f). }
  split.
  - intros Hname.
    assert (name f ∈ names (concat (readable_schemas read_schema paths)))
      as Hin.
    { apply dec_stable. intros Hno. apply slot_of_absent in Hno.
      by rewrite Hslot in Hno. }
    apply list_elem_of_fmap in Hin as (g & Hg & Hin).
    apply elem_of_concat in Hin as (s' & Hin & Hs').
    assert (Hs'' := Hs').
    apply readable_schemas_elem in Hs'' as (p & s & _ & _ & ->).
    assert (Field "score" float64
            ∈ concat (readable_schemas read_schema paths)) as Hscore.
    { apply elem_of_concat. exists (score_to_float64 s). split; [|done].
      apply (score_to_float64_has_float64 s g Hin). by rewrite <- Hg. }
    destruct (slot_of_has _ _ _ Hslot _ Hscore) as [Ht|Ht]; simpl in *; done.
  - intros Hname p s g Hp Hs Hg Hgn.
    apply (slot_of_has _ _ _ Hslot); [|done].
    apply elem_of_concat. exists (score_to_float64 s). split.
    + apply score_to_float64_others; [done | by rewrite Hgn].
    + apply readable_schemas_elem. by exists p, s.
Qed.

End Collect.

(** The shards [A], [B] and [C] of the scenario: three columns. *)
Lemma unified_schema_columns_witness :
  NoDup (names [Field "doi" string_; Field "score" float64;
                Field "title" string_])
  ∧ forall n,
      n ∈ names [Field "doi" string_; Field "score" float64;
                 Field "title" string_]
      <-> exists p s, p ∈ ["A"; "B"; "C"] ∧ Scenarios.schema_at p = Some s
                      ∧ n ∈ names s.
Proof.
  apply (unified_schema_columns Scenarios.schema_at ["A"; "B"; "C"]).
  reflexivity.
Defined.

(** The column [score] of the scenario, which one shard has as an
    integer column. *)
Lemma unified_schema_types_witness :
  (name (Field "score" float64) = "score"
   -> type (Field "score" float64) = float64)
  ∧ (name (Field "score" float64) ≠ "score" ->
     forall p s g,
       p ∈ ["A"; "B"; "C"] -> Scenarios.schema_at p = Some s -> g ∈ s ->
       name g = name (Field "score" float64) ->
       type g = type (Field "score" float64) ∨ type g = null).
Proof.
  apply (unified_schema_types Scenarios.schema_at ["A"; "B"; "C"]
           [Field "doi" string_; Field "score" float64; Field "title" string_]).
  - reflexivity.
  - right. left.
Defined.

End SchemaMore.

(** ** The aligned shards *)

Module AlignMore.

Import Schema Merge MergeFacts.

Section Merging.

Variable E : env.

Lemma align_columns_each tbl s cols :
  align_columns E tbl s = Return cols ->
  Forall2 (fun f col => align_column E tbl f = Return col) s cols.
Proof.
  revert cols. induction s as [|f s IH]; intros cols; simpl.
  - intros [= <-]. constructor.
  - destruct (align_column E tbl f) as [col|] eqn:Ef; [|done].
    destruct (align_columns E tbl s) as [cols'|]; [|done].
    intros [= <-]. constructor; [done | by apply IH].
Qed.

Lemma fields_of_combine {P : field -> column -> Prop} (s : schema) cols :
  Forall2 P s cols ->
  map (fun fc : field * column => Field (name fc.1) (type fc.1))
      (combine s cols) = s.
Proof.
  induction 1 as [|[n t] col s cols _ _ IH]; simpl; [done | by rewrite IH].
Qed.

Lemma lookup_combine {P : field -> column -> Prop} {B : Type}
    (g : field * column -> B) (s : schema) cols i f :
  Forall2 P s cols ->
  s !! i = Some f ->
  exists col, P f col ∧ map g (combine s cols) !! i = Some (g (f, col)).
Proof.
  intros Hall. revert i.
  induction Hall as [|f' col s cols Hp _ IH]; intros i; [done|].
  destruct i as [|i]; simpl.
  - intros [= ->]. by exists col.
  - apply IH.
Qed.

Lemma aligned_table_shape (tbl : table) (s : schema) (tbl' : table) :
  _align_table_to_schema E tbl s = Return tbl' ->
  Scenarios.schema_of tbl' = s
  ∧ num_rows tbl' = match s with
                    | [] => 0%nat
                    | _ => num_rows tbl
                    end.
Proof.
  unfold _align_table_to_schema.
  destruct (align_columns E tbl s) as [cols|] eqn:Ecols; [|done].
  destruct (forallb _ _); [|done]. intros [= <-]. simpl. split; [|done].
  unfold Scenarios.schema_of. simpl. rewrite map_map. simpl.
  apply (fields_of_combine s cols (align_columns_each tbl s cols Ecols)).
Qed.

(** X24. A table aligns only when it has each column of the schema,
    once: for a column that the table lacks the null fill of line 118
    raises, and so does the whole call. A table that aligns comes out
    with exactly the columns of the schema, in the order, under the
    names and with the types of the schema; a column that had the type
    of the schema keeps its values; the columns that the schema does
    not name are dropped; it has the rows of the table, and none when
    the schema is empty. *)
Theorem aligned_table_has_schema (tbl : table) (s : schema) (tbl' : table) :
  _align_table_to_schema E tbl s = Return tbl' ->
  Scenarios.schema_of tbl' = s
  ∧ num_rows tbl' = match s with
                    | [] => 0%nat
                    | _ => num_rows tbl
                    end
  ∧ forall i f,
      s !! i = Some f ->
      exists col,
        columns_named (name f) (columns tbl) = [col]
        ∧ (ctype col = type f ->
           columns tbl' !! i
           = Some (Column (name f) (type f) (cvalues col))).
Proof.
  intros Halign.
  destruct (aligned_table_shape tbl s tbl' Halign) as [Hs Hn].
  split; [done|]. split; [done|]. clear Hs Hn. revert Halign.
  unfold _align_table_to_schema.
  destruct (align_columns E tbl s) as [cols|] eqn:Ecols; [|done].
  destruct (forallb _ _); [|done]. intros [= <-]. simpl.
  intros i f Hf.
  change (@lookup nat field (list field) _ i s = Some f) in Hf.
  destruct (lookup_combine
              (fun fc : field * column =>
                 Column (name fc.1) (type fc.1) (cvalues fc.2))
              s cols i f (align_columns_each tbl s cols Ecols) Hf)
    as (col' & Hcol' & Hlookup).
  rewrite Hlookup. simpl. unfold align_column in Hcol'.
  destruct (columns_named (name f) (columns tbl)) as [|col [|c2 cs]];
    try done.
  injection Hcol' as <-. exists col. split; [done|].
  intros Ht. by rewrite bool_decide_eq_true_2.
Qed.



End Merging.

(** The first shard of the scenario aligned to a schema with two of its
    three columns, in another order. *)
Lemma aligned_table_has_schema_witness :
  Scenarios.schema_of
    (Table [ Column "registered" string_ [Some "2020-01-01"];
             Column "doi" string_ [Some "x"] ] 1)
  = [Field "registered" string_; Field "doi" string_]
  ∧ num_rows
      (Table [ Column "registered" string_ [Some "2020-01-01"];
               Column "doi" string_ [Some "x"] ] 1)
    = num_rows Scenarios.shard_a
  ∧ forall i f,
      [Field "registered" string_; Field "doi" string_] !! i = Some f ->
      exists col,
        columns_named (name f) (columns Scenarios.shard_a) = [col]
        ∧ (ctype col = type f ->
           columns (Table [ Column "registered" string_ [Some "2020-01-01"];
                            Column "doi" string_ [Some "x"] ] 1) !! i
           = Some (Column (name f) (type f) (cvalues col))).
Proof.
  apply (aligned_table_has_schema
           (Scenarios.scenario true (fun _ => true) true) Scenarios.shard_a
           [Field "registered" string_; Field "doi" string_]).
  reflexivity.
Defined.


End AlignMore.

(** ** What the discovery finds *)

Module DiscoverMore.

Import Discover PyFacts.

Section Discovery.

Variable F : fs.
Variable name_contains : string.
Variable one_level_deep : bool.

Local Abbreviation visitD := (visit F name_contains).
Local Abbreviation scan_folderD := (scan_folder F name_contains).
Local Abbreviation scan_parentD := (scan_parent F name_contains one_level_deep).
Local Abbreviation discover_fromD :=
  (discover_from F name_contains one_level_deep).
Local Abbreviation pattern_of folder :=
  (path_join (path_join folder "**") "*.parquet").
(** The name filter: no filter, or a name that holds [name_contains]. *)
Local Abbreviation passes fname :=
  (String.eqb name_contains "" || contains name_contains fname).
Local Abbreviation shard_of folder fpath :=
  (Shard folder (_norm F fpath) (basename F (_norm F fpath))).
(** Every path that was seen and passes the filter has its record. *)
Local Abbreviation covered seen records :=
  (forall p, p ∈ seen -> passes (basename F p) = true ->
             exists r, r ∈ records ∧ filepath r = p).

Lemma visit_cases folder (seen : gset string) (records : list shard) fpath :
  visitD folder (seen, records) fpath
  = if bool_decide (_norm F fpath ∈ seen) then (seen, records)
    else ({[_norm F fpath]} ∪ seen,
          if passes (basename F (_norm F fpath))
          then (records ++ [shard_of folder fpath])%list else records).
Proof.
  unfold visit. case_bool_decide; [done|].
  by destruct (String.eqb name_contains ""), (contains name_contains _).
Qed.

Lemma visits_sound folder l (seen : gset string) (records : list shard) r :
  r ∈ (fold_left (visitD folder) l (seen, records)).2 ->
  r ∈ records
  ∨ exists fpath, fpath ∈ l ∧ r = shard_of folder fpath
                  ∧ passes (basename F (_norm F fpath)) = true.
Proof.
  revert seen records. induction l as [|fpath l IH]; intros seen records Hr.
  - by left.
  - cbn [fold_left] in Hr. rewrite visit_cases in Hr.
    assert (forall s rs,
               r ∈ (fold_left (visitD folder) l (s, rs)).2 ->
               r ∈ rs
               ∨ exists fp, fp ∈ fpath :: l ∧ r = shard_of folder fp
                            ∧ passes (basename F (_norm F fp)) = true) as IH'.
    { intros s rs H. destruct (IH s rs H) as [?|(fp & Hfp & ?)]; [by left|].
      right. exists fp. split; [by right | done]. }
    case_bool_decide; [by apply (IH' seen)|].
    destruct (passes (basename F (_norm F fpath))) eqn:Epass.
    + destruct (IH' _ _ Hr) as [[Hin|Hin%list_elem_of_singleton]%elem_of_app|?];
        [by left | | by right].
      right. exists fpath. split; [left | done].
    + by apply (IH' ({[_norm F fpath]} ∪ seen)).
Qed.

Lemma visits_covered folder l (seen : gset string) (records : list shard) :
  covered seen records ->
  covered (fold_left (visitD folder) l (seen, records)).1
          (fold_left (visitD folder) l (seen, records)).2
  ∧ (forall p, p ∈ seen -> p ∈ (fold_left (visitD folder) l (seen, records)).1)
  ∧ (forall fpath, fpath ∈ l ->
        _norm F fpath ∈ (fold_left (visitD folder) l (seen, records)).1)
  ∧ (forall r, r ∈ records ->
        r ∈ (fold_left (visitD folder) l (seen, records)).2).
Proof.
  revert seen records. induction l as [|fpath l IH]; intros seen records Hcov.
  - simpl. repeat split; try done. by intros fpath ?%elem_of_nil.
  - cbn [fold_left]. rewrite visit_cases. case_bool_decide as Hseen.
    + destruct (IH seen records Hcov) as (H1 & H2 & H3 & H4).
      repeat split; try done.
      intros fp [->|Hfp]%elem_of_cons; [by apply H2 | by apply H3].
    + set (records' := if passes (basename F (_norm F fpath))
                       then (records ++ [shard_of folder fpath])%list
                       else records).
      assert (forall r, r ∈ records -> r ∈ records') as Hgrow.
      { intros r Hr. unfold records'.
        destruct (passes _); [apply elem_of_app; by left | done]. }
      assert (covered ({[_norm F fpath]} ∪ seen) records') as Hcov'.
      { intros p [->%elem_of_singleton|Hp]%elem_of_union Hpass.
        - exists (shard_of folder fpath). split; [|done].
          unfold records'. rewrite Hpass. apply elem_of_app. right.
          by apply list_elem_of_singleton.
        - destruct (Hcov p Hp Hpass) as (r & Hr & Hpath).
          exists r. split; [by apply Hgrow | done]. }
      destruct (IH _ _ Hcov') as (H1 & H2 & H3 & H4).
      repeat split; try done.
      * intros p Hp. apply H2. apply elem_of_union. by right.
      * intros fp [->|Hfp]%elem_of_cons; [|by apply H3].
        apply H2. apply elem_of_union. left. by apply elem_of_singleton.
      * intros r Hr. by apply H4, Hgrow.
Qed.

Lemma folders_sound folders (seen : gset string) (records : list shard) r :
  r ∈ (fold_left scan_folderD folders (seen, records)).2 ->
  r ∈ records
  ∨ exists folder fpath,
      folder ∈ folders ∧ fpath ∈ iglob F (pattern_of folder)
      ∧ r = shard_of folder fpath
      ∧ passes (basename F (_norm F fpath)) = true.
Proof.
  revert seen records.
  induction folders as [|folder folders IH]; intros seen records Hr.
  - by left.
  - cbn [fold_left] in Hr.
    destruct (scan_folderD (seen, records) folder) as [seen' records'] eqn:E.
    destruct (IH _ _ Hr) as [Hin|(fo & fp & Hfo & ?)].
    + assert (r ∈ (scan_folderD (seen, records) folder).2) as Hin'
        by by rewrite E.
      apply visits_sound in Hin' as [?|(fp & Hfp & ?)]; [by left|].
      right. exists folder, fp. split; [left | done].
    + right. exists fo, fp. split; [by right | done].
Qed.

Lemma folders_covered folders (seen : gset string) (records : list shard) :
  covered seen records ->
  covered (fold_left scan_folderD folders (seen, records)).1
          (fold_left scan_folderD folders (seen, records)).2
  ∧ (forall p, p ∈ seen -> p ∈ (fold_left scan_folderD folders (seen, records)).1)
  ∧ (forall folder fpath,
        folder ∈ folders -> fpath ∈ iglob F (pattern_of folder) ->
        _norm F fpath ∈ (fold_left scan_folderD folders (seen, records)).1)
  ∧ (forall r, r ∈ records ->
        r ∈ (fold_left scan_folderD folders (seen, records)).2).
Proof.
  revert seen records.
  induction folders as [|folder folders IH]; intros seen records Hcov.
  - simpl. repeat split; try done. by intros folder fpath ?%elem_of_nil.
  - cbn [fold_left].
    destruct (visits_covered folder (iglob F (pattern_of folder)) seen records
                Hcov) as (G1 & G2 & G3 & G4).
    fold (scan_folderD (seen, records) folder) in G1, G2, G3, G4.
    destruct (scan_folderD (seen, records) folder) as [seen' records'].
    simpl in *.
    destruct (IH seen' records' G1) as (H1 & H2 & H3 & H4).
    repeat split; try done.
    + intros p Hp. by apply H2, G2.
    + intros fo fp [->|Hfo]%elem_of_cons Hfp; [by apply H2, G3|].
      by apply (H3 fo).
    + intros r Hr. by apply H4, G4.
Qed.

(** Where a record comes from: a root that exists, one of its folders, a
    path that the glob of this folder gives, with a name that passes the
    filter. *)
Local Abbreviation found_under parent r :=
  (path_exists F (_norm F parent) = true
   ∧ exists folders folder fpath,
       folders_of F one_level_deep (_norm F parent) = Return folders
       ∧ folder ∈ folders ∧ fpath ∈ iglob F (pattern_of folder)
       ∧ r = shard_of folder fpath
       ∧ passes (basename F (_norm F fpath)) = true).

Lemma scan_parent_sound records parent records' r :
  scan_parentD records parent = Return records' ->
  r ∈ records' -> r ∈ records ∨ found_under parent r.
Proof.
  unfold scan_parent.
  destruct (path_exists F (_norm F parent)) eqn:Eex; simpl.
  - destruct (folders_of F one_level_deep (_norm F parent))
      as [folders|] eqn:Efol; [|done].
    intros [= <-] Hr.
    apply folders_sound in Hr as [?|(fo & fp & ? & ? & ? & ?)]; [by left|].
    right. split; [done|]. by exists folders, fo, fp.
  - intros [= <-] Hr. by left.
Qed.

Lemma scan_parent_complete records parent records' :
  scan_parentD records parent = Return records' ->
  (forall r, r ∈ records -> r ∈ records')
  ∧ (path_exists F (_norm F parent) = true ->
     forall folders folder fpath,
       folders_of F one_level_deep (_norm F parent) = Return folders ->
       folder ∈ folders -> fpath ∈ iglob F (pattern_of folder) ->
       passes (basename F (_norm F fpath)) = true ->
       exists r, r ∈ records' ∧ filepath r = _norm F fpath).
Proof.
  unfold scan_parent.
  destruct (path_exists F (_norm F parent)) eqn:Eex; simpl.
  - destruct (folders_of F one_level_deep (_norm F parent))
      as [folders|] eqn:Efol; [|done].
    intros [= <-].
    destruct (folders_covered folders ∅ records) as (H1 & H2 & H3 & H4).
    { intros p Hp. by apply not_elem_of_empty in Hp. }
    split; [done|]. intros _ folders' folder fpath [= <-] Hfo Hfp Hpass.
    apply H1; [|done]. by apply (H3 folder).
  - intros [= <-]. split; [done|]. done.
Qed.

Lemma discover_from_sound parents records recs r :
  discover_fromD records parents = Return recs ->
  r ∈ recs ->
  r ∈ records ∨ exists parent, parent ∈ parents ∧ found_under parent r.
Proof.
  revert records. induction parents as [|parent parents IH]; intros records.
  - simpl. intros [= <-] Hr. by left.
  - simpl. destruct (scan_parentD records parent) as [records'|] eqn:E; [|done].
    intros Hrecs Hr.
    destruct (IH _ Hrecs Hr) as [Hin|(pa & Hpa & Hfound)].
    + destruct (scan_parent_sound _ _ _ _ E Hin) as [?|Hfound]; [by left|].
      right. exists parent. split; [left | done].
    + right. exists pa. split; [by right | done].
Qed.

Lemma discover_from_complete parents records recs :
  discover_fromD records parents = Return recs ->
  (forall r, r ∈ records -> r ∈ recs)
  ∧ (forall parent folders folder fpath,
        parent ∈ parents ->
        path_exists F (_norm F parent) = true ->
        folders_of F one_level_deep (_norm F parent) = Return folders ->
        folder ∈ folders -> fpath ∈ iglob F (pattern_of folder) ->
        passes (basename F (_norm F fpath)) = true ->
        exists r, r ∈ recs ∧ filepath r = _norm F fpath).
Proof.
  revert records. induction parents as [|parent parents IH]; intros records.
  - simpl. intros [= <-]. split; [done|].
    by intros parent folders folder fpath ?%elem_of_nil.
  - simpl. destruct (scan_parentD records parent) as [records'|] eqn:E; [|done].
    intros Hrecs. destruct (IH _ Hrecs) as [Hgrow Hall].
    destruct (scan_parent_complete _ _ _ E) as [Hgrow' Hhere].
    split; [intros r Hr; by apply Hgrow, Hgrow'|].
    intros pa folders folder fpath [->|Hpa]%elem_of_cons Hex Hfol Hfo Hfp Hpass.
    + destruct (Hhere Hex folders folder fpath Hfol Hfo Hfp Hpass)
        as (r & Hr & Hpath).
      exists r. split; [by apply Hgrow | done].
    + by apply (Hall pa folders folder fpath).
Qed.

(** X26. What a discovery that returns has found. Every record is for a
    path that the recursive glob gives under a folder (the root itself,
    or with [one_level_deep] one of its subdirectories) of a root that
    exists; it holds that path normalised, its base name and that
    folder, and the name passes the filter. And no such path is left
    out: every path that the glob gives under a folder of an existing
    root, with a name that passes the filter, has a record. *)
Theorem discovery_finds_what_glob_finds (parents : list string)
    (recs : list shard) :
  discover_parquet_files F name_contains one_level_deep parents = Return recs ->
  (forall r, r ∈ recs ->
     exists parent folders folder fpath,
       parent ∈ parents
       ∧ path_exists F (_norm F parent) = true
       ∧ folders_of F one_level_deep (_norm F parent) = Return folders
       ∧ folder ∈ folders
       ∧ fpath ∈ iglob F (path_join (path_join folder "**") "*.parquet")
       ∧ r = Shard folder (_norm F fpath) (basename F (_norm F fpath))
       ∧ (name_contains = ""
          ∨ contains name_contains (filename r) = true))
  ∧ (forall parent folders folder fpath,
        parent ∈ parents ->
        path_exists F (_norm F parent) = true ->
        folders_of F one_level_deep (_norm F parent) = Return folders ->
        folder ∈ folders ->
        fpath ∈ iglob F (path_join (path_join folder "**") "*.parquet") ->
        name_contains = ""
        ∨ contains name_contains (basename F (_norm F fpath)) = true ->
        exists r, r ∈ recs ∧ filepath r = _norm F fpath).
Proof.
  unfold discover_parquet_files. intros Hrecs. split.
  - intros r Hr.
    destruct (discover_from_sound _ _ _ _ Hrecs Hr)
      as [Hin|(parent & Hparent & Hex & folders & folder & fpath
               & Hfol & Hfo & Hfp & -> & Hpass)];
      [by apply elem_of_nil in Hin|].
    exists parent, folders, folder, fpath. repeat split; try done. simpl.
    apply orb_true_iff in Hpass as [Hpass|Hpass]; [left | by right].
    by apply eqb_string_true.
  - intros parent folders folder fpath Hparent Hex Hfol Hfo Hfp Hpass.
    apply (proj2 (discover_from_complete _ _ _ Hrecs) parent folders folder);
      try done.
    apply orb_true_iff. destruct Hpass as [->|Hpass]; [left | by right].
    done.
Qed.

End Discovery.

(** The directory [runs] with its subdirectory [sub], scanned from the
    root [runs]. *)
Lemma discovery_finds_what_glob_finds_witness :
  (forall r, r ∈ [Shard "runs" "runs/sub/a.parquet" "a.parquet"] ->
     exists parent folders folder fpath,
       parent ∈ ["runs"]
       ∧ path_exists Scenarios.nested (_norm Scenarios.nested parent) = true
       ∧ folders_of Scenarios.nested true (_norm Scenarios.nested parent)
         = Return folders
       ∧ folder ∈ folders
       ∧ fpath ∈ iglob Scenarios.nested
                   (path_join (path_join folder "**") "*.parquet")
       ∧ r = Shard folder (_norm Scenarios.nested fpath)
               (basename Scenarios.nested (_norm Scenarios.nested fpath))
       ∧ ("" = "" ∨ contains "" (filename r) = true))
  ∧ (forall parent folders folder fpath,
        parent ∈ ["runs"] ->
        path_exists Scenarios.nested (_norm Scenarios.nested parent) = true ->
        folders_of Scenarios.nested true (_norm Scenarios.nested parent)
        = Return folders ->
        folder ∈ folders ->
        fpath ∈ iglob Scenarios.nested
                  (path_join (path_join folder "**") "*.parquet") ->
        "" = ""
        ∨ contains "" (basename Scenarios.nested
                         (_norm Scenarios.nested fpath)) = true ->
        exists r, r ∈ [Shard "runs" "runs/sub/a.parquet" "a.parquet"]
                  ∧ filepath r = _norm Scenarios.nested fpath).
Proof.
  apply (discovery_finds_what_glob_finds Scenarios.nested "" true ["runs"]).
  reflexivity.
Defined.

End DiscoverMore.

(** ** The chunk files and the frame of a harvest *)

Module OrchestratorMore.

Import Stream Harvest Orchestrator PyFacts.

(** *** The names of the chunk files *)

Lemma index_of_zeros k s :
  Nat.of_uint <$> DecimalString.NilEmpty.uint_of_string (zeros k s)
  = Nat.of_uint <$> DecimalString.NilEmpty.uint_of_string s.
Proof.
  induction k as [|k IH]; [done|]. rewrite <- IH. simpl.
  by destruct (DecimalString.NilEmpty.uint_of_string (zeros k s)).
Qed.

(** The index reads back from the padded number. *)
Lemma index_of_pad5 idx :
  Nat.of_uint <$> DecimalString.NilEmpty.uint_of_string (pad5 idx) = Some idx.
Proof.
  unfold pad5. rewrite index_of_zeros. unfold decimal.
  rewrite DecimalString.NilEmpty.usu. simpl.
  by rewrite DecimalNat.Unsigned.of_to.
Qed.

Lemma append_inj_l (s t1 t2 : string) : s ++ t1 = s ++ t2 -> t1 = t2.
Proof. induction s as [|a s IH]; simpl; [done|]. intros [= H]. by apply IH. Qed.

Lemma chunk_name_inj i j : chunk_name i = chunk_name j -> i = j.
Proof.
  unfold chunk_name. intros H%append_inj_l%HarvestMore.append_inj_r.
  assert (Hi := index_of_pad5 i). rewrite H, index_of_pad5 in Hi.
  by injection Hi.
Qed.

Section Files.

Context {row : Type}.

Lemma write_chunks_snoc (dir : gmap string (list row)) chunks c :
  write_chunks dir (chunks ++ [c])
  = <[chunk_name (length chunks) := c]> (write_chunks dir chunks).
Proof.
  unfold write_chunks. rewrite imap_app, fold_left_app. simpl.
  by rewrite Nat.add_0_r.
Qed.

(** The chunk of index [i] is in the file of index [i]. *)
Lemma write_chunks_lookup (dir : gmap string (list row)) chunks i c :
  chunks !! i = Some c -> write_chunks dir chunks !! chunk_name i = Some c.
Proof.
  revert i c. induction chunks as [|c' chunks IH] using rev_ind; intros i c.
  - done.
  - rewrite write_chunks_snoc. intros Hi.
    destruct (decide (i = length chunks)) as [->|Hne].
    + rewrite list_lookup_middle in Hi by done. injection Hi as ->.
      by rewrite lookup_insert_eq.
    + rewrite lookup_insert_ne by (intros Heq; by apply chunk_name_inj in Heq).
      apply IH. rewrite lookup_app_l in Hi; [done|].
      apply lookup_lt_Some in Hi. rewrite length_app in Hi. simpl in Hi. lia.
Qed.

(** The other files are left as they were. *)
Lemma write_chunks_other (dir : gmap string (list row)) chunks name :
  (forall i, (i < length chunks)%nat -> name ≠ chunk_name i) ->
  write_chunks dir chunks !! name = dir !! name.
Proof.
  induction chunks as [|c' chunks IH] using rev_ind; intros Hname; [done|].
  rewrite write_chunks_snoc, lookup_insert_ne.
  - apply IH. intros i Hi. apply Hname. rewrite length_app. simpl. lia.
  - intros Heq. apply (Hname (length chunks)); [|done].
    rewrite length_app. simpl. lia.
Qed.

End Files.

(** *** The passes *)

Section Run.

Context {item : Type}.

Variable encode_basestring : string -> string.
Variable int_repr : Z -> string.
Variable sha1_hexdigest : string -> string.
Variable _parse_next_cursor : string -> option string.
Variable request_get : pydict -> option (response item).
Variable disk : nat -> write_outcome.
Variable _one_row_wide : item -> option Dedup.row.
Variable probe_total : pydict -> bool.
Variable today : string.
Variable date_field : string.
Variable date_start date_end : Params.date_arg.
Variable rows_per_call : Z.
Variable start_cursor : option string.
Variable include_affiliation : bool.
Variable checkpoint_dir : string.
Variable incremental_every : Z.
Variable fuel : nat.

Local Abbreviation one_passH save :=
  (one_pass encode_basestring int_repr sha1_hexdigest _parse_next_cursor
     request_get disk _one_row_wide probe_total today date_field date_start
     date_end rows_per_call start_cursor include_affiliation checkpoint_dir
     save incremental_every fuel).
Local Abbreviation passes_fromH save :=
  (passes_from encode_basestring int_repr sha1_hexdigest _parse_next_cursor
     request_get disk _one_row_wide probe_total today date_field date_start
     date_end rows_per_call start_cursor include_affiliation checkpoint_dir
     save incremental_every fuel).
Local Abbreviation harvestH client_ids resource_type_id type_mode
    type_label_value save :=
  (harvest_datacite_preprints_dataframe encode_basestring int_repr
     sha1_hexdigest _parse_next_cursor request_get disk _one_row_wide
     probe_total today date_field date_start date_end client_ids
     resource_type_id rows_per_call include_affiliation start_cursor type_mode
     type_label_value checkpoint_dir save incremental_every fuel).
Local Abbreviation rowsH := (fetched _one_row_wide).
Local Abbreviation state := (harvest_state item Dedup.row).

(** A pass that completes has run a trace of the stream that ends with
    the end of the generator. *)
Lemma one_pass_completed save (st st' : state) job :
  one_passH save st job = Completed st' ->
  exists pre c,
    Forall (fun e => forall c, e ≠ EvDone c) pre
    ∧ st' = HarvestState
              (chunks (run _one_row_wide incremental_every save
                         (HState [] (chunks_written st) (checkpoints st))
                         (pre ++ [EvDone c])))
              (all_rows st
               ++ buffer_rows (run _one_row_wide incremental_every save
                                 (HState [] (chunks_written st)
                                    (checkpoints st))
                                 (pre ++ [EvDone c])))
              (ckpts (run _one_row_wide incremental_every save
                        (HState [] (chunks_written st) (checkpoints st))
                        (pre ++ [EvDone c])))
              (history st ++ pre ++ [EvDone c]).
Proof.
  unfold one_pass.
  destruct (pass_params _ _ _ _ _ _ _ _ _) as [params|]; [|done].
  destruct (probe_total params); [|done].
  set (evs := stream_datacite_with_resume _ _ _ _ _ _ _ _ _ _ _).
  assert (how_ended evs = NoNextCursor ∨ how_ended evs = EmptyPage ->
          exists pre c, Forall (fun e => forall c, e ≠ EvDone c) pre
                        ∧ evs = (pre ++ [EvDone c])%list) as Hdone.
  { intros Hend.
    assert (exists c, last evs = Some (EvDone c)) as [c Hlast].
    { unfold how_ended in Hend.
      destruct (last evs) as [[| | |c|]|]; try by destruct Hend.
      by exists c. }
    destruct (StreamMore.stream_done_last _ _ _ _ _ _ _ _ _ _ _ _ Hlast)
      as (pre & Hevs & Hpre).
    by exists pre, c. }
  destruct (how_ended evs); try done.
  - destruct Hdone as (pre & c & Hpre & ->); [by left|].
    intros [= <-]. by exists pre, c.
  - destruct Hdone as (pre & c & Hpre & ->); [by right|].
    intros [= <-]. by exists pre, c.
Qed.

(** With a chunk directory: the chunks a pass adds hold the rows it
    fetched, and so do the rows it adds to [all_rows]. *)
Lemma one_pass_with_directory (st st' : state) job :
  1 <= incremental_every ->
  one_passH true st job = Completed st' ->
  exists evs new rest,
    history st' = (history st ++ evs)%list
    ∧ chunks_written st' = (chunks_written st ++ new)%list
    ∧ concat new = rowsH evs
    ∧ all_rows st' = (all_rows st ++ rest)%list
    ∧ rest ⊆ rowsH evs.
Proof.
  intros Hevery Hpass.
  destruct (one_pass_completed _ _ _ _ Hpass) as (pre & c & Hpre & ->).
  simpl. clear Hpass.
  destruct (StreamMore.run_fills_chunks _one_row_wide incremental_every true
              (HState [] (chunks_written st) (checkpoints st)) pre
              eq_refl Hevery eq_refl Hpre)
    as (full & Hchunks & _ & Hrows & _).
  simpl in Hchunks.
  unfold run in *. rewrite fold_left_app. simpl.
  set (s := fold_left _ pre _) in *.
  assert (rowsH (pre ++ [EvDone c]) = rowsH pre) as Hsame.
  { rewrite RerunMore.rows_app. apply app_nil_r. }
  exists (pre ++ [EvDone c])%list.
  destruct (buffer_rows s) as [|r rs] eqn:Ebuf.
  - exists full, []. rewrite Ebuf, app_nil_r in *.
    rewrite Hsame. repeat split; try done.
    by intros x ?%elem_of_nil.
  - exists (full ++ [r :: rs])%list, (r :: rs). simpl.
    rewrite Hchunks, Hsame, <- Hrows, concat_app. simpl.
    rewrite app_nil_r, app_assoc. repeat split; try done.
    + by rewrite <- app_assoc.
    + intros x Hx. apply elem_of_app. by right.
Qed.

Lemma passes_with_directory jobs (st st' : state) :
  1 <= incremental_every ->
  passes_fromH true st jobs = Completed st' ->
  exists evs new rest,
    history st' = (history st ++ evs)%list
    ∧ chunks_written st' = (chunks_written st ++ new)%list
    ∧ concat new = rowsH evs
    ∧ all_rows st' = (all_rows st ++ rest)%list
    ∧ rest ⊆ rowsH evs.
Proof.
  intros Hevery. revert st.
  induction jobs as [|job jobs IH]; intros st; simpl.
  - intros [= <-]. exists [], [], []. rewrite !app_nil_r. done.
  - destruct (one_passH true st job) as [st1| |] eqn:Epass; try done.
    intros Hrest.
    destruct (one_pass_with_directory _ _ _ Hevery Epass)
      as (evs1 & new1 & rest1 & Hh1 & Hc1 & Hn1 & Ha1 & Hr1).
    destruct (IH _ Hrest) as (evs2 & new2 & rest2 & Hh2 & Hc2 & Hn2 & Ha2 & Hr2).
    exists (evs1 ++ evs2)%list, (new1 ++ new2)%list, (rest1 ++ rest2)%list.
    rewrite Hh2, Hh1, Hc2, Hc1, Ha2, Ha1, <- !app_assoc.
    rewrite concat_app, RerunMore.rows_app, Hn1, Hn2.
    repeat split; try done.
    intros x [Hx|Hx]%elem_of_app; apply elem_of_app; [left | right]; auto.
Qed.

(** What a harvest that completes has done. *)
Lemma harvest_completed client_ids resource_type_id type_mode
    type_label_value save dir fs h :
  harvestH client_ids resource_type_id type_mode type_label_value save dir fs
  = Completed h ->
  exists sels st,
    build_passes type_mode resource_type_id type_label_value = Passes sels
    ∧ passes_fromH save (HarvestState [] [] fs [])
        (planned (client_list client_ids) sels) = Completed st
    ∧ h = Harvested
            (Dedup.dedup_final
               (final_frame save (write_chunks dir (chunks_written st))
                  (all_rows st)))
            (write_chunks dir (chunks_written st)) (checkpoints st)
            (history st).
Proof.
  unfold harvest_datacite_preprints_dataframe.
  destruct (build_passes _ _ _) as [sels|]; [|done].
  destruct (passes_from _ _ _ _ _ _ _ _ _ _ _ _ _ _ _ _ _ _ _ _ _)
    as [st| |] eqn:Epasses; try done.
  intros [= <-]. by exists sels, st.
Qed.

(** X27. A harvest that completes, with a chunk directory and a flush
    threshold of at least 1. The chunks it has written, numbered from 0
    through all its passes, hold the rows fetched by all the passes,
    once and in the order fetched; the chunk of index [i] is in the
    file [datacite_preprints_chunk_<i>.parquet], in place of what a
    file of that name held before the call; every other file of the
    directory is as it was. *)
Theorem chunk_files_of_a_harvest client_ids resource_type_id type_mode
    type_label_value dir fs h :
  harvestH client_ids resource_type_id type_mode type_label_value true dir fs
  = Completed h ->
  1 <= incremental_every ->
  exists chunks,
    concat chunks = rowsH (events h)
    ∧ (forall i c, chunks !! i = Some c ->
                   chunk_files h !! chunk_name i = Some c)
    ∧ (forall name,
          (forall i, (i < length chunks)%nat -> name ≠ chunk_name i) ->
          chunk_files h !! name = dir !! name).
Proof.
  intros Hh Hevery.
  destruct (harvest_completed _ _ _ _ _ _ _ _ Hh) as (sels & st & _ & Hst & ->).
  destruct (passes_with_directory _ _ _ Hevery Hst)
    as (evs & new & rest & Hh1 & Hc1 & Hn1 & _ & _).
  simpl in *. rewrite Hh1, Hc1. exists new. split; [done|]. split.
  - intros i c Hi. by apply write_chunks_lookup.
  - intros name Hname. by apply write_chunks_other.
Qed.

(** *** The frame *)

Lemma read_chunks_elem (dir : gmap string (list Dedup.row)) l :
  l ∈ read_chunks dir <-> exists name, dir !! name = Some l.
Proof.
  unfold read_chunks.
  change (map snd ?x) with (snd <$> x). rewrite list_elem_of_fmap.
  split.
  - intros ([name l'] & -> & Hin). exists name.
    rewrite merge_sort_Permutation in Hin.
    by apply elem_of_map_to_list in Hin.
  - intros (name & Hname). exists (name, l). split; [done|].
    rewrite merge_sort_Permutation. by apply elem_of_map_to_list.
Qed.

Lemma final_frame_elem save (dir : gmap string (list Dedup.row)) rows r :
  r ∈ final_frame save dir rows
  <-> (save = true ∧ exists l, l ∈ read_chunks dir ∧ r ∈ l) ∨ r ∈ rows.
Proof.
  unfold final_frame. destruct save.
  - destruct (read_chunks dir) as [|l ls] eqn:E.
    + split; [by right|]. intros [(_ & l & Hl & _)|Hr]; [|done].
      by apply elem_of_nil in Hl.
    + rewrite elem_of_app, SchemaMore.elem_of_concat. split.
      * intros [(l' & Hr & Hl')|Hr]; [left | by right].
        split; [done|]. by exists l'.
      * intros [(_ & l' & Hl' & Hr)|Hr]; [left | by right]. by exists l'.
  - split; [by right|]. by intros [[? _]|?].
Qed.

(** In a directory that was empty the files are the chunks of the
    call. *)
Lemma written_files_are_chunks (chunks : list (list Dedup.row)) name l :
  write_chunks ∅ chunks !! name = Some l
  <-> exists i, chunks !! i = Some l ∧ name = chunk_name i.
Proof.
  split.
  - intros Hname.
    destruct (decide (name ∈ map chunk_name (seq 0 (length chunks))))
      as [Hin|Hout].
    + apply list_elem_of_fmap in Hin as (i & -> & Hi).
      apply elem_of_seq in Hi as [_ Hi]. simpl in Hi.
      destruct (lookup_lt_is_Some_2 chunks i Hi) as [c Hc].
      rewrite (write_chunks_lookup ∅ chunks i c Hc) in Hname.
      injection Hname as ->. by exists i.
    + rewrite write_chunks_other in Hname; [done|].
      intros i Hi ->. apply Hout. apply list_elem_of_fmap. exists i.
      split; [done|]. apply elem_of_seq. simpl. lia.
  - intros (i & Hi & ->). by apply write_chunks_lookup.
Qed.

(** X28. A harvest that completes, with a chunk directory that was empty
    and a flush threshold of at least 1: [df_final] holds one row for
    each DOI among the rows fetched by the passes; each of its rows
    is a row that was fetched, and it is first in the sort order, so at
    least as rich as any, among the fetched rows with its DOI. *)
Theorem harvest_keeps_one_row_for_each_doi client_ids resource_type_id
    type_mode type_label_value fs h :
  harvestH client_ids resource_type_id type_mode type_label_value true ∅ fs
  = Completed h ->
  1 <= incremental_every ->
  NoDup (map Dedup.doi (df_final h))
  ∧ (forall r', r' ∈ df_final h -> r' ∈ rowsH (events h))
  ∧ (forall r, r ∈ rowsH (events h) ->
       exists r', r' ∈ df_final h
                  ∧ Dedup.doi r' = Dedup.doi r
                  ∧ Dedup.row_leb r' r = true
                  ∧ (Dedup._rich r <= Dedup._rich r')%nat).
Proof.
  intros Hh Hevery.
  destruct (harvest_completed _ _ _ _ _ _ _ _ Hh) as (sels & st & _ & Hst & ->).
  destruct (passes_with_directory _ _ _ Hevery Hst)
    as (evs & new & rest & Hh1 & Hc1 & Hn1 & Ha1 & Hrest).
  simpl in *. rewrite Hh1, Hc1, Ha1.
  assert (forall r,
             r ∈ final_frame true (write_chunks ∅ new) rest
             <-> r ∈ rowsH evs) as Hframe.
  { intros r. rewrite final_frame_elem. split.
    - intros [(_ & l & Hl & Hr)|Hr]; [|by apply Hrest].
      apply read_chunks_elem in Hl as (name & Hname).
      apply written_files_are_chunks in Hname as (i & Hi & _).
      rewrite <- Hn1. apply SchemaMore.elem_of_concat. exists l.
      split; [done|]. by apply list_elem_of_lookup_2 in Hi.
    - rewrite <- Hn1. intros (l & Hr & Hl)%SchemaMore.elem_of_concat.
      left. split; [done|]. exists l. split; [|done].
      apply list_elem_of_lookup_1 in Hl as (i & Hi).
      apply read_chunks_elem. exists (chunk_name i).
      apply written_files_are_chunks. by exists i. }
  destruct (DedupFacts.dedup_final_spec
              (final_frame true (write_chunks ∅ new) rest))
    as (Hnd & Hsub & Hbest).
  split; [done|]. split.
  - intros r' Hr'. by apply Hframe, Hsub.
  - intros r Hr. by apply Hbest, Hframe.
Qed.

(** *** Without a chunk directory *)

Lemma one_pass_without_directory (st st' : state) job :
  1 <= incremental_every ->
  one_passH false st job = Completed st' ->
  chunks_written st' = chunks_written st
  ∧ Z.of_nat (length (all_rows st'))
    <= Z.of_nat (length (all_rows st)) + (incremental_every - 1).
Proof.
  intros Hevery Hpass.
  destruct (one_pass_completed _ _ _ _ Hpass) as (pre & c & Hpre & ->).
  simpl.
  destruct (BufferMore.run_without_directory _one_row_wide incremental_every
              (HState [] (chunks_written st) (checkpoints st))
              (pre ++ [EvDone c]) Hevery eq_refl)
    as (Hchunks & _ & _ & _ & Hlen).
  split; [done|]. rewrite length_app. lia.
Qed.

Lemma passes_without_directory jobs (st st' : state) :
  1 <= incremental_every ->
  passes_fromH false st jobs = Completed st' ->
  chunks_written st' = chunks_written st
  ∧ Z.of_nat (length (all_rows st'))
    <= Z.of_nat (length (all_rows st))
       + (incremental_every - 1) * Z.of_nat (length jobs).
Proof.
  intros Hevery. revert st.
  induction jobs as [|job jobs IH]; intros st; simpl length.
  - intros [= <-]. split; [done | lia].
  - cbn [passes_from].
    destruct (one_passH false st job) as [st1| |] eqn:Epass; try done.
    intros Hrest.
    destruct (one_pass_without_directory _ _ _ Hevery Epass) as [Hc1 Hl1].
    destruct (IH _ Hrest) as [Hc2 Hl2].
    split; [by rewrite Hc2|]. nia.
Qed.

Lemma planned_length (clients : list (option string)) (sels : list selector) :
  length (planned clients sels) = (length clients * length sels)%nat.
Proof.
  unfold planned. induction clients as [|c clients IH]; [done|].
  simpl. by rewrite length_app, length_map, IH.
Qed.

Lemma drop_duplicates_length seen df :
  (length (Dedup.drop_duplicates seen df) <= length df)%nat.
Proof.
  revert seen. induction df as [|r df IH]; intros seen; simpl; [done|].
  case_bool_decide.
  - specialize (IH seen). lia.
  - simpl. specialize (IH (Dedup.doi r :: seen)). lia.
Qed.

Lemma dedup_final_length df :
  (length (Dedup.dedup_final df) <= length df)%nat.
Proof.
  rewrite DedupFacts.dedup_final_unfold.
  rewrite <- (Permutation_length (DedupFacts.sort_values_perm df)).
  apply drop_duplicates_length.
Qed.

(** X29. A harvest that completes without a chunk directory, with a
    flush threshold of at least 1, writes no file, and [df_final] is
    made of what was left in the buffer at the end of each pass: it has
    fewer than [incremental_every] rows for each pass, however many
    rows the passes fetched. *)
Theorem harvest_without_directory_keeps_remainders client_ids
    resource_type_id type_mode type_label_value dir fs h :
  harvestH client_ids resource_type_id type_mode type_label_value false dir fs
  = Completed h ->
  1 <= incremental_every ->
  chunk_files h = dir
  ∧ exists sels,
      build_passes type_mode resource_type_id type_label_value = Passes sels
      ∧ Z.of_nat (length (df_final h))
        <= (incremental_every - 1)
           * Z.of_nat (length (client_list client_ids) * length sels).
Proof.
  intros Hh Hevery.
  destruct (harvest_completed _ _ _ _ _ _ _ _ Hh)
    as (sels & st & Hsels & Hst & ->).
  destruct (passes_without_directory _ _ _ Hevery Hst) as [Hc Hl].
  simpl in *. rewrite Hc. split; [done|]. exists sels. split; [done|].
  rewrite planned_length in Hl.
  assert (Hd := dedup_final_length (all_rows st)). lia.
Qed.

End Run.

(** The catalogue of three pages harvested in the mode [both] with a
    threshold of 4, into an empty directory: four chunk files. *)
Lemma chunk_files_of_a_harvest_witness :
  exists h,
    Cases.harvest_three_pages "both" true 4 ∅ ∅ = Completed h
    ∧ exists chunks,
        concat chunks = fetched Cases.numbered_row (events h)
        ∧ (forall i c, chunks !! i = Some c ->
                       chunk_files h !! chunk_name i = Some c)
        ∧ (forall name,
              (forall i, (i < length chunks)%nat -> name ≠ chunk_name i) ->
              chunk_files h !! name
              = (∅ : gmap string (list Dedup.row)) !! name).
Proof.
  eexists. split; [vm_compute; reflexivity|].
  apply (chunk_files_of_a_harvest Scenarios.plain Scenarios.no_int
           Scenarios.plain Scenarios.after_eq Scenarios.three_pages
           Scenarios.all_written Cases.numbered_row Cases.probe_fine
           "2024-05-05" "registered" (Params.DVal (Some "2020-01-01"))
           (Params.DVal None) 2 None false "ckpt" 4 10 None "Preprint" "both"
           None ∅ ∅).
  - reflexivity.
  - lia.
Defined.

(** The same harvest: six rows, one for each record, of the twelve
    fetched. *)
Lemma harvest_keeps_one_row_for_each_doi_witness :
  exists h,
    Cases.harvest_three_pages "both" true 4 ∅ ∅ = Completed h
    ∧ length (df_final h) = 6%nat
    ∧ length (fetched Cases.numbered_row (events h)) = 12%nat
    ∧ NoDup (map Dedup.doi (df_final h))
    ∧ (forall r', r' ∈ df_final h ->
                  r' ∈ fetched Cases.numbered_row (events h))
    ∧ (forall r, r ∈ fetched Cases.numbered_row (events h) ->
         exists r', r' ∈ df_final h
                    ∧ Dedup.doi r' = Dedup.doi r
                    ∧ Dedup.row_leb r' r = true
                    ∧ (Dedup._rich r <= Dedup._rich r')%nat).
Proof.
  eexists. split; [vm_compute; reflexivity|].
  split; [reflexivity|]. split; [reflexivity|].
  apply (harvest_keeps_one_row_for_each_doi Scenarios.plain Scenarios.no_int
           Scenarios.plain Scenarios.after_eq Scenarios.three_pages
           Scenarios.all_written Cases.numbered_row Cases.probe_fine
           "2024-05-05" "registered" (Params.DVal (Some "2020-01-01"))
           (Params.DVal None) 2 None false "ckpt" 4 10 None "Preprint" "both"
           None ∅).
  - reflexivity.
  - lia.
Defined.

(** The same catalogue harvested without a directory: of the six rows
    fetched, the two after the batch of four are left. *)
Lemma harvest_without_directory_keeps_remainders_witness :
  exists h,
    Cases.harvest_three_pages "canonical" false 4 ∅ ∅ = Completed h
    ∧ length (fetched Cases.numbered_row (events h)) = 6%nat
    ∧ length (df_final h) = 2%nat
    ∧ chunk_files h = ∅
    ∧ exists sels,
        build_passes "canonical" "Preprint" None = Passes sels
        ∧ Z.of_nat (length (df_final h))
          <= (4 - 1) * Z.of_nat (length (client_list None) * length sels).
Proof.
  eexists. split; [vm_compute; reflexivity|].
  split; [reflexivity|]. split; [reflexivity|].
  apply (harvest_without_directory_keeps_remainders Scenarios.plain
           Scenarios.no_int Scenarios.plain Scenarios.after_eq
           Scenarios.three_pages Scenarios.all_written Cases.numbered_row
           Cases.probe_fine "2024-05-05" "registered"
           (Params.DVal (Some "2020-01-01")) (Params.DVal None) 2 None false
           "ckpt" 4 10 None "Preprint" "canonical" None ∅ ∅).
  - reflexivity.
  - lia.
Defined.

End OrchestratorMore.

(** ** What a kill loses *)

Module CrashFacts.

Import Stream Orchestrator Crash PyFacts.

Section Kill.

Context {item row : Type}.

Variable encode_basestring : string -> string.
Variable int_repr : Z -> string.
Variable sha1_hexdigest : string -> string.
Variable _parse_next_cursor : string -> option string.
Variable request_get : pydict -> option (response item).
Variable disk : nat -> write_outcome.
Variable _one_row_wide : item -> option row.
Variable incremental_every : Z.

Local Abbreviation consumeH := (consume _one_row_wide incremental_every true).
Local Abbreviation runH := (run _one_row_wide incremental_every true).
Local Abbreviation kill_statesH :=
  (kill_states _one_row_wide incremental_every true).
Local Abbreviation kill_pointsH :=
  (kill_points _one_row_wide incremental_every true).
Local Abbreviation crash_pointsH :=
  (crash_points _one_row_wide incremental_every true).
Local Abbreviation streamH :=
  (stream_datacite_with_resume encode_basestring int_repr sha1_hexdigest
     _parse_next_cursor request_get disk).
Local Abbreviation next_pagesH :=
  (next_pages _parse_next_cursor request_get disk).
Local Abbreviation rowsH := (fetched _one_row_wide).
Local Abbreviation page_rowsH := (page_rows request_get _one_row_wide).
Local Abbreviation receivedH := (received request_get _one_row_wide).
Local Abbreviation last_pageH := (last_page request_get _one_row_wide).
Local Abbreviation no_request :=
  (Forall (fun e : event item => forall p, e ≠ EvRequest p)).

(** *** The points of a kill *)

Lemma kill_points_elem k (s : hstate row) (evs : list (event item)) k' s' :
  (k', s') ∈ kill_pointsH k s evs ->
  exists j e,
    evs !! j = Some e ∧ k' = (k + S j)%nat
    ∧ s' ∈ kill_statesH (runH s (take j evs)) e.
Proof.
  revert k s. induction evs as [|e evs IH]; intros k s; simpl.
  - by intros ?%elem_of_nil.
  - intros [Hin|Hin]%elem_of_app.
    + apply list_elem_of_fmap in Hin as (s'' & [= -> ->] & Hs'').
      exists 0%nat, e. repeat split; [lia | done].
    + destruct (IH _ _ Hin) as (j & e' & Hj & -> & Hs').
      exists (S j), e'. repeat split; [done | lia | done].
Qed.

(** *** The rows in hand at a kill *)

Lemma rows_snoc (seen : list (event item)) e :
  rowsH (seen ++ [e])
  = (rowsH seen ++ match e with
                   | EvYield it =>
                       match _one_row_wide it with
                       | Some r => [r]
                       | None => []
                       end
                   | _ => []
                   end)%list.
Proof.
  unfold fetched. rewrite omap_app. simpl. by destruct e.
Qed.

(** Rows that are in a chunk file or in the buffer. *)
Local Abbreviation kept R q :=
  (forall r : row, r ∈ R -> r ∈ concat (chunks q) ∨ r ∈ buffer_rows q).

Lemma kept_torn_chunk (R : list row) (q : hstate row) :
  kept R q -> kept R (torn_chunk true q).
Proof.
  intros Hq r Hr. simpl. rewrite concat_app, elem_of_app.
  destruct (Hq r Hr); auto.
Qed.

Lemma kept_write_chunk (R : list row) (q : hstate row) :
  kept R q -> kept R (write_chunk true q).
Proof.
  intros Hq r Hr. simpl. rewrite concat_app, elem_of_app.
  destruct (Hq r Hr); auto.
Qed.

Lemma kept_clear_buffer (R : list row) (q : hstate row) :
  kept R q -> kept R (clear_buffer (write_chunk true q)).
Proof.
  intros Hq r Hr. left. simpl. rewrite concat_app, elem_of_app. simpl.
  rewrite app_nil_r. destruct (Hq r Hr); auto.
Qed.

Lemma kept_append_row (R : list row) (q : hstate row) it :
  kept R q ->
  kept (R ++ match _one_row_wide it with
             | Some r => [r]
             | None => []
             end)%list (append_row _one_row_wide q it)
  ∧ (length (buffer_rows (append_row _one_row_wide q it))
     <= S (length (buffer_rows q)))%nat.
Proof.
  intros Hq. unfold append_row. destruct (_one_row_wide it) as [r0|]; simpl.
  - split; [|rewrite length_app; simpl; lia].
    intros r [Hr|Hr]%elem_of_app.
    + destruct (Hq r Hr); [by left|]. right. apply elem_of_app. by left.
    + right. apply elem_of_app. by right.
  - split; [|lia]. intros r Hr. rewrite app_nil_r in Hr. by apply Hq.
Qed.

(** While an event is handled, every row yielded so far is in a chunk
    file or in the buffer, and the buffer has at most the rows of the
    threshold. *)
Lemma kill_states_keep_rows (p s : hstate row) (seen : list (event item)) e :
  kept (rowsH seen) p ->
  Z.of_nat (length (buffer_rows p)) < Z.max 1 incremental_every ->
  s ∈ kill_statesH p e ->
  kept (rowsH (seen ++ [e])) s
  ∧ Z.of_nat (length (buffer_rows s)) <= Z.max 1 incremental_every.
Proof.
  intros Hrows Hlen Hs. rewrite rows_snoc.
  assert (kept (rowsH seen ++ [])%list p) as Hrows0
    by (intros r Hr; rewrite app_nil_r in Hr; by apply Hrows).
  assert (Z.of_nat (length (buffer_rows p)) <= Z.max 1 incremental_every)
    as Hlen0 by lia.
  destruct e as [pa|it|path c o|c|]; cbn [kill_states] in Hs.
  - apply list_elem_of_singleton in Hs as ->. done.
  - destruct (kept_append_row (rowsH seen) p it Hrows) as [Hrows1 Hlen1].
    set (s1 := append_row _one_row_wide p it) in *.
    assert (Z.of_nat (length (buffer_rows s1)) <= Z.max 1 incremental_every)
      as Hlen1' by lia.
    destruct (incremental_every <=? _).
    + apply elem_of_cons in Hs as [->|Hs]; [done|].
      apply elem_of_cons in Hs as [->|Hs];
        [split; [by apply kept_torn_chunk | done]|].
      apply elem_of_cons in Hs as [->|Hs];
        [split; [by apply kept_write_chunk | done]|].
      apply list_elem_of_singleton in Hs as ->.
      split; [by apply kept_clear_buffer | simpl; lia].
    + apply list_elem_of_singleton in Hs as ->. done.
  - destruct o.
    + apply elem_of_cons in Hs as [->|Hs]; [done|].
      apply list_elem_of_singleton in Hs as ->. done.
    + apply list_elem_of_singleton in Hs as ->. done.
    + apply list_elem_of_singleton in Hs as ->. done.
  - destruct (buffer_rows p) as [|r0 rs] eqn:Ebuf.
    + apply list_elem_of_singleton in Hs as ->. by rewrite Ebuf.
    + rewrite <- Ebuf in *.
      apply elem_of_cons in Hs as [->|Hs];
        [split; [by apply kept_torn_chunk | done]|].
      apply list_elem_of_singleton in Hs as ->.
      split; [by apply kept_write_chunk | done].
  - apply list_elem_of_singleton in Hs as ->. done.
Qed.

Lemma crash_points_keep_rows (s0 : hstate row) (evs : list (event item)) k s :
  buffer_rows s0 = [] ->
  (k, s) ∈ crash_pointsH s0 evs ->
  (forall r, r ∈ rowsH (take k evs) ->
             r ∈ concat (chunks s) ∨ r ∈ buffer_rows s)
  ∧ Z.of_nat (length (buffer_rows s)) <= Z.max 1 incremental_every.
Proof.
  intros Hempty [[= -> ->]|Hin]%elem_of_cons.
  - rewrite Hempty. simpl. split; [by intros r ?%elem_of_nil | lia].
  - apply kill_points_elem in Hin as (j & e & Hj & -> & Hs). simpl.
    rewrite (take_S_r evs j e Hj).
    destruct (StreamFacts.run_keeps_rows _one_row_wide incremental_every true
                s0 (take j evs) eq_refl Hempty) as [Hrows Hlen].
    by apply (kill_states_keep_rows (runH s0 (take j evs))).
Qed.

(** *** The rows received and the rows yielded *)

Lemma received_app (a b : list (event item)) :
  receivedH (a ++ b) = (receivedH a ++ receivedH b)%list.
Proof. unfold received. by rewrite omap_app, concat_app. Qed.

Lemma received_no_request (l : list (event item)) :
  no_request l -> receivedH l = [].
Proof.
  induction 1 as [|e l He _ IH]; [done|].
  unfold received in *. destruct e; simpl; try done. by specialize (He params).
Qed.

Lemma last_page_after_request (before rest : list (event item)) p :
  no_request rest ->
  last_pageH (before ++ EvRequest p :: rest) = page_rowsH p.
Proof.
  intros Hrest. unfold last_page, page_rows.
  rewrite rev_app_distr. simpl. rewrite <- app_assoc, !omap_app. simpl.
  assert (omap (fun e : event item => match e with
                                      | EvRequest p0 => Some p0
                                      | _ => None
                                      end) (rev rest) = []) as ->; [|done].
  apply Forall_rev in Hrest.
  induction Hrest as [|e l He _ IH]; [done|].
  destruct e; simpl; try done. by specialize (He params).
Qed.

Lemma yields_no_request (items : list item) m :
  no_request (take m (map EvYield items)).
Proof.
  apply Forall_take, Forall_forall.
  intros e (x & -> & _)%list_elem_of_fmap. done.
Qed.

(** Every row received is a row yielded or a row of the page fetched
    last. *)
Local Abbreviation accounted X :=
  (forall r, r ∈ receivedH X -> r ∈ rowsH X ∨ r ∈ last_pageH X).
Local Abbreviation settled X := (forall r, r ∈ receivedH X -> r ∈ rowsH X).

Lemma accounted_no_request (before tail : list (event item)) :
  settled before -> no_request tail -> accounted (before ++ tail).
Proof.
  intros Hbefore Htail r Hr. left.
  rewrite received_app, (received_no_request tail Htail), app_nil_r in Hr.
  rewrite RerunMore.rows_app. apply elem_of_app. left. by apply Hbefore.
Qed.

Lemma accounted_in_page (before tail : list (event item)) p :
  settled before -> no_request tail ->
  accounted (before ++ EvRequest p :: tail).
Proof.
  intros Hbefore Htail r Hr.
  rewrite received_app in Hr. apply elem_of_app in Hr as [Hr|Hr].
  - left. rewrite RerunMore.rows_app. apply elem_of_app. left.
    by apply Hbefore.
  - right. rewrite last_page_after_request by done.
    change (receivedH (EvRequest p :: tail))
      with (page_rowsH p ++ receivedH tail)%list in Hr.
    by rewrite (received_no_request tail Htail), app_nil_r in Hr.
Qed.

Lemma settled_page (before : list (event item)) p js path ck o :
  settled before ->
  request_get p = Some js ->
  settled (before ++ EvRequest p :: map EvYield (data js)
                     ++ [EvSave path ck o]).
Proof.
  intros Hbefore Hjs r Hr.
  rewrite received_app in Hr. rewrite RerunMore.rows_app.
  apply elem_of_app in Hr as [Hr|Hr]; apply elem_of_app; [left; auto|].
  right.
  change (receivedH (EvRequest p :: ?l))
    with (page_rowsH p ++ receivedH l)%list in Hr.
  rewrite received_no_request, app_nil_r in Hr.
  - change (rowsH (EvRequest p :: ?l)) with (rowsH l).
    rewrite RerunMore.rows_app, RerunMore.rows_yields.
    apply elem_of_app. left. unfold page_rows in Hr. by rewrite Hjs in Hr.
  - apply Forall_app. split; [|by apply Forall_singleton].
    apply Forall_forall. intros e (x & -> & _)%list_elem_of_fmap. done.
Qed.

(** A page and what follows it, cut anywhere. *)
Lemma accounted_page (before rest : list (event item)) p js path ck o k :
  settled before ->
  request_get p = Some js ->
  (forall before' k', settled before' -> accounted (before' ++ take k' rest)) ->
  accounted (before ++ take k (EvRequest p :: map EvYield (data js)
                                 ++ EvSave path ck o :: rest)).
Proof.
  intros Hbefore Hjs Hrest.
  destruct k as [|k]; [by apply accounted_no_request|].
  rewrite firstn_cons.
  destruct (decide (k <= length (map EvYield (data js)))%nat) as [Hk|Hk].
  - rewrite take_app_le by done.
    apply accounted_in_page; [done | apply yields_no_request].
  - replace k with (length (map EvYield (data js))
                    + S (k - S (length (map EvYield (data js)))))%nat by lia.
    rewrite take_app_add' by done. rewrite firstn_cons.
    set (k' := (k - S (length (map EvYield (data js))))%nat).
    replace (before ++ EvRequest p :: map EvYield (data js)
                    ++ EvSave path ck o :: take k' rest)%list
      with ((before ++ EvRequest p :: map EvYield (data js)
                    ++ [EvSave path ck o]) ++ take k' rest)%list.
    + apply Hrest. by apply settled_page.
    + rewrite <- !app_assoc. simpl. by rewrite <- !app_assoc.
Qed.

Lemma accounted_short (before tail : list (event item)) p k :
  settled before -> no_request tail -> page_rowsH p = [] ->
  accounted (before ++ take k (EvRequest p :: tail)).
Proof.
  intros Hbefore Htail Hpage.
  destruct k as [|k]; [by apply accounted_no_request|].
  rewrite firstn_cons. intros r Hr. left.
  rewrite received_app in Hr. rewrite RerunMore.rows_app.
  apply elem_of_app in Hr as [Hr|Hr]; apply elem_of_app; [left; auto|].
  change (receivedH (EvRequest p :: ?l))
    with (page_rowsH p ++ receivedH l)%list in Hr.
  rewrite Hpage, received_no_request in Hr; [by apply elem_of_nil in Hr|].
  by apply Forall_take.
Qed.

Lemma next_pages_accounted fuel path sig params j cursor before k :
  settled before ->
  accounted (before ++ take k (next_pagesH fuel path sig params j cursor)).
Proof.
  revert params j cursor before k.
  induction fuel as [|fuel IH]; intros params j cursor before k Hbefore.
  - simpl. rewrite take_nil. by apply accounted_no_request.
  - cbn [next_pages].
    assert (no_request (take k [EvDone (item := item) cursor])) as Hdone.
    { apply Forall_take, Forall_singleton. done. }
    destruct cursor as [nc|]; [|by apply accounted_no_request].
    destruct (String.eqb nc ""); [by apply accounted_no_request|].
    set (params' := dict_set "page[cursor]" (VStr nc) params).
    destruct (request_get params') as [js|] eqn:Ejs.
    + destruct (data js) as [|it items] eqn:Edata.
      * apply accounted_short; [done | by apply Forall_singleton|].
        unfold page_rows. by rewrite Ejs, Edata.
      * rewrite <- Edata. apply accounted_page; [done | done|].
        intros before' k' Hbefore'. by apply IH.
    + apply accounted_short; [done | by apply Forall_singleton|].
      unfold page_rows. by rewrite Ejs.
Qed.

Lemma stream_accounted fuel base_params checkpoint_dir client_id fs k :
  accounted (take k (streamH fuel base_params checkpoint_dir client_id fs)).
Proof.
  unfold stream_datacite_with_resume.
  set (params := start_params _ _).
  assert (settled ([] : list (event item))) as Hnil
    by (by intros r ?%elem_of_nil).
  destruct (request_get params) as [js|] eqn:Ejs.
  - apply (accounted_page [] _ params js); [done | done|].
    intros before' k' Hbefore'. by apply next_pages_accounted.
  - apply (accounted_short [] [EvRaise] params k);
      [done | by apply Forall_singleton|].
    unfold page_rows. by rewrite Ejs.
Qed.

(** *** The chunk files after a later call *)

Lemma rows_on_disk_elem (dir : gmap string (list row)) name c r :
  dir !! name = Some c -> r ∈ c -> r ∈ rows_on_disk dir.
Proof.
  intros Hname Hr. unfold rows_on_disk.
  apply SchemaMore.elem_of_concat. exists c. split; [done|].
  apply list_elem_of_fmap. exists (name, c). split; [done|].
  by apply elem_of_map_to_list.
Qed.

(** A chunk of the killed call that the later call does not reach is
    still there. *)
Lemma disk_after_keeps (dir : gmap string (list row)) killed later i c :
  killed !! i = Some c ->
  (length later <= i)%nat ->
  disk_after dir killed later !! chunk_name i = Some c.
Proof.
  intros Hi Hlater. unfold disk_after.
  rewrite OrchestratorMore.write_chunks_other.
  - by apply OrchestratorMore.write_chunks_lookup.
  - intros j Hj Heq. apply OrchestratorMore.chunk_name_inj in Heq. lia.
Qed.

(** C2, amended. A pass with a chunk directory is killed at any point:
    between two events, or while an item or a checkpoint is handled
    (after the append, during or after the write of a chunk, during the
    write of a checkpoint). Every row fetched by then is in a chunk
    file of the call, in the buffer, or in the page fetched last; the
    buffer never has more than [incremental_every] rows (more than one
    when the threshold is below 1). A later call numbers its chunk
    files from 0 again and
    writes over the files of the killed call: the rows fetched that are
    in no chunk file after it are rows of the buffer, of the page
    fetched last, or of the chunk files that the later call has
    replaced. The loss is not bounded by a page. *)
Theorem crash_loss_in_buffer_page_or_replaced_chunks `{EqDecision row}
    (fuel : nat) (base_params : pydict) (checkpoint_dir : string)
    (client_id : option string) (fs : ckpt_store)
    (dir : gmap string (list row)) (later : list (list row))
    (i k : nat) (s : hstate row) :
  crash_pointsH (HState [] [] fs)
    (streamH fuel base_params checkpoint_dir client_id fs) !! i
  = Some (k, s) ->
  (forall r,
      r ∈ receivedH (take k (streamH fuel base_params checkpoint_dir
                               client_id fs)) ->
      r ∈ concat (chunks s) ∨ r ∈ buffer_rows s
      ∨ r ∈ last_pageH (take k (streamH fuel base_params checkpoint_dir
                                  client_id fs)))
  ∧ Z.of_nat (length (buffer_rows s)) <= Z.max 1 incremental_every
  ∧ (forall r,
        r ∈ lost request_get _one_row_wide dir
              (streamH fuel base_params checkpoint_dir client_id fs)
              later (k, s) ->
        r ∈ buffer_rows s
        ∨ r ∈ last_pageH (take k (streamH fuel base_params checkpoint_dir
                                    client_id fs))
        ∨ r ∈ concat (take (length later) (chunks s))).
Proof.
  intros Hpoint. apply list_elem_of_lookup_2 in Hpoint.
  destruct (crash_points_keep_rows (HState [] [] fs) _ _ _ eq_refl Hpoint)
    as [Hrows Hlen].
  assert (forall r,
             r ∈ receivedH (take k (streamH fuel base_params checkpoint_dir
                                      client_id fs)) ->
             r ∈ concat (chunks s) ∨ r ∈ buffer_rows s
             ∨ r ∈ last_pageH (take k (streamH fuel base_params
                                         checkpoint_dir client_id fs)))
    as Hall.
  { intros r Hr.
    destruct (stream_accounted fuel base_params checkpoint_dir client_id fs
                k r Hr) as [Hy|Hl]; [|by right; right].
    destruct (Hrows r Hy); [by left | by right; left]. }
  split; [done|]. split; [done|].
  intros r [Hgone Hr]%list_elem_of_filter. simpl in Hgone, Hr.
  destruct (Hall r Hr) as [Hchunk|[Hbuf|Hlast]];
    [| by left | by right; left].
  right. right.
  apply SchemaMore.elem_of_concat in Hchunk as (c & Hrc & Hc).
  apply list_elem_of_lookup_1 in Hc as (j & Hj).
  destruct (decide (j < length later)%nat) as [Hlt|Hge].
  - apply SchemaMore.elem_of_concat. exists c. split; [done|].
    apply (list_elem_of_lookup_2 _ j). by rewrite lookup_take_lt.
  - exfalso. apply Hgone.
    apply (rows_on_disk_elem _ (chunk_name j) c); [|done].
    apply disk_after_keeps; [done | lia].
Qed.

End Kill.

(** C2 as the specification states it fails. Three pages of two records,
    a flush threshold of 100, the pass killed when the checkpoint of the
    second page is written: the rows of both pages are in the buffer
    only, and the checkpoint points at the third page. The rerun
    fetches the third page and writes it as chunk 0. Record 1, of the
    first page, is fetched, is in no chunk file after the rerun, and is
    not in the page fetched last. *)
Lemma checkpoint_runs_ahead_of_buffer :
  ¬ loss_within_last_page Scenarios.plain Scenarios.no_int Scenarios.plain
      Scenarios.after_eq Scenarios.three_pages Scenarios.all_written
      Some 100 true 10 Scenarios.preprints "ckpt" None ∅ ∅.
Proof.
  intros H.
  assert (exists p,
             crash_points Some 100 true (HState [] [] ∅)
               (Scenarios.pass_of Scenarios.three_pages 10 ∅) !! 10%nat
             = Some p
             ∧ p.1 = 8%nat
             ∧ 1%nat ∈ lost Scenarios.three_pages Some ∅
                        (Scenarios.pass_of Scenarios.three_pages 10 ∅)
                        (rerun_chunks Scenarios.plain Scenarios.no_int
                           Scenarios.plain Scenarios.after_eq
                           Scenarios.three_pages Scenarios.all_written Some
                           100 true 10 Scenarios.preprints "ckpt" None p.2)
                        p
             ∧ 1%nat ∉ last_page Scenarios.three_pages Some
                         (take p.1
                            (Scenarios.pass_of Scenarios.three_pages 10 ∅)))
    as (p & Hp & _ & Hlost & Hnot).
  { eexists. split; [vm_compute; reflexivity|]. split; [reflexivity|]. split.
    - apply (bool_decide_unpack _). vm_compute. exact I.
    - intros Hin. apply (bool_decide_pack _) in Hin. vm_compute in Hin.
      exact Hin. }
  apply Hnot. exact (H 10%nat p Hp 1%nat Hlost).
Qed.

(** The catalogue of three pages with a flush threshold of 3, the pass
    killed right after the third row is appended: the buffer has three
    rows and nothing is on disk; the rerun starts at the second page and
    writes the chunks [3; 4; 5] and [6]. *)
Lemma crash_loss_in_buffer_page_or_replaced_chunks_witness :
  exists s,
    crash_points Some 3 true (HState [] [] ∅)
      (stream_datacite_with_resume Scenarios.plain Scenarios.no_int
         Scenarios.plain Scenarios.after_eq Scenarios.three_pages
         Scenarios.all_written 10 Scenarios.preprints "ckpt" None ∅)
      !! 7%nat
    = Some (6%nat, s)
    ∧ buffer_rows s = [1; 2; 3]%nat
    ∧ chunks s = []
    ∧ rerun_chunks Scenarios.plain Scenarios.no_int Scenarios.plain
        Scenarios.after_eq Scenarios.three_pages Scenarios.all_written Some
        3 true 10 Scenarios.preprints "ckpt" None s
      = [[3; 4; 5]; [6]]%nat
    ∧ (forall r,
          r ∈ received Scenarios.three_pages Some
                (take 6
                   (stream_datacite_with_resume Scenarios.plain
                      Scenarios.no_int Scenarios.plain Scenarios.after_eq
                      Scenarios.three_pages Scenarios.all_written 10
                      Scenarios.preprints "ckpt" None ∅)) ->
          r ∈ concat (chunks s) ∨ r ∈ buffer_rows s
          ∨ r ∈ last_page Scenarios.three_pages Some
                  (take 6
                     (stream_datacite_with_resume Scenarios.plain
                        Scenarios.no_int Scenarios.plain Scenarios.after_eq
                        Scenarios.three_pages Scenarios.all_written 10
                        Scenarios.preprints "ckpt" None ∅)))
    ∧ Z.of_nat (length (buffer_rows s)) <= Z.max 1 3
    ∧ (forall r,
          r ∈ lost Scenarios.three_pages Some ∅
                (stream_datacite_with_resume Scenarios.plain
                   Scenarios.no_int Scenarios.plain Scenarios.after_eq
                   Scenarios.three_pages Scenarios.all_written 10
                   Scenarios.preprints "ckpt" None ∅)
                [[3; 4; 5]; [6]]%nat (6%nat, s) ->
          r ∈ buffer_rows s
          ∨ r ∈ last_page Scenarios.three_pages Some
                  (take 6
                     (stream_datacite_with_resume Scenarios.plain
                        Scenarios.no_int Scenarios.plain Scenarios.after_eq
                        Scenarios.three_pages Scenarios.all_written 10
                        Scenarios.preprints "ckpt" None ∅))
          ∨ r ∈ concat (take (length [[3; 4; 5]; [6]]%nat) (chunks s))).
Proof.
  eexists. split; [vm_compute; reflexivity|]. split; [reflexivity|].
  split; [reflexivity|]. split; [vm_compute; reflexivity|].
  refine (crash_loss_in_buffer_page_or_replaced_chunks Scenarios.plain
            Scenarios.no_int Scenarios.plain Scenarios.after_eq
            Scenarios.three_pages Scenarios.all_written Some 3 10
            Scenarios.preprints "ckpt" None ∅ ∅ [[3; 4; 5]; [6]]%nat 7 6 _
            _).
  vm_compute. reflexivity.
Defined.

End CrashFacts.

(** ** The checkpoint file of a pass *)

Module CheckpointFiles.

Import Stream PyFacts.

Section Pass.

Context {item row : Type}.
Variable encode_basestring : string -> string.
Variable int_repr : Z -> string.
Variable sha1_hexdigest : string -> string.
Variable _parse_next_cursor : string -> option string.
Variable request_get : pydict -> option (response item).
Variable disk : nat -> write_outcome.
Variable _one_row_wide : item -> option row.
Variable incremental_every : Z.
Variable incremental_save_dir : bool.

Local Abbreviation consumeH :=
  (consume _one_row_wide incremental_every incremental_save_dir).
Local Abbreviation runH :=
  (run _one_row_wide incremental_every incremental_save_dir).
Local Abbreviation streamH :=
  (stream_datacite_with_resume encode_basestring int_repr sha1_hexdigest
     _parse_next_cursor request_get disk).
Local Abbreviation next_pagesH :=
  (next_pages _parse_next_cursor request_get disk).
Local Abbreviation pathH :=
  (path_of encode_basestring int_repr sha1_hexdigest).
(** Every write of a checkpoint in the trace goes to this path. *)
Local Abbreviation saves_at path :=
  (Forall (fun e : event item =>
             forall path' c o, e = EvSave path' c o -> path' = path)).

Lemma yields_save_nothing path (items : list item) :
  saves_at path (map EvYield items).
Proof.
  apply Forall_forall. intros e (x & -> & _)%list_elem_of_fmap. done.
Qed.

Lemma next_pages_saves_at fuel path sig params k cursor :
  saves_at path (next_pagesH fuel path sig params k cursor).
Proof.
  revert params k cursor.
  induction fuel as [|fuel IH]; intros params k cursor; [constructor|].
  cbn [next_pages].
  assert (saves_at path [EvDone (item := item) cursor]) as Hdone
    by (by apply Forall_singleton).
  destruct cursor as [nc|]; [|done].
  destruct (String.eqb nc ""); [done|].
  apply Forall_cons. split; [done|].
  destruct (request_get _) as [js|]; [|by apply Forall_singleton].
  destruct (data js) as [|it items]; [done|].
  apply Forall_app. split; [apply yields_save_nothing|].
  apply Forall_cons. split; [by intros ? ? ? [= -> _ _] | apply IH].
Qed.

Lemma stream_saves_at fuel base_params checkpoint_dir client_id fs :
  saves_at (pathH base_params checkpoint_dir client_id)
           (streamH fuel base_params checkpoint_dir client_id fs).
Proof.
  unfold stream_datacite_with_resume.
  fold (pathH base_params checkpoint_dir client_id).
  apply Forall_cons. split; [done|].
  destruct (request_get _) as [js|]; [|by apply Forall_singleton].
  apply Forall_app. split; [apply yields_save_nothing|].
  apply Forall_cons. split; [by intros ? ? ? [= -> _ _]|].
  apply next_pages_saves_at.
Qed.

Lemma run_keeps_other_paths path path' (s : hstate row)
    (evs : list (event item)) :
  saves_at path evs ->
  path' ≠ path ->
  ckpts (runH s evs) !! path' = ckpts s !! path'.
Proof.
  intros Hall Hne. revert s.
  induction Hall as [|e evs He _ IH]; intros s; [done|].
  change (runH s (e :: evs)) with (runH (consumeH s e) evs). rewrite IH.
  destruct e as [p|it|pa c o|c|]; simpl.
  - done.
  - unfold append_row, clear_buffer, write_chunk.
    destruct (_one_row_wide it); simpl;
      destruct (incremental_every <=? _); simpl;
      by destruct incremental_save_dir.
  - rewrite (He pa c o eq_refl). unfold _save_checkpoint.
    destruct o; by rewrite ?lookup_insert_ne.
  - unfold write_chunk. destruct (buffer_rows s); [done|].
    by destruct incremental_save_dir.
  - done.
Qed.

(** X8. A pass writes no checkpoint file but its own: at every point of
    the pass, whether it ends, is killed or stops at a write that
    raises, every file of the checkpoint directory other than the file
    of the pass is as it was when the pass began. *)
Theorem pass_writes_only_its_checkpoint (fuel : nat) (base_params : pydict)
    (checkpoint_dir : string) (client_id : option string)
    (s0 : hstate row) (n : nat) (path' : string) :
  path' ≠ pathH base_params checkpoint_dir client_id ->
  ckpts (runH s0 (take n (streamH fuel base_params checkpoint_dir client_id
                            (ckpts s0)))) !! path'
  = ckpts s0 !! path'.
Proof.
  intros Hne.
  apply (run_keeps_other_paths (pathH base_params checkpoint_dir client_id));
    [|done].
  apply Forall_take, stream_saves_at.
Qed.

End Pass.

Lemma sanitize_get i s :
  String.get i (sanitize s)
  = (fun c : ascii => if bool_decide (c ∈ ["."; "/"; ":"]%char)
                      then "_"%char else c) <$> String.get i s.
Proof.
  revert i. induction s as [|a s IH]; intros i; [done|].
  destruct i as [|i]; simpl; [done | apply IH].
Qed.

(** X9. The name of the checkpoint file of a client: [checkpoint_],
    the signature hash, an underscore and the client identifier with
    each dot, slash and colon turned into an underscore and every other
    character kept, then [.json], joined to the checkpoint directory.
    When the hash has no slash the name has none: the identifier adds
    no directory level. *)
Theorem checkpoint_file_of_a_client (checkpoint_dir signature_hash : string)
    (cid : string) :
  cid ≠ "" ->
  exists tail,
    _checkpoint_path checkpoint_dir signature_hash (Some cid)
    = path_join checkpoint_dir
        ((("checkpoint_" ++ signature_hash) ++ "_" ++ tail) ++ ".json")
    ∧ String.length tail = String.length cid
    ∧ (forall i,
          String.get i tail
          = (fun c : ascii => if bool_decide (c ∈ ["."; "/"; ":"]%char)
                              then "_"%char else c) <$> String.get i cid)
    ∧ (RowMap.has_char "/" signature_hash = false ->
       RowMap.has_char "/"
         ((("checkpoint_" ++ signature_hash) ++ "_" ++ tail) ++ ".json")
       = false).
Proof.
  intros Hcid. exists (sanitize cid). split; [|split; [|split]].
  - unfold _checkpoint_path. apply eqb_string_false in Hcid.
    by rewrite Hcid.
  - apply CheckpointMore.sanitize_length.
  - intros i. apply sanitize_get.
  - intros Hhash. rewrite !RowMapMore.has_char_app, Hhash.
    rewrite CheckpointMore.sanitize_no_separator
      by (apply (bool_decide_unpack _); vm_compute; exact I).
    reflexivity.
Qed.

(** The file of the client [arxiv.content] under the hash [ab12]. *)
Lemma checkpoint_file_of_a_client_witness :
  exists tail,
    _checkpoint_path "ckpt" "ab12" (Some "arxiv.content")
    = path_join "ckpt" ((("checkpoint_" ++ "ab12") ++ "_" ++ tail) ++ ".json")
    ∧ String.length tail = String.length "arxiv.content"
    ∧ (forall i,
          String.get i tail
          = (fun c : ascii => if bool_decide (c ∈ ["."; "/"; ":"]%char)
                              then "_"%char else c)
              <$> String.get i "arxiv.content")
    ∧ (RowMap.has_char "/" "ab12" = false ->
       RowMap.has_char "/"
         ((("checkpoint_" ++ "ab12") ++ "_" ++ tail) ++ ".json")
       = false).
Proof.
  apply (checkpoint_file_of_a_client "ckpt" "ab12" "arxiv.content").
  discriminate.
Defined.

(** The catalogue of three pages, cut after seven events: the
    checkpoint file of another query is untouched. *)
Lemma pass_writes_only_its_checkpoint_witness :
  ckpts (run Some 100 true Scenarios.nothing_yet
           (take 7 (stream_datacite_with_resume Scenarios.plain
                      Scenarios.no_int Scenarios.plain Scenarios.after_eq
                      Scenarios.three_pages Scenarios.all_written 10
                      Scenarios.preprints "ckpt" None
                      (ckpts Scenarios.nothing_yet))))
    !! "ckpt/checkpoint_other.json"
  = ckpts Scenarios.nothing_yet !! "ckpt/checkpoint_other.json".
Proof.
  apply (pass_writes_only_its_checkpoint Scenarios.plain Scenarios.no_int
           Scenarios.plain Scenarios.after_eq Scenarios.three_pages
           Scenarios.all_written Some 100 true 10 Scenarios.preprints "ckpt"
           None Scenarios.nothing_yet 7 "ckpt/checkpoint_other.json").
  intros Heq. vm_compute in Heq. discriminate Heq.
Defined.

End CheckpointFiles.
